(** * quizzgame: scoring, record store and leaderboard

    A shallow embedding of
      - [client/src/lib/utils/quiz.ts]  ([calculateScore], [generateQuizCode]),
      - [server/storage.ts]             (class [MemStorage]),
      - the record types of the shared schema,
    followed by the properties of the specification that concern them.
    The class [DatabaseStorage] of [server/storage.ts] hands every operation
    to the SQL engine through the query builder; what the engine does (the
    order of rows that [ORDER BY] leaves tied, for one) is not in the
    sources and is not embedded.

    JavaScript numbers are IEEE 754 binary64 values.  The scoring function
    divides and multiplies them, so it is embedded on Rocq's primitive
    binary64 floats: the same operations, with the same rounding.  Record
    ids, counters and cumulative scores are whole numbers that the store only
    adds and compares; they are embedded as [Z], which is what binary64 does
    with whole numbers as long as they stay below 2^53.  A JavaScript [Map]
    iterates in insertion order, which the leaderboard depends on, so a
    [Map] is an association list kept in insertion order.  The methods of
    the store are [async]; each is embedded as the function from its first
    statement to its last, and [createAnswer], whose score update comes
    after an [await], also stretch by stretch. *)

From Stdlib Require Import ZArith List String Ascii Bool Lia.
From Stdlib Require Import Floats Permutation Sorted Reals Lra.
From Stdlib Require Import DecimalString DecimalPos DecimalZ.
Import ListNotations.

Local Open Scope Z_scope.

(* ================================================================= *)
(** ** JavaScript built-ins used by the sources *)

(** [Map<number, V>]: entries in insertion order, at most one per key. *)
Module JSMap.
Section WithValue.
Context {V : Type}.

Definition t := list (Z * V).

Definition empty : t := [].

(** [m.get(k)] *)
Fixpoint get (k : Z) (m : t) : option V :=
  match m with
  | [] => None
  | (k', v) :: m' => if k' =? k then Some v else get k m'
  end.

(** [m.has(k)] *)
Definition has (k : Z) (m : t) : bool :=
  match get k m with Some _ => true | None => false end.

(** [m.set(k, v)]: an existing key keeps its position, a new key goes
    last. *)
Fixpoint set (k : Z) (v : V) (m : t) : t :=
  match m with
  | [] => [(k, v)]
  | (k', v') :: m' =>
      if k' =? k then (k', v) :: m' else (k', v') :: set k v m'
  end.

(** [m.delete(k)]: the remaining entries keep their order; the result of
    the call is [has k m]. *)
Definition delete (k : Z) (m : t) : t :=
  filter (fun e => negb (fst e =? k)) m.

Definition keys (m : t) : list Z := map fst m.

(** [Array.from(m.values())] *)
Definition values (m : t) : list V := map snd m.

(** Keys in ascending order, all below [next]: what a counter that only
    grows, handing out the keys, leaves in a [Map]. *)
Definition ascending (next : Z) (m : t) : Prop :=
  StronglySorted Z.lt (keys m) /\ Forall (fun k => k < next) (keys m).

(** [m'] is [m] after deleting the keys [ks]. *)
Definition deleteAll (ks : list Z) (m : t) : t :=
  fold_left (fun m k => delete k m) ks m.
End WithValue.
Arguments t : clear implicits.
End JSMap.

(** [Array.prototype.sort(compareFn)].  ECMAScript requires the sort to be
    stable; for a comparator that is a consistent ordering the result is then
    determined: the stable sorted arrangement.  It is computed here by
    insertion from the right, an element going in front of the first one it
    does not compare greater than. *)
Module JSArray.
Section WithElement.
Context {A : Type}.
Variable compareFn : A -> A -> Z.

Fixpoint insert (x : A) (l : list A) : list A :=
  match l with
  | [] => [x]
  | y :: l' => if compareFn x y <=? 0 then x :: l else y :: insert x l'
  end.

Fixpoint sort (l : list A) : list A :=
  match l with
  | [] => []
  | x :: l' => insert x (sort l')
  end.
End WithElement.

(** By descending [key]. *)
Definition descending {A : Type} (key : A -> Z) : list A -> Prop :=
  StronglySorted (fun a b => key b <= key a).

(** [a] is listed before [b]: after an entry [a] there is an entry [b]. *)
Inductive before {A : Type} (a b : A) : list A -> Prop :=
| before_here l : In b l -> before a b (a :: l)
| before_later x l : before a b l -> before a b (x :: l).
End JSArray.

(** [s.charAt(i)]: the one-character string at index [i], the empty string
    when [i] is out of range. *)
Definition charAt (s : string) (i : nat) : string :=
  match String.get i s with
  | Some c => String c EmptyString
  | None => EmptyString
  end.

(** Numbers. *)
Module Number.
Local Open Scope float_scope.

(** The binary64 value of a whole number (exact below 2^53 in absolute
    value, rounded to nearest beyond). *)
Definition ofZ (z : Z) : float :=
  SF2Prim (binary_normalize prec emax z 0 false).

(** [Math.floor]: NaN, the infinities and the zeros are returned as they
    are; so is a finite value with a non-negative exponent, which is a
    whole number already; otherwise the mantissa is shifted right, rounding
    towards minus infinity. *)
Definition floor (x : float) : float :=
  match Prim2SF x with
  | S754_finite s m e =>
      if (0 <=? e)%Z then x
      else ofZ (Z.shiftr (cond_Zopp s (Zpos m)) (- e))
  | _ => x
  end.

(** The whole number a finite binary64 value holds, its fraction dropped:
    what the numeral [`${x}`] of a whole [x] shows. *)
Definition whole (x : float) : Z :=
  match Prim2SF x with
  | S754_finite s m e =>
      cond_Zopp s
        (if (0 <=? e)%Z then (Zpos m * 2 ^ e)%Z
         else Z.shiftr (Zpos m) (- e))
  | _ => 0%Z
  end.

(** The whole numbers below 2^53 in absolute value ([Number.isSafeInteger]):
    binary64 holds each of them exactly. *)
Definition safe (z : Z) : Prop := (- 2 ^ 53 < z < 2 ^ 53)%Z.

(** Mantissa and exponent of the binary64 value of a positive whole number
    below 2^53: the number shifted left until it has 53 binary digits. *)
Definition canonM (p : positive) : positive :=
  match (53 - Zpos (digits2_pos p))%Z with
  | Zpos k => Pos.iter xO p k
  | _ => p
  end.

Definition canonE (p : positive) : Z := (Zpos (digits2_pos p) - 53)%Z.

Definition canon (z : Z) : spec_float :=
  match z with
  | Z0 => S754_zero false
  | Zpos p => S754_finite false (canonM p) (canonE p)
  | Zneg p => S754_finite true (canonM p) (canonE p)
  end.
End Number.

(* ================================================================= *)
(** ** Binary64 values as real numbers

    What the rounding of the binary64 operations is stated with: the real
    value of a float, and the place of a real number between two
    neighbouring multiples of a power of two. *)

Module Binary64.

Definition bpow (e : Z) : R := powerRZ 2 e.

Definition F2R (m e : Z) : R := (IZR m * bpow e)%R.

(** [x] lies in the cell from [m * 2^e], at the place [l] says. *)
Definition located (x : R) (m e : Z) (l : location) : Prop :=
  match l with
  | loc_Exact => x = F2R m e
  | loc_Inexact c =>
      (F2R m e < x < F2R (m + 1) e)%R
      /\ match c with
         | Lt => (x < F2R m e + bpow e / 2)%R
         | Eq => (x = F2R m e + bpow e / 2)%R
         | Gt => (F2R m e + bpow e / 2 < x)%R
         end
  end.

(** The result of rounding, from the rounded mantissa: a mantissa that
    reached 2^53 is renormalised. *)
Definition finish (s : bool) (mr E : Z) : spec_float :=
  if mr =? 2 ^ 53 then S754_finite s (Z.to_pos (2 ^ 52)) (E + 1)
  else S754_finite s (Z.to_pos mr) E.

(** The value of a finite float. *)
Definition SF2R (f : spec_float) : R :=
  match f with
  | S754_finite s m e => F2R (cond_Zopp s (Zpos m)) e
  | _ => 0%R
  end.

(** Plus zero, or a positive float with a mantissa of 53 digits and an
    exponent from [lo] to [hi]. *)
Definition nonneg53 (lo hi : Z) (f : spec_float) : Prop :=
  match f with
  | S754_zero false => True
  | S754_finite false m e => 2 ^ 52 <= Zpos m < 2 ^ 53 /\ lo <= e <= hi
  | _ => False
  end.

Definition loc_rank (l : location) : Z :=
  match l with
  | loc_Exact => 0
  | loc_Inexact Lt => 1
  | loc_Inexact Eq => 2
  | loc_Inexact Gt => 3
  end.

(** [f] is the rounding of the non-negative [x]: plus zero for 0, else
    [binary_round_aux] of a located mantissa of at least 53 digits, whose
    53-digit exponent is from [lo] to [hi]. *)
Definition rounds_to (lo hi : Z) (x : R) (f : spec_float) : Prop :=
  (x = 0%R /\ f = S754_zero false)
  \/ exists m e l,
       f = binary_round_aux prec emax false m e l
       /\ located x m e l /\ 0 < m /\ 53 <= Zdigits2 m
       /\ lo <= e + Zdigits2 m - 53 <= hi.
End Binary64.

(* ================================================================= *)
(** ** client/src/lib/utils/quiz.ts *)

Module Quiz_ts.
Import Number Binary64.
Local Open Scope float_scope.

Definition characters : string := "ABCDEFGHJKLMNPQRSTUVWXYZ23456789".

(** The body of the [for] loop of [generateQuizCode], [n] iterations.
    [Math.random] and [crypto.randomInt] are the environment's: the values
    [Math.floor(Math.random() * characters.length)] takes, in the order
    they are drawn, are the list [draws].  [None] when the list is used
    up. *)
Fixpoint drawChars (n : nat) (draws : list nat) (code : string)
  : option (string * list nat) :=
  match n with
  | O => Some (code, draws)
  | S n' =>
      match draws with
      | [] => None
      | randomIndex :: draws' =>
          drawChars n' draws' (code ++ charAt characters randomIndex)
      end
  end.

Definition generateQuizCode (draws : list nat)
  : option (string * list nat) :=
  drawChars 6 draws "".

Definition calculateScore (isCorrect : bool) (responseTimeMs : float)
  : float :=
  if negb isCorrect then 0
  else
    let score := 100 in
    if responseTimeMs <? 5000 then score + 50
    else if responseTimeMs <? 10000 then
      score + floor (50 * (1 - (responseTimeMs - 5000) / 5000))
    else score.

(** The code after the draws [draws], starting from [code]. *)
Definition codeFrom (code : string) (draws : list nat) : string :=
  fold_left
    (fun code randomIndex =>
       String.append code (charAt characters randomIndex))
    draws code.

(** The code six draws spell. *)
Definition codeOf (draws : list nat) : string := codeFrom EmptyString draws.

(** What [crypto.randomInt(0, characters.length)] and
    [Math.floor(Math.random() * characters.length)] return: an index into
    [characters]. *)
Definition inRange (randomIndex : nat) : Prop :=
  (randomIndex < String.length characters)%nat.

(** Every character of [code] is one of [characters]. *)
Definition inAlphabet (code : string) : Prop :=
  Forall (fun c => In c (list_ascii_of_string characters))
         (list_ascii_of_string code).

(** The response times between 5000 ms and 10000 ms, where the bonus
    decays. *)
Definition inDecayWindow (t : float) : Prop :=
  (t <? 5000) = false /\ (t <? 10000) = true.

(** The bonus of the decay window on the binary64 values themselves:
    [50 * (1 - (t - 5000) / 5000)], every operation rounding. *)
Definition bonusSF (T : spec_float) : spec_float :=
  SF64mul (Prim2SF 50)
    (SF64sub (Prim2SF 1)
       (SF64div (SF64sub T (Prim2SF 5000)) (Prim2SF 5000))).

(** The binary64 values from 5000 to 10000: positive, with a mantissa of
    53 digits and the exponent -40 or -39. *)
Definition window (T : spec_float) : Prop :=
  nonneg53 (-40) (-39) T
  /\ SFleb (Prim2SF 5000) T = true /\ SFleb T (Prim2SF 10000) = true.

(** What is checked, by evaluation, of each whole bonus: adding it to the
    100 base points is exact. *)
Definition bonusCheck (k : Z) : bool :=
  PrimFloat.Leibniz.eqb (100 + ofZ k) (ofZ (100 + k)).
End Quiz_ts.

(* ================================================================= *)
(** ** The shared schema: record types

    Timestamps ([Date]) are milliseconds since the epoch.  An [Insert...]
    type is the row without its generated columns, a column with a default
    being optional; a [Partial...] type has every field optional. *)

Module QuizStatus.
Definition DRAFT : string := "draft".
Definition ACTIVE : string := "active".
Definition COMPLETED : string := "completed".
End QuizStatus.

Module Admin.
Record t := mk { id : Z; username : string; password : string }.
End Admin.

Module InsertAdmin.
Record t := mk { username : string; password : string }.
End InsertAdmin.

Module Quiz.
Record t := mk {
  id : Z; adminId : Z; title : string; timePerQuestion : Z;
  status : string; code : string; createdAt : Z }.
End Quiz.

Module InsertQuiz.
Record t := mk {
  adminId : Z; title : string; timePerQuestion : option Z;
  status : option string; code : string }.
End InsertQuiz.

Module PartialQuiz.
Record t := mk {
  id : option Z; adminId : option Z; title : option string;
  timePerQuestion : option Z; status : option string;
  code : option string; createdAt : option Z }.
Definition none : t := mk None None None None None None None.
End PartialQuiz.

Module QuizOption.
Record t := mk { id : Z; text : string; isCorrect : bool }.
End QuizOption.

Module Question.
Record t := mk {
  id : Z; quizId : Z; text : string; options : list QuizOption.t;
  order : Z }.
End Question.

Module InsertQuestion.
Record t := mk {
  quizId : Z; text : string; options : list QuizOption.t; order : Z }.
End InsertQuestion.

Module PartialQuestion.
Record t := mk {
  id : option Z; quizId : option Z; text : option string;
  options : option (list QuizOption.t); order : option Z }.
End PartialQuestion.

Module Participant.
Record t := mk {
  id : Z; quizId : Z; alias : string; score : Z; joinedAt : Z }.
End Participant.

Module InsertParticipant.
Record t := mk { quizId : Z; alias : string; score : option Z }.
End InsertParticipant.

Module PartialParticipant.
Record t := mk {
  id : option Z; quizId : option Z; alias : option string;
  score : option Z; joinedAt : option Z }.
Definition none : t := mk None None None None None.
End PartialParticipant.

Module Answer.
Record t := mk {
  id : Z; participantId : Z; questionId : Z; selectedOption : Z;
  isCorrect : bool; responseTime : Z; score : Z }.
End Answer.

Module InsertAnswer.
Record t := mk {
  participantId : Z; questionId : Z; selectedOption : Z;
  isCorrect : bool; responseTime : Z; score : Z }.
End InsertAnswer.

(** [{ ...existing, ...patch }], field by field. *)
Definition spread {A : Type} (existing : A) (patch : option A) : A :=
  match patch with Some v => v | None => existing end.

Definition spreadQuiz (existingQuiz : Quiz.t) (quiz : PartialQuiz.t)
  : Quiz.t :=
  Quiz.mk (spread (Quiz.id existingQuiz) (PartialQuiz.id quiz))
    (spread (Quiz.adminId existingQuiz) (PartialQuiz.adminId quiz))
    (spread (Quiz.title existingQuiz) (PartialQuiz.title quiz))
    (spread (Quiz.timePerQuestion existingQuiz)
            (PartialQuiz.timePerQuestion quiz))
    (spread (Quiz.status existingQuiz) (PartialQuiz.status quiz))
    (spread (Quiz.code existingQuiz) (PartialQuiz.code quiz))
    (spread (Quiz.createdAt existingQuiz) (PartialQuiz.createdAt quiz)).

Definition spreadQuestion (existingQuestion : Question.t)
  (question : PartialQuestion.t) : Question.t :=
  Question.mk
    (spread (Question.id existingQuestion) (PartialQuestion.id question))
    (spread (Question.quizId existingQuestion)
            (PartialQuestion.quizId question))
    (spread (Question.text existingQuestion) (PartialQuestion.text question))
    (spread (Question.options existingQuestion)
            (PartialQuestion.options question))
    (spread (Question.order existingQuestion)
            (PartialQuestion.order question)).

Definition spreadParticipant (existingParticipant : Participant.t)
  (participant : PartialParticipant.t) : Participant.t :=
  Participant.mk
    (spread (Participant.id existingParticipant)
            (PartialParticipant.id participant))
    (spread (Participant.quizId existingParticipant)
            (PartialParticipant.quizId participant))
    (spread (Participant.alias existingParticipant)
            (PartialParticipant.alias participant))
    (spread (Participant.score existingParticipant)
            (PartialParticipant.score participant))
    (spread (Participant.joinedAt existingParticipant)
            (PartialParticipant.joinedAt participant)).

(** [a ?? b] *)
Definition nullish {A : Type} (a : option A) (b : A) : A :=
  match a with Some v => v | None => b end.

(* ================================================================= *)
(** ** server/storage.ts: class MemStorage *)

Module MemStorage.

Record t := mk {
  admins : JSMap.t Admin.t;
  quizzes : JSMap.t Quiz.t;
  questions : JSMap.t Question.t;
  participants : JSMap.t Participant.t;
  answers : JSMap.t Answer.t;
  adminId : Z;
  quizId : Z;
  questionId : Z;
  participantId : Z;
  answerId : Z }.

(** The fields as the constructor sets them, before it adds the sample
    records. *)
Definition empty : t :=
  mk JSMap.empty JSMap.empty JSMap.empty JSMap.empty JSMap.empty
     1 1 1 1 1.

(** A method is a function of the store that returns its result and the
    store it leaves. *)
Definition M (A : Type) : Type := t -> A * t.

Definition ret {A} (a : A) : M A := fun st => (a, st).

Definition bind {A B} (c : M A) (k : A -> M B) : M B :=
  fun st => let (a, st') := c st in k a st'.

Declare Scope storage_scope.
Delimit Scope storage_scope with storage.
Notation "x <- c ;; k" := (bind c (fun x => k))
  (at level 61, c at next level, right associativity) : storage_scope.
Notation "c ;; k" := (bind c (fun _ => k))
  (at level 61, right associativity) : storage_scope.
Local Open Scope storage_scope.

(** [for (const x of xs) { body }] *)
Fixpoint forEach {A} (xs : list A) (body : A -> M unit) : M unit :=
  match xs with
  | [] => ret tt
  | x :: xs' => body x ;; forEach xs' body
  end.

Definition read {A} (f : t -> A) : M A := fun st => (f st, st).

Definition withAdmins m (st : t) : t :=
  mk m (quizzes st) (questions st) (participants st) (answers st)
     (adminId st) (quizId st) (questionId st) (participantId st)
     (answerId st).
Definition withQuizzes m (st : t) : t :=
  mk (admins st) m (questions st) (participants st) (answers st)
     (adminId st) (quizId st) (questionId st) (participantId st)
     (answerId st).
Definition withQuestions m (st : t) : t :=
  mk (admins st) (quizzes st) m (participants st) (answers st)
     (adminId st) (quizId st) (questionId st) (participantId st)
     (answerId st).
Definition withParticipants m (st : t) : t :=
  mk (admins st) (quizzes st) (questions st) m (answers st)
     (adminId st) (quizId st) (questionId st) (participantId st)
     (answerId st).
Definition withAnswers m (st : t) : t :=
  mk (admins st) (quizzes st) (questions st) (participants st) m
     (adminId st) (quizId st) (questionId st) (participantId st)
     (answerId st).

Definition setAdmins m : M unit := fun st => (tt, withAdmins m st).
Definition setQuizzes m : M unit := fun st => (tt, withQuizzes m st).
Definition setQuestions m : M unit := fun st => (tt, withQuestions m st).
Definition setParticipants m : M unit :=
  fun st => (tt, withParticipants m st).
Definition setAnswers m : M unit := fun st => (tt, withAnswers m st).

(** [this.adminId++] and its siblings: the value before the increment. *)
Definition nextAdminId : M Z := fun st =>
  (adminId st,
   mk (admins st) (quizzes st) (questions st) (participants st)
      (answers st) (adminId st + 1) (quizId st) (questionId st)
      (participantId st) (answerId st)).
Definition nextQuizId : M Z := fun st =>
  (quizId st,
   mk (admins st) (quizzes st) (questions st) (participants st)
      (answers st) (adminId st) (quizId st + 1) (questionId st)
      (participantId st) (answerId st)).
Definition nextQuestionId : M Z := fun st =>
  (questionId st,
   mk (admins st) (quizzes st) (questions st) (participants st)
      (answers st) (adminId st) (quizId st) (questionId st + 1)
      (participantId st) (answerId st)).
Definition nextParticipantId : M Z := fun st =>
  (participantId st,
   mk (admins st) (quizzes st) (questions st) (participants st)
      (answers st) (adminId st) (quizId st) (questionId st)
      (participantId st + 1) (answerId st)).
Definition nextAnswerId : M Z := fun st =>
  (answerId st,
   mk (admins st) (quizzes st) (questions st) (participants st)
      (answers st) (adminId st) (quizId st) (questionId st)
      (participantId st) (answerId st + 1)).

(** *** Admin methods *)

Definition getAdmin (id : Z) : M (option Admin.t) :=
  read (fun st => JSMap.get id (admins st)).

Definition getAdminByUsername (username : string) : M (option Admin.t) :=
  read (fun st =>
    find (fun admin => String.eqb (Admin.username admin) username)
         (JSMap.values (admins st))).

Definition createAdmin (admin : InsertAdmin.t) : M Admin.t :=
  id <- nextAdminId ;;
  let newAdmin :=
    Admin.mk id (InsertAdmin.username admin) (InsertAdmin.password admin) in
  m <- read admins ;;
  setAdmins (JSMap.set id newAdmin m) ;;
  ret newAdmin.

(** *** Quiz methods *)

Definition getQuiz (id : Z) : M (option Quiz.t) :=
  read (fun st => JSMap.get id (quizzes st)).

Definition getQuizByCode (code : string) : M (option Quiz.t) :=
  read (fun st =>
    find (fun quiz => String.eqb (Quiz.code quiz) code)
         (JSMap.values (quizzes st))).

Definition getQuizzesByAdmin (adminId : Z) : M (list Quiz.t) :=
  read (fun st =>
    filter (fun quiz => Quiz.adminId quiz =? adminId)
           (JSMap.values (quizzes st))).

(** [createdAt] is [new Date()], the clock reading [now].
    [quiz.timePerQuestion || 15] and [quiz.status || 'draft'] replace a
    missing value and also the falsy [0] and [''] *)
Definition createQuiz (quiz : InsertQuiz.t) (now : Z) : M Quiz.t :=
  id <- nextQuizId ;;
  let createdAt := now in
  let newQuiz :=
    Quiz.mk id (InsertQuiz.adminId quiz) (InsertQuiz.title quiz)
      (match InsertQuiz.timePerQuestion quiz with
       | Some 0 | None => 15
       | Some n => n
       end)
      (match InsertQuiz.status quiz with
       | Some EmptyString | None => "draft"%string
       | Some s => s
       end)
      (InsertQuiz.code quiz) createdAt in
  m <- read quizzes ;;
  setQuizzes (JSMap.set id newQuiz m) ;;
  ret newQuiz.

Definition updateQuiz (id : Z) (quiz : PartialQuiz.t)
  : M (option Quiz.t) :=
  m <- read quizzes ;;
  match JSMap.get id m with
  | None => ret None
  | Some existingQuiz =>
      let updatedQuiz := spreadQuiz existingQuiz quiz in
      setQuizzes (JSMap.set id updatedQuiz m) ;;
      ret (Some updatedQuiz)
  end.

(** *** Question methods *)

Definition getQuestion (id : Z) : M (option Question.t) :=
  read (fun st => JSMap.get id (questions st)).

Definition getQuestionsByQuiz (quizId : Z) : M (list Question.t) :=
  read (fun st =>
    JSArray.sort (fun a b => Question.order a - Question.order b)
      (filter (fun question => Question.quizId question =? quizId)
              (JSMap.values (questions st)))).

Definition createQuestion (question : InsertQuestion.t) : M Question.t :=
  id <- nextQuestionId ;;
  let newQuestion :=
    Question.mk id (InsertQuestion.quizId question)
      (InsertQuestion.text question) (InsertQuestion.options question)
      (InsertQuestion.order question) in
  m <- read questions ;;
  setQuestions (JSMap.set id newQuestion m) ;;
  ret newQuestion.

Definition updateQuestion (id : Z) (question : PartialQuestion.t)
  : M (option Question.t) :=
  m <- read questions ;;
  match JSMap.get id m with
  | None => ret None
  | Some existingQuestion =>
      let updatedQuestion := spreadQuestion existingQuestion question in
      setQuestions (JSMap.set id updatedQuestion m) ;;
      ret (Some updatedQuestion)
  end.

(** *** Participant methods *)

Definition getParticipant (id : Z) : M (option Participant.t) :=
  read (fun st => JSMap.get id (participants st)).

Definition getParticipantsByQuiz (quizId : Z) : M (list Participant.t) :=
  read (fun st =>
    filter (fun participant => Participant.quizId participant =? quizId)
           (JSMap.values (participants st))).

(** [joinedAt] is [new Date()], the clock reading [now]. *)
Definition createParticipant (participant : InsertParticipant.t) (now : Z)
  : M Participant.t :=
  id <- nextParticipantId ;;
  let joinedAt := now in
  let newParticipant :=
    Participant.mk id (InsertParticipant.quizId participant)
      (InsertParticipant.alias participant)
      (nullish (InsertParticipant.score participant) 0) joinedAt in
  m <- read participants ;;
  setParticipants (JSMap.set id newParticipant m) ;;
  ret newParticipant.

Definition updateParticipant (id : Z) (participant : PartialParticipant.t)
  : M (option Participant.t) :=
  m <- read participants ;;
  match JSMap.get id m with
  | None => ret None
  | Some existingParticipant =>
      let updatedParticipant :=
        spreadParticipant existingParticipant participant in
      setParticipants (JSMap.set id updatedParticipant m) ;;
      ret (Some updatedParticipant)
  end.

(** *** Answer methods *)

Definition getAnswer (id : Z) : M (option Answer.t) :=
  read (fun st => JSMap.get id (answers st)).

Definition getAnswersByParticipant (participantId : Z)
  : M (list Answer.t) :=
  read (fun st =>
    filter (fun answer => Answer.participantId answer =? participantId)
           (JSMap.values (answers st))).

Definition getAnswersByQuestion (questionId : Z) : M (list Answer.t) :=
  read (fun st =>
    filter (fun answer => Answer.questionId answer =? questionId)
           (JSMap.values (answers st))).

(** [createAnswer] from its first statement to its last, nothing else
    running while it waits at its [await]s; [InFlight], below, has it
    stretch by stretch.  The scores are whole numbers: as long as they
    stay below 2^53 in absolute value, the binary64 sum is their sum. *)
Definition createAnswer (answer : InsertAnswer.t) : M Answer.t :=
  id <- nextAnswerId ;;
  let newAnswer :=
    Answer.mk id (InsertAnswer.participantId answer)
      (InsertAnswer.questionId answer) (InsertAnswer.selectedOption answer)
      (InsertAnswer.isCorrect answer) (InsertAnswer.responseTime answer)
      (InsertAnswer.score answer) in
  m <- read answers ;;
  setAnswers (JSMap.set id newAnswer m) ;;
  (* Update participant score *)
  participant <- getParticipant (InsertAnswer.participantId answer) ;;
  match participant with
  | Some participant =>
      let updatedScore :=
        Participant.score participant + InsertAnswer.score answer in
      updateParticipant (Participant.id participant)
        (PartialParticipant.mk None None None (Some updatedScore) None) ;;
      ret newAnswer
  | None => ret newAnswer
  end.

(** *** Deletion *)

Definition deleteAnswerById (id : Z) : M unit :=
  m <- read answers ;;
  setAnswers (JSMap.delete id m).

Definition deleteQuestion (id : Z) : M bool :=
  (* Delete all answers related to this question *)
  answers <- getAnswersByQuestion id ;;
  forEach answers (fun answer => deleteAnswerById (Answer.id answer)) ;;
  m <- read questions ;;
  setQuestions (JSMap.delete id m) ;;
  ret (JSMap.has id m).

Definition deleteQuiz (id : Z) : M bool :=
  (* Delete all related questions, participants, and answers first *)
  questions <- getQuestionsByQuiz id ;;
  forEach questions (fun question =>
    deleteQuestion (Question.id question) ;; ret tt) ;;
  participants <- getParticipantsByQuiz id ;;
  forEach participants (fun participant =>
    (* Delete all answers by this participant *)
    answers <- getAnswersByParticipant (Participant.id participant) ;;
    forEach answers (fun answer => deleteAnswerById (Answer.id answer)) ;;
    m <- read MemStorage.participants ;;
    setParticipants (JSMap.delete (Participant.id participant) m)) ;;
  m <- read quizzes ;;
  setQuizzes (JSMap.delete id m) ;;
  ret (JSMap.has id m).

(** *** Special methods *)

Definition getLeaderboard (quizId : Z) : M (list Participant.t) :=
  participants <- getParticipantsByQuiz quizId ;;
  ret (JSArray.sort
         (fun a b => Participant.score b - Participant.score a)
         participants).

(** [generateQuizCode] draws six characters and calls itself again when
    the code is taken.  [crypto.randomInt(0, characters.length)] is the
    environment's: its successive values are the list [draws].  Every
    attempt uses six of them, so [fuel] attempts are enough for a list of
    [fuel] draws; [None] when the draws are used up before a free code
    came out. *)
Fixpoint generateQuizCode_rec (fuel : nat) (draws : list nat)
  : M (option (string * list nat)) :=
  match fuel with
  | O => ret None
  | S fuel' =>
      match Quiz_ts.drawChars 6 draws "" with
      | None => ret None
      | Some (code, draws') =>
          (* Check if the code already exists, regenerate if needed *)
          existingQuiz <- getQuizByCode code ;;
          match existingQuiz with
          | Some _ => generateQuizCode_rec fuel' draws'
          | None => ret (Some (code, draws'))
          end
      end
  end.

Definition generateQuizCode (draws : list nat)
  : M (option (string * list nat)) :=
  generateQuizCode_rec (S (List.length draws)) draws.

(** *** The operations that change the store, as data *)

Inductive call :=
| CreateAdmin (admin : InsertAdmin.t)
| CreateQuiz (quiz : InsertQuiz.t) (now : Z)
| UpdateQuiz (id : Z) (quiz : PartialQuiz.t)
| DeleteQuiz (id : Z)
| CreateQuestion (question : InsertQuestion.t)
| UpdateQuestion (id : Z) (question : PartialQuestion.t)
| DeleteQuestion (id : Z)
| CreateParticipant (participant : InsertParticipant.t) (now : Z)
| UpdateParticipant (id : Z) (participant : PartialParticipant.t)
| CreateAnswer (answer : InsertAnswer.t).

(** The store a call leaves, once it has returned and with no other call
    made in the meantime. *)
Definition run (c : call) (st : t) : t :=
  match c with
  | CreateAdmin admin => snd (createAdmin admin st)
  | CreateQuiz quiz now => snd (createQuiz quiz now st)
  | UpdateQuiz id quiz => snd (updateQuiz id quiz st)
  | DeleteQuiz id => snd (deleteQuiz id st)
  | CreateQuestion question => snd (createQuestion question st)
  | UpdateQuestion id question => snd (updateQuestion id question st)
  | DeleteQuestion id => snd (deleteQuestion id st)
  | CreateParticipant participant now =>
      snd (createParticipant participant now st)
  | UpdateParticipant id participant =>
      snd (updateParticipant id participant st)
  | CreateAnswer answer => snd (createAnswer answer st)
  end.

Definition runs (cs : list call) (st : t) : t :=
  fold_left (fun st c => run c st) cs st.

(** The stores the class can be in: the empty one and what calls make of
    it. *)
Inductive reachable : t -> Prop :=
| reachable_empty : reachable empty
| reachable_run c st : reachable st -> reachable (run c st).

(** The store once the constructor and its pending [then] callback have
    run: the default admin and the sample quiz with its two questions. *)
Definition constructed (now : Z) : t :=
  snd ((createAdmin (InsertAdmin.mk "admin" "password") ;;
        quiz <- createQuiz
                  (InsertQuiz.mk 1 "Geography Quiz" (Some 15)
                     (Some QuizStatus.ACTIVE) "GEO123") now ;;
        createQuestion
          (InsertQuestion.mk (Quiz.id quiz)
             "What is the capital of France?"
             [QuizOption.mk 0 "Paris" true; QuizOption.mk 1 "London" false;
              QuizOption.mk 2 "Berlin" false;
              QuizOption.mk 3 "Madrid" false] 0) ;;
        createQuestion
          (InsertQuestion.mk (Quiz.id quiz)
             "Which river is the longest in the world?"
             [QuizOption.mk 0 "Amazon" false; QuizOption.mk 1 "Nile" true;
              QuizOption.mk 2 "Mississippi" false;
              QuizOption.mk 3 "Yangtze" false] 1)) empty).

(** *** Notions the properties are stated with *)

(** Ids are handed out in ascending order and never twice. *)
Definition wf (st : t) : Prop :=
  JSMap.ascending (participantId st) (participants st)
  /\ JSMap.ascending (answerId st) (answers st).

(** Every participant record carries the id it is stored under. *)
Definition idsOk (st : t) : Prop :=
  forall k p, JSMap.get k (participants st) = Some p -> Participant.id p = k.

(** The stored answers of one participant to one question. *)
Definition answersFor (participantId questionId : Z) (st : t)
  : list Answer.t :=
  filter (fun answer =>
            (Answer.participantId answer =? participantId)
            && (Answer.questionId answer =? questionId))
         (JSMap.values (answers st)).

Definition isFor (participantId questionId : Z) (answer : InsertAnswer.t)
  : bool :=
  (InsertAnswer.participantId answer =? participantId)
  && (InsertAnswer.questionId answer =? questionId).

(** A sequence of [createAnswer] calls, each made when the one before
    has returned. *)
Definition createAnswers (submissions : list InsertAnswer.t) : M unit :=
  forEach submissions (fun answer => createAnswer answer ;; ret tt).

(** The calls that leave the scoring of answers as the only source of
    score changes: no [updateParticipant] that sets a score or an id, no
    answer with a negative score. *)
Definition scoreKeeping (c : call) : Prop :=
  match c with
  | UpdateParticipant _ participant =>
      PartialParticipant.score participant = None
      /\ PartialParticipant.id participant = None
  | CreateAnswer answer => 0 <= InsertAnswer.score answer
  | _ => True
  end.

(** The record [createAnswer] stores. *)
Definition newAnswerOf (answer : InsertAnswer.t) (st : t) : Answer.t :=
  Answer.mk (answerId st) (InsertAnswer.participantId answer)
    (InsertAnswer.questionId answer) (InsertAnswer.selectedOption answer)
    (InsertAnswer.isCorrect answer) (InsertAnswer.responseTime answer)
    (InsertAnswer.score answer).

(** [{ score: updatedScore }] *)
Definition scorePatch (updatedScore : Z) : PartialParticipant.t :=
  PartialParticipant.mk None None None (Some updatedScore) None.

(** The calls that touch neither participants nor answers. *)
Definition bystander (c : call) : Prop :=
  match c with
  | CreateAdmin _ | CreateQuiz _ _ | UpdateQuiz _ _ | CreateQuestion _
  | UpdateQuestion _ _ => True
  | _ => False
  end.

(** The code is taken: a stored quiz has it. *)
Definition taken (code : string) (st : t) : bool :=
  match fst (getQuizByCode code st) with Some _ => true | None => false end.

(** An attempt of [generateQuizCode] that ends in a retry: six draws that
    spell a taken code. *)
Definition collides (st : t) (attempt : list nat) : Prop :=
  List.length attempt = 6%nat
  /\ taken (Quiz_ts.codeOf attempt) st = true.

(** The store has lost records by deletion and is otherwise as it was,
    as far as participants and answers go. *)
Definition shrunk (st st' : t) : Prop :=
  participantId st' = participantId st
  /\ answerId st' = answerId st
  /\ (exists ks, participants st' = JSMap.deleteAll ks (participants st))
  /\ (exists ks, answers st' = JSMap.deleteAll ks (answers st)).

End MemStorage.

(* ================================================================= *)
(** ** A sample session *)

Module Sample.
Import MemStorage.

Definition alice : InsertParticipant.t :=
  InsertParticipant.mk 1 "Alice" None.
Definition bob : InsertParticipant.t :=
  InsertParticipant.mk 1 "Bob" (Some 7).
Definition carol : InsertParticipant.t :=
  InsertParticipant.mk 1 "Carol" None.
Definition dave : InsertParticipant.t :=
  InsertParticipant.mk 1 "Dave" (Some 7).

(** The constructed store after Alice joined the sample quiz. *)
Definition joined : t := run (CreateParticipant alice 0) (constructed 0).

(** Alice answers question 1 correctly after 3000 ms. *)
Definition submission : InsertAnswer.t :=
  InsertAnswer.mk 1 1 0 true 3000 150.

(** Alice answers question 2 wrongly, after 4000 ms: no points. *)
Definition miss : InsertAnswer.t :=
  InsertAnswer.mk 1 2 0 false 4000 0.

(** Bob has joined as well, and an update has written the id 2 into the
    record stored under 1. *)
Definition relabelled : t :=
  runs [CreateParticipant bob 5;
        UpdateParticipant 1
          (PartialParticipant.mk (Some 2) None None None None)]
       joined.

(** Bob, Carol and Dave join, Alice answers, and a second quiz with the
    code ABCDEF is created. *)
Definition lobby : t :=
  runs [CreateParticipant bob 5; CreateParticipant carol 6;
        CreateParticipant dave 7; CreateAnswer submission;
        CreateQuiz (InsertQuiz.mk 1 "Second quiz" None None "ABCDEF") 8]
       joined.
End Sample.

(* ================================================================= *)
(** ** client/src/lib/utils/quiz.ts: the helpers of the views

    [formatTime] and [getPositionSuffix] are embedded for whole numbers, the
    seconds of a countdown and the places of a leaderboard.  On whole
    numbers that binary64 holds, [<], [<=] and [>=] compare them as they
    are, [n % d] is the remainder that has the sign of [n], with no
    rounding, and a template literal writes the decimal numeral of a whole
    number below 10^21.  The quotient [seconds / 60] is rounded to binary64
    before [Math.floor] sees it, so [formatTime] takes it on the floats. *)

Module QuizView.

(** [options.find(option => option.isCorrect)] *)
Definition findCorrectOption (options : list QuizOption.t)
  : option QuizOption.t :=
  find (fun option => QuizOption.isCorrect option) options.

(** [`${n}`] *)
Definition toString (n : Z) : string :=
  NilZero.string_of_int (Z.to_int n).

Definition formatTime (seconds : Z) : string :=
  if seconds <? 60 then toString seconds ++ "s"
  else
    let mins := Number.floor (Number.ofZ seconds / 60)%float in
    let secs := Z.rem seconds 60 in
    toString (Number.whole mins) ++ "m " ++ toString secs ++ "s".

Definition getPositionSuffix (position : Z) : string :=
  if (11 <=? position) && (position <=? 13) then toString position ++ "th"
  else
    match Z.rem position 10 with
    | 1 => toString position ++ "st"
    | 2 => toString position ++ "nd"
    | 3 => toString position ++ "rd"
    | _ => toString position ++ "th"
    end.

(** [a[i] = x], for an index [i] of [a]. *)
Fixpoint assign {T : Type} (i : nat) (x : T) (a : list T) : list T :=
  match a, i with
  | [], _ => []
  | _ :: a', O => x :: a'
  | y :: a', S i' => y :: assign i' x a'
  end.

(** [[newArray[i], newArray[j]] = [newArray[j], newArray[i]]]: both
    elements are read, then [newArray[i]] is written, then [newArray[j]].
    [None] when [i] or [j] is no index of the array. *)
Definition swap {T : Type} (i j : nat) (newArray : list T)
  : option (list T) :=
  match nth_error newArray j, nth_error newArray i with
  | Some atJ, Some atI => Some (assign j atI (assign i atJ newArray))
  | _, _ => None
  end.

(** The loop [for (let i = ...; i > 0; i--)] of [shuffleArray], from [i]
    down.  [Math.random] is the environment's: the values
    [Math.floor(Math.random() * (i + 1))] takes, in the order they are
    drawn, are the list [draws]; each is a whole number from 0 to [i].
    [None] when the list is used up, or holds a value the expression
    cannot take. *)
Fixpoint shuffleFrom {T : Type} (i : nat) (draws : list nat)
  (newArray : list T) : option (list T * list nat) :=
  match i with
  | O => Some (newArray, draws)
  | S i' =>
      match draws with
      | [] => None
      | j :: draws' =>
          if (j <=? i)%nat then
            match swap i j newArray with
            | Some newArray' => shuffleFrom i' draws' newArray'
            | None => None
            end
          else None
      end
  end.

Definition shuffleArray {T : Type} (draws : list nat) (array : list T)
  : option (list T * list nat) :=
  let newArray := array in
  shuffleFrom (List.length newArray - 1) draws newArray.

(** Draws the loop from [i] down can get: one for each index from [i] to
    1, none above its index. *)
Fixpoint fitting (i : nat) (draws : list nat) : Prop :=
  match i with
  | O => True
  | S i' =>
      match draws with
      | [] => False
      | j :: draws' => (j <= i)%nat /\ fitting i' draws'
      end
  end.

(** The suffix of an English ordinal number: th for the teens, else by the
    last digit. *)
Definition ordinal (position : Z) : string :=
  if (11 <=? position mod 100) && (position mod 100 <=? 13) then "th"
  else
    match position mod 10 with
    | 1 => "st"
    | 2 => "nd"
    | 3 => "rd"
    | _ => "th"
    end.
End QuizView.

(* ================================================================= *)
(** ** Notions the further properties of the store are stated with *)

Module Store.
Import MemStorage.

(** Every [Map] has its keys in ascending order, below its counter. *)
Definition ordered (st : t) : Prop :=
  JSMap.ascending (adminId st) (admins st)
  /\ JSMap.ascending (quizId st) (quizzes st)
  /\ JSMap.ascending (questionId st) (questions st)
  /\ JSMap.ascending (participantId st) (participants st)
  /\ JSMap.ascending (answerId st) (answers st).

(** Every record of the [Map] carries the id it is stored under. *)
Definition keyed {V : Type} (id : V -> Z) (m : JSMap.t V) : Prop :=
  Forall (fun entry => id (snd entry) = fst entry) m.

(** The store has lost records by deletion and is otherwise as it was. *)
Definition pruned (st st' : t) : Prop :=
  admins st' = admins st
  /\ adminId st' = adminId st /\ quizId st' = quizId st
  /\ questionId st' = questionId st
  /\ participantId st' = participantId st /\ answerId st' = answerId st
  /\ (exists ks, quizzes st' = JSMap.deleteAll ks (quizzes st))
  /\ (exists ks, questions st' = JSMap.deleteAll ks (questions st))
  /\ (exists ks, participants st' = JSMap.deleteAll ks (participants st))
  /\ (exists ks, answers st' = JSMap.deleteAll ks (answers st)).


(** The points of the stored answers of a participant. *)
Definition total (participantId : Z) (st : t) : Z :=
  fold_right Z.add 0
    (map Answer.score (fst (getAnswersByParticipant participantId st))).

(** The same points added up the way [createAnswer] adds them: in
    binary64, one answer after the other. *)
Definition total64 (participantId : Z) (st : t) : float :=
  fold_left
    (fun sum answer => (sum + Number.ofZ (Answer.score answer))%float)
    (fst (getAnswersByParticipant participantId st)) (Number.ofZ 0).

(** The calls of a quiz that is being played, in the store [st]:
    participants join without points of their own, answers come from
    participants of the store and bring points that keep the
    participant's score below 2^53 in absolute value, where binary64 adds
    whole numbers exactly; no update sets a score or an id, and nothing
    is deleted. *)
Definition playing (c : call) (st : t) : Prop :=
  match c with
  | CreateParticipant participant _ =>
      nullish (InsertParticipant.score participant) 0 = 0
  | UpdateParticipant _ participant =>
      PartialParticipant.score participant = None
      /\ PartialParticipant.id participant = None
  | CreateAnswer answer =>
      exists participant,
        JSMap.get (InsertAnswer.participantId answer) (participants st)
        = Some participant
        /\ Number.safe (InsertAnswer.score answer)
        /\ Number.safe
             (Participant.score participant + InsertAnswer.score answer)
  | DeleteQuiz _ | DeleteQuestion _ => False
  | _ => True
  end.

(** The stores of a quiz played by calls made one after the other: each
    has returned before the next is made ([run] takes a call from its
    first statement to its last). *)
Inductive played : t -> Prop :=
| played_empty : played empty
| played_run c st : played st -> playing c st -> played (run c st).

(** The default admin of the constructor. *)
Definition defaultAdmin : Admin.t := Admin.mk 1 "admin" "password".
End Store.

(* ================================================================= *)
(** ** server/storage.ts: [createAnswer] and its [await]s

    The methods of [MemStorage] are [async] functions: a call runs as far as
    its first [await] at once and goes on from there later, after whatever
    else was due.  [createAnswer] waits twice.  Before
    [await this.getParticipant(...)] it has stored the answer, and
    [getParticipant] has read the [Map]; after it the score is added to the
    record that was read then and written by [updateParticipant]; after
    [await this.updateParticipant(...)] the method only returns.  One after
    the other, the two stretches are [MemStorage.createAnswer]; the calls
    that run between them find the answer stored and the score not yet
    added. *)

Module InFlight.
Import MemStorage.
Local Open Scope storage_scope.

(** What a [createAnswer] holds while it waits: its argument, the answer
    it stored and what [getParticipant] returned. *)
Record waiting := mkWaiting {
  answer : InsertAnswer.t;
  newAnswer : Answer.t;
  participant : option Participant.t }.

(** [createAnswer] up to its first [await]. *)
Definition createAnswer_enter (answer : InsertAnswer.t) : M waiting :=
  id <- nextAnswerId ;;
  let newAnswer :=
    Answer.mk id (InsertAnswer.participantId answer)
      (InsertAnswer.questionId answer) (InsertAnswer.selectedOption answer)
      (InsertAnswer.isCorrect answer) (InsertAnswer.responseTime answer)
      (InsertAnswer.score answer) in
  m <- read answers ;;
  setAnswers (JSMap.set id newAnswer m) ;;
  participant <- getParticipant (InsertAnswer.participantId answer) ;;
  ret (mkWaiting answer newAnswer participant).

(** [createAnswer] from its first [await] on. *)
Definition createAnswer_resume (w : waiting) : M Answer.t :=
  match participant w with
  | Some participant =>
      let updatedScore :=
        Participant.score participant + InsertAnswer.score (answer w) in
      updateParticipant (Participant.id participant)
        (PartialParticipant.mk None None None (Some updatedScore) None) ;;
      ret (newAnswer w)
  | None => ret (newAnswer w)
  end.

(** The stretches of [createAnswer] calls, in the order they run: a call
    is made and runs up to its first [await], or the call at place [n]
    among those that wait goes on. *)
Inductive stretch :=
| Enter (answer : InsertAnswer.t)
| Resume (n : nat).

(** The list without its element at place [n]. *)
Fixpoint without {A : Type} (n : nat) (l : list A) : list A :=
  match l, n with
  | [], _ => []
  | _ :: l', O => l'
  | x :: l', S n' => x :: without n' l'
  end.

(** The store and the calls that wait, after a stretch.  A [Resume] of a
    place where no call waits is no stretch of any call: it leaves
    everything as it is. *)
Definition step (e : stretch) (s : t * list waiting) : t * list waiting :=
  match e with
  | Enter answer =>
      let (w, st) := createAnswer_enter answer (fst s) in
      (st, snd s ++ [w])
  | Resume n =>
      match nth_error (snd s) n with
      | Some w => (snd (createAnswer_resume w (fst s)), without n (snd s))
      | None => s
      end
  end.

Definition steps (es : list stretch) (s : t * list waiting)
  : t * list waiting :=
  fold_left (fun s e => step e s) es s.

(** The answers submitted by the calls made. *)
Definition entered (es : list stretch) : list InsertAnswer.t :=
  flat_map
    (fun e => match e with Enter answer => [answer] | Resume _ => [] end)
    es.

(** Calls made one after the other: each goes on at once. *)
Definition oneByOne (submissions : list InsertAnswer.t) : list stretch :=
  flat_map (fun answer => [Enter answer; Resume 0]) submissions.
End InFlight.

(* ================================================================= *)
(** * Properties *)


(** ** Facts about [Map] *)
Section MapFacts.
Context {V : Type}.
Implicit Types (m : JSMap.t V) (k : Z) (v : V).

Lemma get_set_same k v m : JSMap.get k (JSMap.set k v m) = Some v.
Proof.
  induction m as [|[k' v'] m IH]; simpl.
  - rewrite Z.eqb_refl. reflexivity.
  - destruct (k' =? k) eqn:E; simpl; rewrite E; [reflexivity | exact IH].
Qed.

Lemma get_set_other k k' v m :
  k' <> k -> JSMap.get k' (JSMap.set k v m) = JSMap.get k' m.
Proof.
  intros N. induction m as [|[k0 v0] m IH]; simpl.
  - destruct (Z.eqb_spec k k'); [congruence | reflexivity].
  - destruct (Z.eqb_spec k0 k) as [->|N0]; simpl.
    + destruct (Z.eqb_spec k k'); [congruence | reflexivity].
    + rewrite IH. reflexivity.
Qed.

Lemma get_None_keys k m : JSMap.get k m = None <-> ~ In k (JSMap.keys m).
Proof.
  induction m as [|[k' v'] m IH]; simpl.
  - tauto.
  - destruct (Z.eqb_spec k' k) as [->|N].
    + split; [discriminate | tauto].
    + rewrite IH. tauto.
Qed.

Lemma get_Some_In k v m : JSMap.get k m = Some v -> In (k, v) m.
Proof.
  induction m as [|[k' v'] m IH]; simpl; [discriminate|].
  destruct (Z.eqb_spec k' k) as [->|N]; intros H.
  - left. congruence.
  - right. exact (IH H).
Qed.

Lemma In_get_Some k v m :
  NoDup (JSMap.keys m) -> In (k, v) m -> JSMap.get k m = Some v.
Proof.
  induction m as [|[k' v'] m IH]; simpl; [tauto|].
  intros D [E|I]; inversion D as [|? ? NI D']; subst.
  - inversion E; subst. rewrite Z.eqb_refl. reflexivity.
  - destruct (Z.eqb_spec k' k) as [->|N].
    + exfalso. apply NI. change k with (fst (k, v)). apply in_map, I.
    + exact (IH D' I).
Qed.

(** A new key goes last. *)
Lemma set_fresh k v m :
  JSMap.get k m = None -> JSMap.set k v m = m ++ [(k, v)].
Proof.
  induction m as [|[k' v'] m IH]; simpl; [reflexivity|].
  destruct (k' =? k); [discriminate|]. intros H. rewrite (IH H). reflexivity.
Qed.

(** An existing key keeps its place. *)
Lemma keys_set_present k v v0 m :
  JSMap.get k m = Some v0 -> JSMap.keys (JSMap.set k v m) = JSMap.keys m.
Proof.
  induction m as [|[k' v'] m IH]; simpl; [discriminate|].
  destruct (k' =? k); simpl; [reflexivity|].
  intros H. rewrite (IH H). reflexivity.
Qed.

Lemma get_delete k k' m :
  JSMap.get k' (JSMap.delete k m) = if k =? k' then None else JSMap.get k' m.
Proof.
  induction m as [|[k0 v0] m IH]; simpl.
  - destruct (k =? k'); reflexivity.
  - destruct (Z.eqb_spec k0 k) as [->|N]; simpl.
    + rewrite IH. destruct (Z.eqb_spec k k'); reflexivity.
    + rewrite IH. destruct (Z.eqb_spec k0 k') as [->|N'].
      * destruct (Z.eqb_spec k k'); [congruence | reflexivity].
      * reflexivity.
Qed.

Lemma keys_delete k m :
  JSMap.keys (JSMap.delete k m) =
  filter (fun k' => negb (k' =? k)) (JSMap.keys m).
Proof.
  induction m as [|[k0 v0] m IH]; simpl; [reflexivity|].
  destruct (k0 =? k); simpl; rewrite IH; reflexivity.
Qed.

Lemma ascending_empty next : JSMap.ascending next (@JSMap.empty V).
Proof. split; constructor. Qed.

Lemma ascending_NoDup next m : JSMap.ascending next m -> NoDup (JSMap.keys m).
Proof.
  intros [S _]. induction S as [|k l S IH F]; constructor; [|exact IH].
  intros I. rewrite Forall_forall in F. specialize (F k I). lia.
Qed.

Lemma ascending_fresh next m :
  JSMap.ascending next m -> JSMap.get next m = None.
Proof.
  intros [_ F]. apply get_None_keys. intros I.
  rewrite Forall_forall in F. specialize (F next I). lia.
Qed.

Lemma ascending_weaken next next' m :
  next <= next' -> JSMap.ascending next m -> JSMap.ascending next' m.
Proof.
  intros L [S F]. split; [exact S|].
  eapply Forall_impl; [|exact F]. simpl. intros. lia.
Qed.

Lemma StronglySorted_snoc (l : list Z) (x : Z) :
  StronglySorted Z.lt l -> Forall (fun k => k < x) l ->
  StronglySorted Z.lt (l ++ [x]).
Proof.
  induction 1 as [|k l S IH F]; intros B; simpl.
  - repeat constructor.
  - inversion B; subst. constructor; [apply IH; assumption|].
    apply Forall_app. split; [exact F | repeat constructor; assumption].
Qed.

Lemma ascending_set_next next v m :
  JSMap.ascending next m -> JSMap.ascending (next + 1) (JSMap.set next v m).
Proof.
  intros A. rewrite (set_fresh _ _ _ (ascending_fresh _ _ A)).
  destruct A as [S F]. unfold JSMap.ascending, JSMap.keys.
  rewrite map_app. simpl.
  split.
  - apply StronglySorted_snoc; assumption.
  - apply Forall_app. split.
    + eapply Forall_impl; [|exact F]. simpl. intros. lia.
    + repeat constructor. lia.
Qed.

Lemma ascending_set_present next k v v0 m :
  JSMap.get k m = Some v0 -> JSMap.ascending next m ->
  JSMap.ascending next (JSMap.set k v m).
Proof.
  intros G [S F]. unfold JSMap.ascending.
  rewrite (keys_set_present _ _ _ _ G). split; assumption.
Qed.

Lemma StronglySorted_filter (f : Z -> bool) (l : list Z) :
  StronglySorted Z.lt l -> StronglySorted Z.lt (filter f l).
Proof.
  induction 1 as [|k l S IH F]; simpl; [constructor|].
  destruct (f k); [|exact IH]. constructor; [exact IH|].
  rewrite Forall_forall in *. intros x I. apply filter_In in I. apply F, I.
Qed.

Lemma ascending_delete next k m :
  JSMap.ascending next m -> JSMap.ascending next (JSMap.delete k m).
Proof.
  intros [S F]. unfold JSMap.ascending. rewrite keys_delete. split.
  - apply StronglySorted_filter, S.
  - rewrite Forall_forall in *. intros x I. apply filter_In in I. apply F, I.
Qed.
End MapFacts.

(** ** Whole numbers as binary64 values *)
Import Number Binary64 Quiz_ts.


Section OfZ.
Import Number.

Lemma digits2_pos_iter (p q : positive) :
  digits2_pos (Pos.iter xO p q) = (digits2_pos p + q)%positive.
Proof.
  induction q as [|q IH] using Pos.peano_ind.
  - simpl. lia.
  - rewrite Pos.iter_succ. simpl. rewrite IH. lia.
Qed.

Lemma Zpos_iter_xO (p q : positive) :
  Zpos (Pos.iter xO p q) = Zpos p * 2 ^ Zpos q.
Proof.
  induction q as [|q IH] using Pos.peano_ind.
  - simpl. lia.
  - rewrite Pos.iter_succ, Pos2Z.inj_succ, Z.pow_succ_r by lia.
    rewrite Pos2Z.inj_xO, IH. lia.
Qed.

Lemma digits2_pos_bounds (p : positive) :
  2 ^ (Zpos (digits2_pos p) - 1) <= Zpos p < 2 ^ Zpos (digits2_pos p).
Proof.
  induction p as [p IH|p IH|]; simpl digits2_pos;
    [rewrite Pos2Z.inj_succ, (Pos2Z.inj_xI p)
    |rewrite Pos2Z.inj_succ, (Pos2Z.inj_xO p)
    |simpl; lia].
  all: replace (Z.succ (Zpos (digits2_pos p)) - 1)
         with (Z.succ (Zpos (digits2_pos p) - 1)) by (unfold Z.succ; ring).
  all: rewrite !Z.pow_succ_r by lia.
  all: revert IH; generalize (2 ^ (Zpos (digits2_pos p) - 1));
    generalize (2 ^ Zpos (digits2_pos p)); intros; lia.
Qed.

Lemma safe_digits p : Zpos p < 2 ^ 53 -> Zpos (digits2_pos p) <= 53.
Proof.
  intros H. pose proof (digits2_pos_bounds p) as [B _].
  destruct (Z_le_gt_dec (Zpos (digits2_pos p)) 53) as [L|G]; [exact L|].
  exfalso. assert (2 ^ 53 <= 2 ^ (Zpos (digits2_pos p) - 1)).
  { apply Z.pow_le_mono_r; lia. }
  lia.
Qed.

Lemma binary_round_safe (s : bool) (p : positive) :
  Zpos p < 2 ^ 53 ->
  binary_round prec emax s p 0 = S754_finite s (canonM p) (canonE p).
Proof.
  intros H. pose proof (safe_digits p H) as D.
  unfold binary_round, shl_align, canonM, canonE.
  set (d := Zpos (digits2_pos p)) in *.
  assert (F : fexp prec emax (d + 0) = d - 53)
    by (unfold fexp, emin, prec, emax; lia).
  rewrite F. replace (d - 53 - 0) with (- (53 - d)) by lia.
  destruct (53 - d) as [|k|k] eqn:K; try lia; simpl Z.opp; cbv iota;
    unfold binary_round_aux, shr_fexp, Zdigits2.
  - (* 53 binary digits already *)
    fold d. assert (F' : fexp prec emax (d + 0) - 0 = 0)
      by (unfold fexp, emin, prec, emax; lia).
    rewrite F'.
    unfold shr, shr_record_of_loc, shr_m, loc_of_shr_record,
      round_nearest_even.
    unfold Zdigits2. fold d. rewrite F'. unfold shr.
    replace (d - 53) with 0 by lia. reflexivity.
  - (* shifted left by [k] *)
    assert (F' : fexp prec emax
                   (Zpos (digits2_pos (Pos.iter xO p k)) + (d - 53))
                 - (d - 53) = 0).
    { rewrite digits2_pos_iter. fold d.
      unfold fexp, emin, prec, emax. lia. }
    rewrite F'.
    unfold shr, shr_record_of_loc, shr_m, loc_of_shr_record,
      round_nearest_even.
    unfold Zdigits2. rewrite F'. unfold shr.
    assert (L : (d - 53 <=? emax - prec) = true)
      by (apply Z.leb_le; unfold emax, prec; lia).
    rewrite L. reflexivity.
Qed.

Lemma canonM_value (p : positive) :
  Zpos p < 2 ^ 53 ->
  Zpos (canonM p) = Zpos p * 2 ^ (53 - Zpos (digits2_pos p)).
Proof.
  intros H. pose proof (safe_digits p H) as D. unfold canonM.
  destruct (53 - Zpos (digits2_pos p)) as [|k|k] eqn:K; try lia.
  apply Zpos_iter_xO.
Qed.

Lemma canonM_digits (p : positive) :
  Zpos p < 2 ^ 53 -> Zpos (digits2_pos (canonM p)) = 53.
Proof.
  intros H. pose proof (safe_digits p H) as D. unfold canonM.
  destruct (53 - Zpos (digits2_pos p)) as [|k|k] eqn:K; try lia.
  rewrite digits2_pos_iter. lia.
Qed.

Lemma canon_valid (s : bool) (p : positive) :
  Zpos p < 2 ^ 53 ->
  valid_binary (S754_finite s (canonM p) (canonE p)) = true.
Proof.
  intros H. pose proof (safe_digits p H) as D.
  unfold SpecFloat.valid_binary, SpecFloat.bounded, canonical_mantissa.
  rewrite (canonM_digits p H). unfold canonE, fexp, emin, prec, emax.
  apply andb_true_intro; split; [apply Z.eqb_eq | apply Z.leb_le]; lia.
Qed.

Lemma Prim2SF_ofZ (z : Z) : safe z -> Prim2SF (ofZ z) = canon z.
Proof.
  unfold safe, ofZ, binary_normalize. intros H.
  destruct z as [|p|p]; unfold canon.
  - apply Prim2SF_SF2Prim. reflexivity.
  - assert (Hp : Zpos p < 2 ^ 53) by lia.
    rewrite (binary_round_safe false p Hp).
    apply Prim2SF_SF2Prim, canon_valid, Hp.
  - assert (Hp : Zpos p < 2 ^ 53) by lia.
    rewrite (binary_round_safe true p Hp).
    apply Prim2SF_SF2Prim, canon_valid, Hp.
Qed.

Lemma compare_canon (p1 p2 : positive) :
  Zpos p1 < 2 ^ 53 -> Zpos p2 < 2 ^ 53 ->
  match canonE p1 ?= canonE p2 with
  | Lt => Lt
  | Gt => Gt
  | Eq => Pos.compare_cont Eq (canonM p1) (canonM p2)
  end = (p1 ?= p2)%positive.
Proof.
  intros H1 H2.
  pose proof (digits2_pos_bounds p1) as [L1 U1].
  pose proof (digits2_pos_bounds p2) as [L2 U2].
  unfold canonE.
  destruct (Z.compare_spec (Zpos (digits2_pos p1) - 53)
                           (Zpos (digits2_pos p2) - 53)) as [E|E|E].
  - change (Pos.compare_cont Eq (canonM p1) (canonM p2))
      with (Zpos (canonM p1) ?= Zpos (canonM p2)).
    rewrite (canonM_value p1 H1), (canonM_value p2 H2).
    replace (Zpos (digits2_pos p2)) with (Zpos (digits2_pos p1)) by lia.
    pose proof (safe_digits p1 H1) as D.
    assert (P : 0 < 2 ^ (53 - Zpos (digits2_pos p1)))
      by (apply Z.pow_pos_nonneg; lia).
    change (p1 ?= p2)%positive with (Zpos p1 ?= Zpos p2).
    destruct (Z.compare_spec (Zpos p1) (Zpos p2)) as [e|l|g].
    + rewrite e. apply Z.compare_refl.
    + apply Z.compare_lt_iff, Z.mul_lt_mono_pos_r; assumption.
    + apply Z.compare_gt_iff, Z.mul_lt_mono_pos_r; assumption.
  - symmetry. apply Pos.compare_lt_iff.
    assert (2 ^ Zpos (digits2_pos p1) <= 2 ^ (Zpos (digits2_pos p2) - 1))
      by (apply Z.pow_le_mono_r; lia).
    lia.
  - symmetry. apply Pos.compare_gt_iff.
    assert (2 ^ Zpos (digits2_pos p2) <= 2 ^ (Zpos (digits2_pos p1) - 1))
      by (apply Z.pow_le_mono_r; lia).
    lia.
Qed.

(** On whole numbers below 2^53 the comparison of binary64 values is the
    comparison of the numbers. *)
Lemma SFcompare_canon (z1 z2 : Z) :
  safe z1 -> safe z2 -> SFcompare (canon z1) (canon z2) = Some (z1 ?= z2).
Proof.
  unfold safe. intros H1 H2.
  destruct z1 as [|p1|p1], z2 as [|p2|p2]; try reflexivity.
  - unfold canon, SFcompare. f_equal. apply compare_canon; lia.
  - unfold canon, SFcompare. f_equal.
    change (Zneg p1 ?= Zneg p2) with (CompOpp (p1 ?= p2)%positive).
    rewrite <- (compare_canon p1 p2) by lia.
    destruct (canonE p1 ?= canonE p2); reflexivity.
Qed.

Local Open Scope float_scope.

Lemma ltb_ofZ (z1 z2 : Z) :
  safe z1 -> safe z2 -> (ofZ z1 <? ofZ z2) = (z1 <? z2)%Z.
Proof.
  intros H1 H2. rewrite ltb_spec, !Prim2SF_ofZ by assumption.
  unfold SFltb. rewrite SFcompare_canon by assumption.
  unfold Z.ltb. destruct (z1 ?= z2)%Z; reflexivity.
Qed.

Lemma leb_ofZ (z1 z2 : Z) :
  safe z1 -> safe z2 -> (ofZ z1 <=? ofZ z2) = (z1 <=? z2)%Z.
Proof.
  intros H1 H2. rewrite leb_spec, !Prim2SF_ofZ by assumption.
  unfold SFleb. rewrite SFcompare_canon by assumption.
  unfold Z.leb. destruct (z1 ?= z2)%Z; reflexivity.
Qed.

Lemma ofZ_inj (z1 z2 : Z) : safe z1 -> safe z2 -> ofZ z1 = ofZ z2 -> z1 = z2.
Proof.
  intros H1 H2 E. apply Z.compare_eq.
  pose proof (SFcompare_canon z1 z2 H1 H2) as C.
  rewrite <- !Prim2SF_ofZ, E, Prim2SF_ofZ in C by assumption.
  rewrite SFcompare_canon in C by assumption.
  rewrite Z.compare_refl in C. congruence.
Qed.
End OfZ.


Section SFOrder.
Lemma SFleb_ltb_trans (a b c : spec_float) :
  SFleb a b = true -> SFltb b c = true -> SFltb a c = true.
Proof.
  unfold SFleb, SFltb.
  destruct a as [sa|sa| |sa ma ea], b as [sb|sb| |sb mb eb],
           c as [sc|sc| |sc mc ec];
    try destruct sa; try destruct sb; try destruct sc;
    unfold SFcompare; try congruence; try reflexivity.
  all: change (Pos.compare_cont Eq) with Pos.compare.
  all: destruct (Z.compare_spec ea eb), (Z.compare_spec eb ec),
         (Z.compare_spec ea ec); try congruence; try lia.
  all: try (destruct (Pos.compare_spec ma mb), (Pos.compare_spec mb mc),
         (Pos.compare_spec ma mc); simpl; try congruence; lia).
Qed.

Local Open Scope float_scope.

Lemma leb_ltb_trans (a b c : float) :
  (a <=? b) = true -> (b <? c) = true -> (a <? c) = true.
Proof. rewrite leb_spec, !ltb_spec. apply SFleb_ltb_trans. Qed.
End SFOrder.

(** ** The scoring function *)

Section Scoring.
Local Open Scope float_scope.

Lemma float_5000 : 5000 = ofZ 5000.
Proof. vm_compute. reflexivity. Qed.
Lemma float_10000 : 10000 = ofZ 10000.
Proof. vm_compute. reflexivity. Qed.

Lemma safe_small (z : Z) : (- 2 ^ 52 <= z <= 2 ^ 52)%Z -> safe z.
Proof.
  unfold safe. intros H.
  assert (2 ^ 52 < 2 ^ 53)%Z by (apply Z.pow_lt_mono_r; lia).
  revert H H0. generalize (2 ^ 52)%Z (2 ^ 53)%Z. intros. lia.
Qed.

Lemma calculateScore_fast (t : float) :
  (t <? 5000) = true -> calculateScore true t = ofZ 150.
Proof.
  intros H. unfold calculateScore. rewrite H. vm_compute. reflexivity.
Qed.

Lemma calculateScore_slow (t : float) :
  (t <? 5000) = false -> (t <? 10000) = false ->
  calculateScore true t = ofZ 100.
Proof.
  intros H1 H2. unfold calculateScore. rewrite H1, H2.
  vm_compute. reflexivity.
Qed.

End Scoring.

(** ** Binary64 rounding: powers of two and cells *)

Section Bpow.
Local Open Scope R_scope.

Lemma bpow_pos e : 0 < bpow e.
Proof. apply powerRZ_lt. lra. Qed.

Lemma bpow_add a b : bpow (a + b) = bpow a * bpow b.
Proof. apply powerRZ_add. lra. Qed.

Lemma bpow_0 : bpow 0 = 1.
Proof. reflexivity. Qed.

Lemma bpow_1 : bpow 1 = 2.
Proof. unfold bpow. simpl. lra. Qed.

Lemma bpow_succ e : bpow (e + 1) = 2 * bpow e.
Proof. rewrite bpow_add, bpow_1. lra. Qed.

Lemma bpow_nat (n : nat) : bpow (Z.of_nat n) = IZR (2 ^ Z.of_nat n).
Proof.
  induction n as [|n IH].
  - reflexivity.
  - rewrite Nat2Z.inj_succ. unfold Z.succ.
    rewrite bpow_succ, IH, Z.pow_add_r, mult_IZR by lia.
    simpl (2 ^ 1)%Z. lra.
Qed.

Lemma bpow_IZR (n : Z) : (0 <= n)%Z -> bpow n = IZR (2 ^ n).
Proof. intros H. rewrite <- (Z2Nat.id n H). apply bpow_nat. Qed.

Lemma bpow_le a b : (a <= b)%Z -> bpow a <= bpow b.
Proof.
  intros H. replace b with (a + (b - a))%Z by lia.
  rewrite bpow_add, (bpow_IZR (b - a)) by lia.
  assert (1 <= IZR (2 ^ (b - a))).
  { apply IZR_le. assert (0 < 2 ^ (b - a))%Z by (apply Z.pow_pos_nonneg; lia).
    lia. }
  pose proof (bpow_pos a). nra.
Qed.

Lemma bpow_lt a b : (a < b)%Z -> bpow a < bpow b.
Proof.
  intros H. pose proof (bpow_le (a + 1) b ltac:(lia)) as L.
  rewrite bpow_succ in L. pose proof (bpow_pos a). lra.
Qed.

Lemma F2R_shift m e k :
  (0 <= k)%Z -> F2R (m * 2 ^ k) (e - k) = F2R m e.
Proof.
  intros H. unfold F2R. rewrite mult_IZR, <- (bpow_IZR k H).
  replace e with ((e - k) + k)%Z at 2 by lia. rewrite bpow_add. lra.
Qed.
End Bpow.

Section Shr.
Local Open Scope R_scope.

Lemma loc_of_record m l :
  loc_of_shr_record (shr_record_of_loc m l) = l.
Proof. destruct l as [|[ | | ]]; reflexivity. Qed.

Lemma shr_m_record m l : shr_m (shr_record_of_loc m l) = m.
Proof. destruct l as [|[ | | ]]; reflexivity. Qed.

(** One step to the right keeps the value located. *)
Lemma shr_1_located x mrs e :
  (0 <= shr_m mrs)%Z ->
  located x (shr_m mrs) e (loc_of_shr_record mrs) ->
  located x (shr_m (shr_1 mrs)) (e + 1) (loc_of_shr_record (shr_1 mrs))
  /\ shr_m (shr_1 mrs) = (shr_m mrs / 2)%Z.
Proof.
  destruct mrs as [m r s]. simpl shr_m. intros Hm.
  pose proof (bpow_pos e) as B. pose proof (bpow_succ e) as S.
  destruct m as [|p|p]; [| |lia].
  - (* m = 0 *)
    unfold shr_1, located, F2R; destruct r, s; simpl;
      rewrite ?S; intros H; split; try reflexivity; lra.
  - destruct p as [p|p|].
    + (* odd *)
      assert (E : IZR (Zpos p~1) = 2 * IZR (Zpos p) + 1)
        by (rewrite Pos2Z.inj_xI, plus_IZR, mult_IZR; lra).
      assert (D : (Zpos p~1 / 2 = Zpos p)%Z)
        by (rewrite Pos2Z.inj_xI; symmetry; apply Z.div_unique with 1%Z; lia).
      unfold shr_1, located, F2R; destruct r, s; simpl shr_m;
        simpl loc_of_shr_record; rewrite ?plus_IZR, ?E, ?S; intros H;
        (split; [|symmetry; exact (eq_sym (eq_sym D))]); try lra.
    + (* even *)
      assert (E : IZR (Zpos p~0) = 2 * IZR (Zpos p))
        by (rewrite Pos2Z.inj_xO, mult_IZR; lra).
      assert (D : (Zpos p~0 / 2 = Zpos p)%Z)
        by (rewrite Pos2Z.inj_xO; symmetry; apply Z.div_unique with 0%Z; lia).
      unfold shr_1, located, F2R; destruct r, s; simpl shr_m;
        simpl loc_of_shr_record; rewrite ?plus_IZR, ?E, ?S; intros H;
        (split; [|symmetry; exact (eq_sym (eq_sym D))]); try lra.
    + (* m = 1 *)
      unfold shr_1, located, F2R; destruct r, s; simpl;
        rewrite ?S; intros H; split; try reflexivity; lra.
Qed.
End Shr.

Section ShrIter.

Lemma div_pow2_twice m a b :
  0 <= a -> 0 <= b -> m / 2 ^ a / 2 ^ b = m / 2 ^ (a + b).
Proof.
  intros Ha Hb. rewrite Z.pow_add_r by assumption.
  assert (0 < 2 ^ a) by (apply Z.pow_pos_nonneg; lia).
  assert (0 < 2 ^ b) by (apply Z.pow_pos_nonneg; lia).
  apply Z.div_div; lia.
Qed.

(** [n] steps to the right. *)
Lemma shr_iter_located (n : positive) :
  forall x mrs e,
    0 <= shr_m mrs ->
    located x (shr_m mrs) e (loc_of_shr_record mrs) ->
    located x (shr_m (SpecFloat.iter_pos shr_1 n mrs)) (e + Zpos n)
      (loc_of_shr_record (SpecFloat.iter_pos shr_1 n mrs))
    /\ shr_m (SpecFloat.iter_pos shr_1 n mrs) = shr_m mrs / 2 ^ Zpos n.
Proof.
  induction n as [n IH|n IH|]; intros x mrs e Hm L; simpl SpecFloat.iter_pos.
  - destruct (shr_1_located x mrs e Hm L) as [L1 E1].
    assert (H1 : 0 <= shr_m (shr_1 mrs))
      by (rewrite E1; apply Z.div_pos; lia).
    destruct (IH x _ _ H1 L1) as [L2 E2].
    assert (H2 : 0 <= shr_m (SpecFloat.iter_pos shr_1 n (shr_1 mrs))).
    { rewrite E2. apply Z.div_pos; [exact H1|].
      apply Z.pow_pos_nonneg; lia. }
    destruct (IH x _ _ H2 L2) as [L3 E3].
    replace (e + Zpos n~1) with (e + 1 + Zpos n + Zpos n) by lia.
    split; [exact L3|].
    rewrite E3, E2, E1. change 2 with (2 ^ 1) at 1.
    rewrite !div_pow2_twice by lia. f_equal. f_equal. lia.
  - destruct (IH x _ _ Hm L) as [L2 E2].
    assert (H2 : 0 <= shr_m (SpecFloat.iter_pos shr_1 n mrs)).
    { rewrite E2. apply Z.div_pos; [exact Hm|].
      apply Z.pow_pos_nonneg; lia. }
    destruct (IH x _ _ H2 L2) as [L3 E3].
    replace (e + Zpos n~0) with (e + Zpos n + Zpos n) by lia.
    split; [exact L3|].
    rewrite E3, E2, div_pow2_twice by lia. f_equal. f_equal. lia.
  - destruct (shr_1_located x mrs e Hm L) as [L1 E1].
    split; [exact L1|]. rewrite E1. reflexivity.
Qed.

(** [shr] by any amount. *)
Lemma shr_located x m e l n :
  0 <= m -> 0 <= n -> located x m e l ->
  let '(mrs, e') := shr (shr_record_of_loc m l) e n in
  e' = e + n
  /\ located x (shr_m mrs) e' (loc_of_shr_record mrs)
  /\ shr_m mrs = m / 2 ^ n.
Proof.
  intros Hm Hn L. unfold shr. destruct n as [|p|p]; [| |lia].
  - rewrite loc_of_record, shr_m_record, Z.add_0_r, Z.div_1_r.
    repeat split. exact L.
  - destruct (shr_iter_located p x (shr_record_of_loc m l) e) as [L1 E1].
    + rewrite shr_m_record. exact Hm.
    + rewrite loc_of_record, shr_m_record. exact L.
    + rewrite shr_m_record in E1. repeat split; assumption.
Qed.
End ShrIter.

Section RoundAux.

Lemma digits_unique (p : positive) (k : Z) :
  2 ^ (k - 1) <= Zpos p < 2 ^ k -> Zpos (digits2_pos p) = k.
Proof.
  intros [L U]. pose proof (digits2_pos_bounds p) as [L' U'].
  set (d := Zpos (digits2_pos p)) in *.
  assert (0 < d) by (unfold d; lia).
  destruct (Z.lt_trichotomy d k) as [C|[C|C]]; [exfalso|exact C|exfalso].
  - assert (2 ^ d <= 2 ^ (k - 1)) by (apply Z.pow_le_mono_r; lia). lia.
  - assert (0 <= k).
    { destruct (Z_lt_le_dec k 0) as [N|N]; [|exact N].
      rewrite (Z.pow_neg_r 2 k N) in U. lia. }
    assert (2 ^ k <= 2 ^ (d - 1)) by (apply Z.pow_le_mono_r; lia). lia.
Qed.

Lemma div_pow2_bounds m d :
  53 <= d -> 2 ^ (d - 1) <= m < 2 ^ d ->
  2 ^ 52 <= m / 2 ^ (d - 53) < 2 ^ 53.
Proof.
  intros D [L U].
  assert (P : 0 < 2 ^ (d - 53)) by (apply Z.pow_pos_nonneg; lia).
  assert (E1 : 2 ^ (d - 1) = 2 ^ 52 * 2 ^ (d - 53)).
  { rewrite <- Z.pow_add_r by lia. f_equal. lia. }
  assert (E2 : 2 ^ d = 2 ^ 53 * 2 ^ (d - 53)).
  { rewrite <- Z.pow_add_r by lia. f_equal. lia. }
  split.
  - apply Z.div_le_lower_bound; [exact P|]. rewrite Z.mul_comm, <- E1. exact L.
  - apply Z.div_lt_upper_bound; [exact P|]. rewrite Z.mul_comm, <- E2. exact U.
Qed.

Lemma round_nearest_even_range mt lt :
  mt <= round_nearest_even mt lt <= mt + 1.
Proof.
  unfold round_nearest_even. destruct lt as [|[ | | ]]; try lia.
  destruct (Z.even mt); lia.
Qed.

(** The second pass: a rounded mantissa of 53 digits stays, 2^53 is
    renormalised. *)
Lemma finish_eq s mr E :
  2 ^ 52 <= mr <= 2 ^ 53 -> SpecFloat.emin prec emax <= E ->
  E + 1 <= emax - prec ->
  (let '(mrs, e') := shr_fexp prec emax mr E loc_Exact in
   match shr_m mrs with
   | Z0 => S754_zero s
   | Zpos m => if e' <=? emax - prec then S754_finite s m e'
               else S754_infinity s
   | Zneg _ => S754_nan
   end) = finish s mr E.
Proof.
  intros [L U] Emin Emax. unfold finish.
  destruct (Z.eqb_spec mr (2 ^ 53)) as [->|N].
  - vm_compute (2 ^ 53). unfold shr_fexp, Zdigits2.
    change (Zpos (digits2_pos 9007199254740992)) with 54.
    replace (fexp prec emax (54 + E) - E) with 1
      by (unfold fexp, SpecFloat.emin, prec, emax in *; lia).
    simpl.
    match goal with
    | |- context [?a <=? ?b] => destruct (Z.leb_spec a b)
    end; [reflexivity | unfold emax, prec in *; lia].
  - destruct mr as [|p|p]; try lia.
    assert (D : Zpos (digits2_pos p) = 53) by (apply digits_unique; lia).
    unfold shr_fexp, Zdigits2. rewrite D.
    replace (fexp prec emax (53 + E) - E) with 0
      by (unfold fexp, SpecFloat.emin, prec, emax in *; lia).
    simpl.
    match goal with
    | |- context [?a <=? ?b] => destruct (Z.leb_spec a b)
    end; [reflexivity | unfold emax, prec in *; lia].
Qed.

(** [binary_round_aux] on a mantissa of at least 53 digits, in the normal
    range: cut to 53 digits, round, renormalise. *)
Lemma binary_round_aux_normal s x m e l :
  0 < m -> 53 <= Zdigits2 m ->
  SpecFloat.emin prec emax <= e + Zdigits2 m - 53 ->
  e + Zdigits2 m - 53 + 1 <= emax - prec ->
  located x m e l ->
  exists mt lt,
    binary_round_aux prec emax s m e l
      = finish s (round_nearest_even mt lt) (e + Zdigits2 m - 53)
    /\ located x mt (e + Zdigits2 m - 53) lt
    /\ 2 ^ 52 <= mt < 2 ^ 53.
Proof.
  intros Hm D Emin Emax L. destruct m as [|p|p]; try lia.
  unfold Zdigits2 in *. set (d := Zpos (digits2_pos p)) in *.
  pose proof (digits2_pos_bounds p) as B. fold d in B.
  unfold binary_round_aux. unfold shr_fexp at 1. unfold Zdigits2. fold d.
  replace (fexp prec emax (d + e) - e) with (d - 53)
    by (unfold fexp, SpecFloat.emin, prec, emax in *; lia).
  pose proof (shr_located x (Zpos p) e l (d - 53) ltac:(lia) ltac:(lia) L)
    as S.
  destruct (shr (shr_record_of_loc (Zpos p) l) e (d - 53)) as [mrs e'].
  destruct S as (-> & L' & M').
  exists (shr_m mrs), (loc_of_shr_record mrs).
  pose proof (div_pow2_bounds (Zpos p) d D B) as R. rewrite <- M' in R.
  pose proof (round_nearest_even_range (shr_m mrs) (loc_of_shr_record mrs)).
  replace (e + (d - 53)) with (e + d - 53) in * by lia.
  split; [|split; assumption].
  apply finish_eq; lia.
Qed.
End RoundAux.

(** ** Binary64 rounding: order *)

Section Order.

Lemma located_cell x m e l :
  located x m e l -> (F2R m e <= x < F2R (m + 1) e)%R.
Proof.
  pose proof (bpow_pos e). unfold located, F2R.
  destruct l as [|c]; rewrite plus_IZR.
  - intros ->. lra.
  - intros [[A B] _]. rewrite ?plus_IZR in B. lra.
Qed.

Lemma IZR_pow2_le m k : 2 ^ k <= m -> (IZR (2 ^ k) <= IZR m)%R.
Proof. apply IZR_le. Qed.

(** Values in order have their 53-digit cells in order. *)
Lemma canonical_order x y m1 E1 l1 m2 E2 l2 :
  located x m1 E1 l1 -> located y m2 E2 l2 ->
  2 ^ 52 <= m1 < 2 ^ 53 -> 2 ^ 52 <= m2 < 2 ^ 53 -> (x <= y)%R ->
  E1 < E2
  \/ (E1 = E2 /\ (m1 < m2 \/ (m1 = m2 /\ loc_rank l1 <= loc_rank l2))).
Proof.
  intros L1 L2 [B1 U1] [B2 U2] XY.
  pose proof (located_cell _ _ _ _ L1) as [C1 D1].
  pose proof (located_cell _ _ _ _ L2) as [C2 D2].
  unfold F2R in C1, D1, C2, D2.
  assert (T : (IZR (2 ^ 53) = 2 * IZR (2 ^ 52))%R).
  { rewrite <- mult_IZR. f_equal. }
  assert (P52 : (0 < IZR (2 ^ 52))%R) by (apply IZR_lt; reflexivity).
  pose proof (IZR_le _ _ B1) as RB1. pose proof (IZR_le _ _ B2) as RB2.
  assert (RU1 : (IZR (m1 + 1) <= IZR (2 ^ 53))%R) by (apply IZR_le; lia).
  assert (RU2 : (IZR (m2 + 1) <= IZR (2 ^ 53))%R) by (apply IZR_le; lia).
  pose proof (bpow_pos E1) as P1. pose proof (bpow_pos E2) as P2.
  destruct (Z.lt_trichotomy E1 E2) as [C|[C|C]]; [left; exact C| |exfalso].
  - right. split; [exact C|]. subst E2.
    destruct (Z.lt_trichotomy m1 m2) as [M|[M|M]];
      [left; exact M| |exfalso].
    + right. split; [exact M|]. subst m2.
      unfold located, F2R in L1, L2.
      destruct l1 as [|[ | | ]], l2 as [|[ | | ]]; simpl; try lia;
        exfalso; lra.
    + assert (IZR (m2 + 1) <= IZR m1)%R by (apply IZR_le; lia). nra.
  - pose proof (bpow_le (E2 + 1) E1 ltac:(lia)) as G.
    rewrite bpow_succ in G. nra.
Qed.

Lemma round_nearest_even_mono m l1 l2 :
  loc_rank l1 <= loc_rank l2 ->
  round_nearest_even m l1 <= round_nearest_even m l2.
Proof.
  unfold round_nearest_even.
  destruct l1 as [|[ | | ]], l2 as [|[ | | ]]; simpl; try lia;
    destruct (Z.even m); lia.
Qed.

Lemma finish_mono mr1 E1 mr2 E2 :
  2 ^ 52 <= mr1 <= 2 ^ 53 -> 2 ^ 52 <= mr2 <= 2 ^ 53 ->
  E1 < E2 \/ (E1 = E2 /\ mr1 <= mr2) ->
  SFleb (finish false mr1 E1) (finish false mr2 E2) = true.
Proof.
  intros [L1 U1] [L2 U2] H. unfold finish, SFleb, SFcompare.
  assert (P52 : 0 < 2 ^ 52) by reflexivity.
  destruct (Z.eqb_spec mr1 (2 ^ 53)) as [A1|A1],
           (Z.eqb_spec mr2 (2 ^ 53)) as [A2|A2].
  - destruct (Z.compare_spec (E1 + 1) (E2 + 1)); try reflexivity; lia.
  - destruct (Z.compare_spec (E1 + 1) E2) as [C|C|C]; try reflexivity;
      [|lia].
    change (Pos.compare_cont Eq) with Pos.compare.
    rewrite <- Z2Pos.inj_compare by lia.
    destruct (Z.compare_spec (2 ^ 52) mr2); try reflexivity; lia.
  - destruct (Z.compare_spec E1 (E2 + 1)) as [C|C|C]; try reflexivity; lia.
  - destruct (Z.compare_spec E1 E2) as [C|C|C]; try reflexivity; [|lia].
    change (Pos.compare_cont Eq) with Pos.compare.
    rewrite <- Z2Pos.inj_compare by lia.
    destruct (Z.compare_spec mr1 mr2); try reflexivity; lia.
Qed.

Lemma finish_nonneg53 lo hi mr E :
  2 ^ 52 <= mr <= 2 ^ 53 -> lo <= E -> E + 1 <= hi ->
  nonneg53 lo hi (finish false mr E).
Proof.
  intros [L U] Lo Hi. unfold finish, nonneg53.
  destruct (Z.eqb_spec mr (2 ^ 53)) as [A|A].
  - split; [split; reflexivity | lia].
  - rewrite Z2Pos.id by lia. lia.
Qed.

(** Rounding is monotone: in the normal range, on mantissas of at least
    53 digits. *)
Lemma binary_round_aux_mono x y m1 e1 l1 m2 e2 l2 :
  0 < m1 -> 53 <= Zdigits2 m1 ->
  -1074 <= e1 + Zdigits2 m1 - 53 -> e1 + Zdigits2 m1 - 53 + 1 <= 971 ->
  0 < m2 -> 53 <= Zdigits2 m2 ->
  -1074 <= e2 + Zdigits2 m2 - 53 -> e2 + Zdigits2 m2 - 53 + 1 <= 971 ->
  located x m1 e1 l1 -> located y m2 e2 l2 -> (x <= y)%R ->
  SFleb (binary_round_aux prec emax false m1 e1 l1)
        (binary_round_aux prec emax false m2 e2 l2) = true.
Proof.
  intros M1 D1 A1 B1 M2 D2 A2 B2 L1 L2 XY.
  destruct (binary_round_aux_normal false x m1 e1 l1 M1 D1 A1 B1 L1)
    as (mt1 & lt1 & -> & T1 & R1).
  destruct (binary_round_aux_normal false y m2 e2 l2 M2 D2 A2 B2 L2)
    as (mt2 & lt2 & -> & T2 & R2).
  pose proof (round_nearest_even_range mt1 lt1).
  pose proof (round_nearest_even_range mt2 lt2).
  apply finish_mono; try lia.
  destruct (canonical_order _ _ _ _ _ _ _ _ T1 T2 R1 R2 XY)
    as [C|[C [M|[M K]]]].
  - left. exact C.
  - right. split; [exact C | lia].
  - right. split; [exact C|]. subst mt2.
    apply round_nearest_even_mono, K.
Qed.

(** The result of rounding is a float of the expected shape. *)
Lemma binary_round_aux_nonneg53 lo hi x m e l :
  0 < m -> 53 <= Zdigits2 m ->
  -1074 <= e + Zdigits2 m - 53 -> lo <= e + Zdigits2 m - 53 ->
  e + Zdigits2 m - 53 + 1 <= hi -> hi <= 971 ->
  located x m e l ->
  nonneg53 lo hi (binary_round_aux prec emax false m e l).
Proof.
  intros M D A Lo Hi Hi' L.
  destruct (binary_round_aux_normal false x m e l M D A
              ltac:(unfold emax, prec; lia) L)
    as (mt & lt & -> & T & R).
  pose proof (round_nearest_even_range mt lt).
  apply finish_nonneg53; lia.
Qed.

(** Floats in order have values in order. *)
Lemma SFleb_SF2R lo1 hi1 lo2 hi2 f1 f2 :
  nonneg53 lo1 hi1 f1 -> nonneg53 lo2 hi2 f2 -> SFleb f1 f2 = true ->
  (SF2R f1 <= SF2R f2)%R.
Proof.
  unfold nonneg53, SFleb, SFcompare, SF2R.
  destruct f1 as [[|]|[|]| |[|] m1 e1], f2 as [[|]|[|]| |[|] m2 e2];
    try contradiction; intros N1 N2; simpl cond_Zopp; unfold F2R.
  - intros _. lra.
  - intros _. pose proof (bpow_pos e2).
    assert (0 < IZR (Zpos m2))%R by (apply IZR_lt; lia). nra.
  - discriminate.
  - destruct N1 as [[L1 U1] _], N2 as [[L2 U2] _].
    assert (T : (IZR (2 ^ 53) = 2 * IZR (2 ^ 52))%R).
    { rewrite <- mult_IZR. f_equal. }
    assert (P52 : (0 < IZR (2 ^ 52))%R) by (apply IZR_lt; reflexivity).
    pose proof (IZR_le _ _ L1). pose proof (IZR_le _ _ L2).
    pose proof (IZR_lt _ _ U1). pose proof (IZR_lt _ _ U2).
    pose proof (bpow_pos e1). pose proof (bpow_pos e2).
    destruct (Z.compare_spec e1 e2) as [C|C|C]; try discriminate.
    + subst e2. change (Pos.compare_cont Eq) with Pos.compare.
      destruct (Pos.compare_spec m1 m2) as [C|C|C]; try discriminate;
        intros _.
      * subst. lra.
      * assert (IZR (Zpos m1) <= IZR (Zpos m2))%R by (apply IZR_le; lia).
        nra.
    + intros _. pose proof (bpow_le (e1 + 1) e2 ltac:(lia)) as G.
      rewrite bpow_succ in G. nra.
Qed.
End Order.

Section RoundsTo.

Lemma located_pos x m e l : 0 < m -> located x m e l -> (0 < x)%R.
Proof.
  intros M L. pose proof (located_cell _ _ _ _ L) as [C _].
  unfold F2R in C. pose proof (bpow_pos e).
  assert (0 < IZR m)%R by (apply IZR_lt; exact M). nra.
Qed.

Lemma rounds_to_nonneg53 lo hi x f :
  -1074 <= lo -> hi + 1 <= 971 ->
  rounds_to lo hi x f -> nonneg53 lo (hi + 1) f.
Proof.
  intros Lo Hi [[_ ->]|(m & e & l & -> & L & M & D & B)]; [exact I|].
  apply (binary_round_aux_nonneg53 lo (hi + 1) x); try lia. exact L.
Qed.

Lemma rounds_to_mono lo1 hi1 lo2 hi2 x y f g :
  -1074 <= lo1 -> hi1 + 1 <= 971 -> -1074 <= lo2 -> hi2 + 1 <= 971 ->
  rounds_to lo1 hi1 x f -> rounds_to lo2 hi2 y g -> (x <= y)%R ->
  SFleb f g = true.
Proof.
  intros Lo1 Hi1 Lo2 Hi2 F G XY.
  pose proof (rounds_to_nonneg53 _ _ _ _ Lo2 Hi2 G) as NG.
  destruct F as [[X ->]|(m1 & e1 & l1 & -> & L1 & M1 & D1 & B1)].
  - destruct g as [[|]|[|]| |[|] mg eg]; try contradiction; reflexivity.
  - destruct G as [[Y ->]|(m2 & e2 & l2 & -> & L2 & M2 & D2 & B2)].
    + pose proof (located_pos _ _ _ _ M1 L1). lra.
    + apply (binary_round_aux_mono x y); try lia; assumption.
Qed.

(** A float of 53 digits is its own rounding. *)
Lemma rounds_to_self lo hi f :
  -1074 <= lo -> hi + 1 <= 971 ->
  nonneg53 lo hi f -> rounds_to lo hi (SF2R f) f.
Proof.
  intros Lo Hi N. destruct f as [[|]|[|]| |[|] m e]; try contradiction.
  - left. split; reflexivity.
  - destruct N as [R B]. right. exists (Zpos m), e, loc_Exact.
    assert (D : Zdigits2 (Zpos m) = 53) by (apply digits_unique; lia).
    rewrite D. repeat split; try lia; try reflexivity.
    destruct (binary_round_aux_normal false (F2R (Zpos m) e) (Zpos m) e
                loc_Exact) as (mt & lt & E & T & RT);
      try (rewrite ?D; unfold SpecFloat.emin, emax, prec; lia).
    { reflexivity. }
    rewrite E, D. replace (e + 53 - 53) with e in * by lia.
    (* the cut mantissa is the mantissa itself *)
    assert (C : mt = Zpos m /\ lt = loc_Exact).
    { rewrite D in T. replace (e + 53 - 53) with e in T by lia.
      destruct (canonical_order _ _ _ _ _ _ _ _ T
                  (eq_refl : located (F2R (Zpos m) e) (Zpos m) e loc_Exact)
                  RT R (Rle_refl _)) as [?|[_ [?|[E1 K1]]]]; try lia.
      destruct (canonical_order _ _ _ _ _ _ _ _
                  (eq_refl : located (F2R (Zpos m) e) (Zpos m) e loc_Exact)
                  T R RT (Rle_refl _)) as [?|[_ [?|[E2 K2]]]]; try lia.
      split; [exact E1|].
      destruct lt as [|[ | | ]]; simpl in K1; try lia. reflexivity. }
    destruct C as [-> ->]. unfold finish, round_nearest_even.
    destruct (Z.eqb_spec (Zpos m) (2 ^ 53)); [lia | reflexivity].
Qed.
End RoundsTo.

(** ** Binary64 rounding: subtraction, multiplication and division *)

Section Subtraction.

Lemma rounds_to_weaken lo hi lo' hi' x f :
  lo' <= lo -> hi <= hi' -> rounds_to lo hi x f -> rounds_to lo' hi' x f.
Proof.
  intros Lo Hi [Z|(m & e & l & E & L & M & D & B)]; [left; exact Z|].
  right. exists m, e, l. repeat split; try assumption; lia.
Qed.

Lemma digits_le (p : positive) (k : Z) :
  Zpos p < 2 ^ k -> Zpos (digits2_pos p) <= k.
Proof.
  intros U. pose proof (digits2_pos_bounds p) as [L _].
  set (d := Zpos (digits2_pos p)) in *.
  destruct (Z_le_gt_dec d k) as [C|C]; [exact C|exfalso].
  assert (0 <= k).
  { destruct (Z_lt_le_dec k 0) as [N|N]; [|exact N].
    rewrite (Z.pow_neg_r 2 k N) in U. lia. }
  assert (2 ^ k <= 2 ^ (d - 1)) by (apply Z.pow_le_mono_r; lia). lia.
Qed.

Lemma shl_align_value (m : positive) (e e' : Z) :
  e' <= e ->
  Zpos (fst (shl_align m e e')) = Zpos m * 2 ^ (e - e').
Proof.
  intros H. unfold shl_align.
  destruct (e' - e) as [|k|k] eqn:K; simpl fst; try lia.
  - replace (e - e') with 0 by lia. lia.
  - rewrite Zpos_iter_xO. f_equal. f_equal. lia.
Qed.

(** [binary_round] of an exact positive value. *)
Lemma binary_round_rounds lo hi (p : positive) (e : Z) :
  -1074 <= lo -> lo <= e + Zpos (digits2_pos p) - 53 <= hi ->
  rounds_to lo hi (F2R (Zpos p) e) (binary_round prec emax false p e).
Proof.
  intros Lo B. unfold binary_round. set (d := Zpos (digits2_pos p)) in *.
  replace (fexp prec emax (d + e)) with (d + e - 53)
    by (unfold fexp, SpecFloat.emin, prec, emax; lia).
  right. unfold shl_align.
  replace (d + e - 53 - e) with (d - 53) by lia.
  destruct (d - 53) as [|k|k] eqn:K.
  - exists (Zpos p), e, loc_Exact. unfold Zdigits2. fold d.
    repeat split; try lia.
  - exists (Zpos p), e, loc_Exact. unfold Zdigits2. fold d.
    repeat split; try lia.
  - exists (Zpos (Pos.iter xO p k)), (d + e - 53), loc_Exact.
    unfold Zdigits2. rewrite digits2_pos_iter, Pos2Z.inj_add. fold d.
    repeat split; try lia.
    unfold located. rewrite Zpos_iter_xO.
    replace (d + e - 53) with (e - Zpos k) by lia.
    symmetry. apply F2R_shift. lia.
Qed.

(** Subtraction of a smaller non-negative float rounds the exact
    difference. *)
Lemma SFsub_rounds lo hi a b :
  -1022 <= lo -> hi <= 900 ->
  nonneg53 lo hi a -> nonneg53 lo hi b -> (SF2R b <= SF2R a)%R ->
  rounds_to (lo - 52) hi (SF2R a - SF2R b)%R (SFsub prec emax a b).
Proof.
  intros Lo Hi NA NB BA.
  destruct a as [[|]|[|]| |[|] ma ea]; try contradiction;
    destruct b as [[|]|[|]| |[|] mb eb]; try contradiction.
  - left. split; [simpl; lra | reflexivity].
  - exfalso. simpl in BA. unfold F2R in BA. pose proof (bpow_pos eb).
    assert (0 < IZR (Zpos mb))%R by (apply IZR_lt; lia). nra.
  - replace (SF2R (S754_finite false ma ea) - SF2R (S754_zero false))%R
      with (SF2R (S754_finite false ma ea)) by (simpl; lra).
    apply (rounds_to_weaken lo hi); try lia.
    apply rounds_to_self; try lia. exact NA.
  - destruct NA as [[LA UA] EA], NB as [[LB UB] EB].
    unfold SFsub. simpl cond_Zopp. set (ez := Z.min ea eb).
    pose proof (shl_align_value ma ea ez ltac:(unfold ez; lia)) as VA.
    pose proof (shl_align_value mb eb ez ltac:(unfold ez; lia)) as VB.
    set (A := Zpos (fst (shl_align ma ea ez))) in *.
    set (B := Zpos (fst (shl_align mb eb ez))) in *.
    assert (RA : F2R A ez = F2R (Zpos ma) ea).
    { rewrite VA. replace ez with (ea - (ea - ez)) at 2 by lia.
      apply F2R_shift. unfold ez. lia. }
    assert (RB : F2R B ez = F2R (Zpos mb) eb).
    { rewrite VB. replace ez with (eb - (eb - ez)) at 2 by lia.
      apply F2R_shift. unfold ez. lia. }
    assert (X : (SF2R (S754_finite false ma ea)
                 - SF2R (S754_finite false mb eb))%R = F2R (A - B) ez).
    { unfold SF2R, cond_Zopp. rewrite <- RA, <- RB. unfold F2R.
      rewrite minus_IZR. lra. }
    rewrite X.
    assert (NN : 0 <= A - B).
    { unfold SF2R, cond_Zopp in BA. rewrite <- RA, <- RB in BA.
      unfold F2R in BA.
      pose proof (bpow_pos ez).
      assert (IZR B <= IZR A)%R by nra.
      apply le_IZR in H0. lia. }
    unfold binary_normalize. destruct (A - B) as [|p|p] eqn:AB; try lia.
    + left. split; [unfold F2R; lra | reflexivity].
    + apply binary_round_rounds; [lia|].
      assert (P : 0 < 2 ^ (ea - ez)) by (apply Z.pow_pos_nonneg; unfold ez; lia).
      assert (U : Zpos p < 2 ^ (53 + (ea - ez))).
      { rewrite Z.pow_add_r by (unfold ez; lia).
        assert (A < 2 ^ 53 * 2 ^ (ea - ez))
          by (rewrite VA; apply Z.mul_lt_mono_pos_r; lia).
        lia. }
      pose proof (digits_le p _ U).
      assert (0 < Zpos (digits2_pos p)) by lia.
      unfold ez in *. lia.
Qed.
End Subtraction.

Section Multiplication.

Lemma digits_ge (p : positive) (k : Z) :
  2 ^ k <= Zpos p -> k + 1 <= Zpos (digits2_pos p).
Proof.
  intros L. pose proof (digits2_pos_bounds p) as [_ U].
  set (d := Zpos (digits2_pos p)) in *.
  destruct (Z_le_gt_dec (k + 1) d) as [C|C]; [exact C|exfalso].
  assert (2 ^ d <= 2 ^ k) by (apply Z.pow_le_mono_r; unfold d; lia). lia.
Qed.

(** Multiplication of non-negative floats rounds the exact product. *)
Lemma SFmul_rounds lo hi a b :
  nonneg53 lo hi a -> nonneg53 lo hi b ->
  rounds_to (2 * lo + 52) (2 * hi + 53) (SF2R a * SF2R b)%R
    (SFmul prec emax a b).
Proof.
  intros NA NB.
  destruct a as [[|]|[|]| |[|] ma ea]; try contradiction;
    destruct b as [[|]|[|]| |[|] mb eb]; try contradiction;
    try (left; split; [simpl; lra | reflexivity]).
  destruct NA as [[LA UA] EA], NB as [[LB UB] EB].
  right. exists (Zpos (ma * mb)), (ea + eb), loc_Exact.
  assert (L : 2 ^ 104 <= Zpos (ma * mb)).
  { rewrite Pos2Z.inj_mul. change (2 ^ 104) with (2 ^ 52 * 2 ^ 52).
    apply Z.mul_le_mono_nonneg; lia. }
  assert (U : Zpos (ma * mb) < 2 ^ 106).
  { rewrite Pos2Z.inj_mul. change (2 ^ 106) with (2 ^ 53 * 2 ^ 53).
    apply Z.mul_lt_mono_nonneg; lia. }
  pose proof (digits_ge _ _ L). pose proof (digits_le _ _ U).
  unfold Zdigits2. repeat split; try lia.
  unfold located, SF2R, cond_Zopp, F2R.
  rewrite Pos2Z.inj_mul, mult_IZR, bpow_add. lra.
Qed.
End Multiplication.

Section Division.
Local Open Scope R_scope.

(** The place of a quotient in its cell, from the remainder. *)
Lemma new_location_located (b q r e : Z) :
  (0 < b)%Z -> (0 <= r < b)%Z ->
  located ((IZR q + IZR r / IZR b) * bpow e) q e (new_location b r).
Proof.
  intros Hb [Hr0 Hr1]. pose proof (bpow_pos e) as P.
  assert (PB : 0 < IZR b) by (apply IZR_lt; exact Hb).
  set (rho := IZR r / IZR b).
  assert (E : rho * IZR b = IZR r) by (unfold rho; field; lra).
  clearbody rho.
  assert (B0 : 0 <= IZR r) by (apply IZR_le; exact Hr0).
  assert (B1 : IZR r < IZR b) by (apply IZR_lt; exact Hr1).
  assert (Rho : 0 <= rho < 1).
  { split.
    - destruct (Rle_lt_dec 0 rho) as [C|C]; [exact C | exfalso; nra].
    - destruct (Rlt_le_dec rho 1) as [C|C]; [exact C | exfalso; nra]. }
  assert (NL : new_location b r
               = if (r =? 0)%Z then loc_Exact
                 else loc_Inexact
                        (if Z.even b then (2 * r ?= b)%Z
                         else match (2 * r + 1 ?= b)%Z with
                              | Gt => Gt
                              | _ => Lt
                              end)).
  { unfold new_location, new_location_even, new_location_odd.
    destruct (Z.even b), (r =? 0)%Z; try reflexivity. }
  rewrite NL. clear NL.
  destruct (Z.eqb_spec r 0) as [->|N].
  - assert (Z0 : rho = 0).
    { destruct (Rmult_integral _ _ E) as [C|C]; [exact C | lra]. }
    rewrite Z0, Rplus_0_r. unfold located, F2R. reflexivity.
  - assert (0 < IZR r) by (apply IZR_lt; lia).
    assert (Rho0 : 0 < rho) by nra.
    assert (M0 : 0 < rho * bpow e) by (apply Rmult_lt_0_compat; lra).
    assert (M1 : rho * bpow e < 1 * bpow e)
      by (apply Rmult_lt_compat_r; lra).
    assert (Half : forall c : comparison,
               match c with
               | Lt => rho < / 2
               | Eq => rho = / 2
               | Gt => / 2 < rho
               end ->
               located ((IZR q + rho) * bpow e) q e (loc_Inexact c)).
    { intros c Hc. unfold located, F2R. rewrite plus_IZR.
      split; [split; lra|].
      destruct c.
      - rewrite Hc. lra.
      - assert (rho * bpow e < / 2 * bpow e)
          by (apply Rmult_lt_compat_r; lra). lra.
      - assert (/ 2 * bpow e < rho * bpow e)
          by (apply Rmult_lt_compat_r; lra). lra. }
    assert (Cmp : forall x y : Z,
               (x ?= y)%Z = Lt -> IZR x < IZR y).
    { intros x y C. apply IZR_lt. apply Z.compare_lt_iff. exact C. }
    apply Half. destruct (Z.even b) eqn:Ev.
    + destruct (Z.compare_spec (2 * r) b) as [C|C|C].
      * assert (2 * IZR r = IZR b)
          by (rewrite <- C, mult_IZR; reflexivity).
        nra.
      * assert (2 * IZR r < IZR b)
          by (rewrite <- mult_IZR; apply IZR_lt; exact C).
        nra.
      * assert (IZR b < 2 * IZR r)
          by (rewrite <- mult_IZR; apply IZR_lt; exact C).
        nra.
    + assert (Odd : (2 * r <> b)%Z).
      { intros C. rewrite <- C, Z.even_mul in Ev. discriminate. }
      destruct (Z.compare_spec (2 * r + 1) b) as [C|C|C].
      * assert (2 * IZR r < IZR b)
          by (rewrite <- mult_IZR; apply IZR_lt; lia).
        nra.
      * assert (2 * IZR r < IZR b)
          by (rewrite <- mult_IZR; apply IZR_lt; lia).
        nra.
      * assert (IZR b < 2 * IZR r)
          by (rewrite <- mult_IZR; apply IZR_lt; lia).
        nra.
Qed.

(** Division of a non-negative float by a positive one rounds the exact
    quotient. *)
Lemma SFdiv_rounds lo hi a b :
  (-500 <= lo)%Z -> (hi <= 500)%Z ->
  nonneg53 lo hi a -> nonneg53 lo hi b -> 0 < SF2R b ->
  rounds_to (lo - hi - 53) (hi - lo - 52) (SF2R a / SF2R b)
    (SFdiv prec emax a b).
Proof.
  intros Lo Hi NA NB PB.
  destruct b as [[|]|[|]| |[|] mb eb]; try contradiction;
    [simpl in PB; lra|].
  destruct a as [[|]|[|]| |[|] ma ea]; try contradiction.
  - left. split; [simpl; lra | reflexivity].
  - destruct NA as [[LA UA] EA], NB as [[LB UB] EB].
    unfold SFdiv, SFdiv_core_binary. simpl xorb.
    assert (DA : Zdigits2 (Zpos ma) = 53%Z) by (apply digits_unique; lia).
    assert (DB : Zdigits2 (Zpos mb) = 53%Z) by (apply digits_unique; lia).
    rewrite DA, DB.
    replace (Z.min (fexp prec emax (53 + ea - (53 + eb))) (ea - eb))
      with (ea - eb - 53)%Z
      by (unfold fexp, SpecFloat.emin, prec, emax; lia).
    replace (ea - eb - (ea - eb - 53))%Z with 53%Z by lia.
    rewrite Z.shiftl_mul_pow2 by lia.
    pose proof (Z_div_mod (Zpos ma * 2 ^ 53) (Zpos mb) ltac:(lia))
      as DM.
    destruct (Z.div_eucl (Zpos ma * 2 ^ 53) (Zpos mb)) as [q r].
    destruct DM as [DE DR].
    (* the quotient has 53 or 54 digits *)
    assert (Q0 : (2 ^ 52 <= q)%Z).
    { apply Z.lt_succ_r. apply Z.nle_gt. intros C.
      assert (Zpos mb * q <= Zpos mb * (2 ^ 52 - 1))%Z
        by (apply Z.mul_le_mono_nonneg_l; lia).
      assert (2 ^ 52 * 2 ^ 53 <= Zpos ma * 2 ^ 53)%Z
        by (apply Z.mul_le_mono_nonneg_r; lia).
      nia. }
    assert (Q1 : (q < 2 ^ 54)%Z).
    { apply Z.nle_gt. intros C.
      assert (2 ^ 52 * 2 ^ 54 <= Zpos mb * q)%Z
        by (apply Z.mul_le_mono_nonneg; lia).
      assert (Zpos ma * 2 ^ 53 < 2 ^ 53 * 2 ^ 53)%Z
        by (apply Z.mul_lt_mono_pos_r; lia).
      change (2 ^ 52 * 2 ^ 54)%Z with (2 ^ 53 * 2 ^ 53)%Z in *. lia. }
    destruct q as [|pq|pq]; try lia.
    pose proof (digits_ge pq 52 Q0). pose proof (digits_le pq 54 Q1).
    right. exists (Zpos pq), (ea - eb - 53)%Z, (new_location (Zpos mb) r).
    unfold Zdigits2. repeat split; try lia.
    replace (SF2R (S754_finite false ma ea) / SF2R (S754_finite false mb eb))
      with ((IZR (Zpos pq) + IZR r / IZR (Zpos mb)) * bpow (ea - eb - 53)).
    { apply new_location_located; lia. }
    unfold SF2R, cond_Zopp, F2R.
    assert (PMB : 0 < IZR (Zpos mb)) by (apply IZR_lt; lia).
    pose proof (bpow_pos eb). pose proof (bpow_pos (ea - eb - 53)).
    replace (bpow ea) with (bpow (ea - eb - 53) * bpow eb * IZR (2 ^ 53)).
    2:{ rewrite <- (bpow_IZR 53) by lia. rewrite <- !bpow_add.
        f_equal. lia. }
    assert (DE' : IZR (Zpos ma) * IZR (2 ^ 53)
                  = IZR (Zpos mb) * IZR (Zpos pq) + IZR r).
    { rewrite <- !mult_IZR, <- plus_IZR. f_equal. exact DE. }
    set (A := IZR (Zpos ma)) in *. set (B := IZR (Zpos mb)) in *.
    set (Q := IZR (Zpos pq)) in *. set (K := IZR (2 ^ 53)) in *.
    set (x := bpow (ea - eb - 53)) in *. set (y := bpow eb) in *.
    replace (A * (x * y * K)) with (x * y * (A * K)) by ring.
    rewrite DE'. field. lra.
Qed.
End Division.

(** ** The decaying bonus, for every binary64 response time *)

Section Floor.

(** The right shift of [Math.floor] is the whole part of the value. *)
Lemma floor_cell (m : positive) (e : Z) :
  e < 0 ->
  (IZR (Z.shiftr (Zpos m) (- e)) <= F2R (Zpos m) e
   < IZR (Z.shiftr (Zpos m) (- e)) + 1)%R.
Proof.
  intros E. rewrite Z.shiftr_div_pow2 by lia.
  set (d := 2 ^ (- e)).
  assert (D : 0 < d) by (apply Z.pow_pos_nonneg; lia).
  pose proof (Z_div_mod_eq_full (Zpos m) d) as DM.
  pose proof (Z.mod_pos_bound (Zpos m) d D) as [M0 M1].
  assert (I : (IZR d * bpow e = 1)%R).
  { unfold d. rewrite <- bpow_IZR by lia. rewrite <- bpow_add.
    replace (- e + e) with 0 by lia. apply bpow_0. }
  set (q := Zpos m / d) in *. set (r := Zpos m mod d) in *.
  assert (V : (IZR (Zpos m) = IZR d * IZR q + IZR r)%R).
  { rewrite <- mult_IZR, <- plus_IZR. f_equal. exact DM. }
  pose proof (bpow_pos e) as P.
  assert (L : (0 <= IZR r * bpow e)%R).
  { apply Rmult_le_pos; [apply IZR_le; exact M0 | lra]. }
  assert (U : (IZR r * bpow e < IZR d * bpow e)%R).
  { apply Rmult_lt_compat_r; [exact P | apply IZR_lt; exact M1]. }
  unfold F2R. rewrite V.
  replace ((IZR d * IZR q + IZR r) * bpow e)%R
    with (IZR q * (IZR d * bpow e) + IZR r * bpow e)%R by ring.
  rewrite I. lra.
Qed.

Lemma SF2R_nonneg lo hi f : nonneg53 lo hi f -> (0 <= SF2R f)%R.
Proof.
  destruct f as [[|]|[|]| |[|] m e]; try contradiction; intros _;
    simpl; try lra.
  unfold F2R. pose proof (bpow_pos e).
  apply Rmult_le_pos; [apply IZR_le; lia | lra].
Qed.

(** [Math.floor] of a value from 0 to 50: a whole number [k], with
    [k <= x < k + 1]. *)
Lemma floor_spec lo hi (x : float) :
  nonneg53 lo hi (Prim2SF x) -> (SF2R (Prim2SF x) <= 50)%R ->
  exists k, floor x = ofZ k
            /\ (IZR k <= SF2R (Prim2SF x) < IZR k + 1)%R.
Proof.
  intros N U. unfold floor.
  destruct (Prim2SF x) as [[|]|[|]| |[|] m e] eqn:X; try contradiction.
  - exists 0. split; [|simpl; lra].
    rewrite <- (SF2Prim_Prim2SF x), X. vm_compute. reflexivity.
  - destruct N as [[M0 M1] _]. simpl in U.
    destruct (Z.leb_spec 0 e) as [C|C].
    + exfalso. pose proof (bpow_le 0 e C) as B. rewrite bpow_0 in B.
      assert (IZR (2 ^ 52) <= IZR (Zpos m))%R by (apply IZR_le; exact M0).
      assert (64 <= IZR (2 ^ 52))%R by (apply IZR_le; lia).
      unfold F2R in U.
      assert (IZR (Zpos m) * 1 <= IZR (Zpos m) * bpow e)%R
        by (apply Rmult_le_compat_l; lra).
      lra.
    + exists (Z.shiftr (Zpos m) (- e)). split; [reflexivity|].
      simpl. apply floor_cell. exact C.
Qed.

(** The whole part is unique, so it follows the order of the values. *)
Lemma floor_le (k1 k2 : Z) (x1 x2 : R) :
  (IZR k1 <= x1 < IZR k1 + 1)%R -> (IZR k2 <= x2 < IZR k2 + 1)%R ->
  (x1 <= x2)%R -> k1 <= k2.
Proof.
  intros [L1 _] [_ U2] H. apply Z.lt_succ_r. apply lt_IZR.
  rewrite succ_IZR. lra.
Qed.
End Floor.

Section Constants.

Lemma Prim2SF_1 : Prim2SF 1 = S754_finite false 4503599627370496 (-52).
Proof. vm_compute. reflexivity. Qed.

Lemma Prim2SF_50 : Prim2SF 50 = S754_finite false 7036874417766400 (-47).
Proof. vm_compute. reflexivity. Qed.

Lemma Prim2SF_5000 :
  Prim2SF 5000 = S754_finite false 5497558138880000 (-40).
Proof. vm_compute. reflexivity. Qed.

Lemma Prim2SF_10000 :
  Prim2SF 10000 = S754_finite false 5497558138880000 (-39).
Proof. vm_compute. reflexivity. Qed.

Lemma nonneg53_weaken lo hi lo' hi' f :
  lo' <= lo -> hi <= hi' -> nonneg53 lo hi f -> nonneg53 lo' hi' f.
Proof.
  intros L H. destruct f as [[|]|[|]| |[|] m e]; simpl; try tauto. lia.
Qed.

Lemma nonneg53_literal (m : positive) (e lo hi : Z) :
  (2 ^ 52 <=? Zpos m) = true -> (Zpos m <? 2 ^ 53) = true ->
  (lo <=? e) = true -> (e <=? hi) = true ->
  nonneg53 lo hi (S754_finite false m e).
Proof.
  rewrite !Z.leb_le, Z.ltb_lt. simpl. tauto.
Qed.

Lemma SF2R_literal (z : Z) (k : Z) (m : positive) :
  0 <= k -> Zpos m = z * 2 ^ k ->
  SF2R (S754_finite false m (- k)) = IZR z.
Proof.
  intros K E. simpl. rewrite E. change (- k) with (0 - k).
  rewrite F2R_shift by exact K. unfold F2R. rewrite bpow_0. ring.
Qed.

Lemma SF2R_1 : SF2R (Prim2SF 1) = 1%R.
Proof.
  rewrite Prim2SF_1. apply (SF2R_literal 1 52); [lia|].
  vm_compute. reflexivity.
Qed.

Lemma SF2R_50 : SF2R (Prim2SF 50) = 50%R.
Proof.
  rewrite Prim2SF_50. apply (SF2R_literal 50 47); [lia|].
  vm_compute. reflexivity.
Qed.

Lemma SF2R_5000 : SF2R (Prim2SF 5000) = 5000%R.
Proof.
  rewrite Prim2SF_5000. apply (SF2R_literal 5000 40); [lia|].
  vm_compute. reflexivity.
Qed.

Lemma SF2R_10000 : SF2R (Prim2SF 10000) = 10000%R.
Proof.
  rewrite Prim2SF_10000. apply (SF2R_literal 10000 39); [lia|].
  vm_compute. reflexivity.
Qed.

Lemma nonneg53_1 lo hi :
  lo <= -52 -> -52 <= hi -> nonneg53 lo hi (Prim2SF 1).
Proof.
  intros L H. rewrite Prim2SF_1.
  apply (nonneg53_weaken (-52) (-52)); [exact L | exact H |].
  apply nonneg53_literal; vm_compute; reflexivity.
Qed.

Lemma nonneg53_50 lo hi :
  lo <= -47 -> -47 <= hi -> nonneg53 lo hi (Prim2SF 50).
Proof.
  intros L H. rewrite Prim2SF_50.
  apply (nonneg53_weaken (-47) (-47)); [exact L | exact H |].
  apply nonneg53_literal; vm_compute; reflexivity.
Qed.

Lemma nonneg53_5000 lo hi :
  lo <= -40 -> -40 <= hi -> nonneg53 lo hi (Prim2SF 5000).
Proof.
  intros L H. rewrite Prim2SF_5000.
  apply (nonneg53_weaken (-40) (-40)); [exact L | exact H |].
  apply nonneg53_literal; vm_compute; reflexivity.
Qed.

Lemma nonneg53_10000 lo hi :
  lo <= -39 -> -39 <= hi -> nonneg53 lo hi (Prim2SF 10000).
Proof.
  intros L H. rewrite Prim2SF_10000.
  apply (nonneg53_weaken (-39) (-39)); [exact L | exact H |].
  apply nonneg53_literal; vm_compute; reflexivity.
Qed.

(** Two rounded values are in the order of the values they round. *)
Lemma rounds_to_le lo1 hi1 lo2 hi2 x y f g :
  -1074 <= lo1 -> hi1 + 1 <= 971 -> -1074 <= lo2 -> hi2 + 1 <= 971 ->
  rounds_to lo1 hi1 x f -> rounds_to lo2 hi2 y g -> (x <= y)%R ->
  (SF2R f <= SF2R g)%R.
Proof.
  intros L1 H1 L2 H2 F G XY.
  apply (SFleb_SF2R lo1 (hi1 + 1) lo2 (hi2 + 1)).
  - apply (rounds_to_nonneg53 lo1 hi1 x); assumption.
  - apply (rounds_to_nonneg53 lo2 hi2 y); assumption.
  - apply (rounds_to_mono lo1 hi1 lo2 hi2 x y); assumption.
Qed.
End Constants.

Section Decay.

(** The four roundings of the bonus, each with the value it rounds. *)
Lemma bonus_stages (T : spec_float) :
  window T ->
  let U := SF64sub T (Prim2SF 5000) in
  let Q := SF64div U (Prim2SF 5000) in
  let R := SF64sub (Prim2SF 1) Q in
  rounds_to (-92) (-39) (SF2R T - 5000) U
  /\ rounds_to (-107) 2 (SF2R U / 5000) Q
  /\ rounds_to (-159) 3 (1 - SF2R Q) R
  /\ rounds_to (-266) 61 (50 * SF2R R) (bonusSF T).
Proof.
  intros (N & L & H) U Q R.
  assert (L' : (5000 <= SF2R T)%R).
  { rewrite <- SF2R_5000.
    apply (SFleb_SF2R (-40) (-39) (-40) (-39));
      [apply nonneg53_5000; lia | exact N | exact L]. }
  assert (H' : (SF2R T <= 10000)%R).
  { rewrite <- SF2R_10000.
    apply (SFleb_SF2R (-40) (-39) (-40) (-39));
      [exact N | apply nonneg53_10000; lia | exact H]. }
  (* t - 5000 *)
  assert (SU : rounds_to (-92) (-39) (SF2R T - 5000) U).
  { pose proof (SFsub_rounds (-40) (-39) T (Prim2SF 5000)
                  ltac:(lia) ltac:(lia) N
                  (nonneg53_5000 (-40) (-39) ltac:(lia) ltac:(lia))) as S.
    rewrite SF2R_5000 in S. exact (S L'). }
  assert (NU : nonneg53 (-92) (-38) U).
  { apply (rounds_to_nonneg53 (-92) (-39) (SF2R T - 5000));
      [lia | lia | exact SU]. }
  assert (S5 : rounds_to (-40) (-40) 5000 (Prim2SF 5000)).
  { rewrite <- SF2R_5000 at 1. apply rounds_to_self; try lia.
    apply nonneg53_5000; lia. }
  assert (S1 : rounds_to (-52) (-52) 1 (Prim2SF 1)).
  { rewrite <- SF2R_1 at 1. apply rounds_to_self; try lia.
    apply nonneg53_1; lia. }
  assert (XU : (SF2R U <= 5000)%R).
  { rewrite <- SF2R_5000.
    apply (rounds_to_le (-92) (-39) (-40) (-40)
             (SF2R T - 5000) 5000); try lia; try assumption. lra. }
  (* ... / 5000 *)
  assert (SQ : rounds_to (-107) 2 (SF2R U / 5000) Q).
  { pose proof (SFdiv_rounds (-92) (-38) U (Prim2SF 5000)
                  ltac:(lia) ltac:(lia) NU
                  (nonneg53_5000 (-92) (-38) ltac:(lia) ltac:(lia))) as S.
    rewrite SF2R_5000 in S. apply S. lra. }
  assert (NQ : nonneg53 (-107) 3 Q).
  { apply (rounds_to_nonneg53 (-107) 2 (SF2R U / 5000));
      [lia | lia | exact SQ]. }
  assert (XQ : (SF2R Q <= 1)%R).
  { rewrite <- SF2R_1.
    apply (rounds_to_le (-107) 2 (-52) (-52) (SF2R U / 5000) 1);
      try lia; try assumption. lra. }
  (* 1 - ... *)
  assert (SR : rounds_to (-159) 3 (1 - SF2R Q) R).
  { pose proof (SFsub_rounds (-107) 3 (Prim2SF 1) Q
                  ltac:(lia) ltac:(lia)
                  (nonneg53_1 (-107) 3 ltac:(lia) ltac:(lia)) NQ) as S.
    rewrite SF2R_1 in S. exact (S XQ). }
  assert (NR : nonneg53 (-159) 4 R).
  { apply (rounds_to_nonneg53 (-159) 3 (1 - SF2R Q));
      [lia | lia | exact SR]. }
  (* 50 * ... *)
  assert (SP : rounds_to (-266) 61 (50 * SF2R R) (bonusSF T)).
  { pose proof (SFmul_rounds (-159) 4 (Prim2SF 50) R
                  (nonneg53_50 (-159) 4 ltac:(lia) ltac:(lia)) NR) as S.
    rewrite SF2R_50 in S. exact S. }
  repeat split; assumption.
Qed.

(** The bonus is a binary64 value from 0 to 50. *)
Lemma bonus_range (T : spec_float) :
  window T ->
  nonneg53 (-266) 62 (bonusSF T) /\ (SF2R (bonusSF T) <= 50)%R.
Proof.
  intros W. destruct (bonus_stages T W) as (SU & SQ & SR & SP).
  set (Q := SF64div (SF64sub T (Prim2SF 5000)) (Prim2SF 5000)) in *.
  set (R := SF64sub (Prim2SF 1) Q) in *.
  assert (S1 : rounds_to (-52) (-52) 1 (Prim2SF 1)).
  { rewrite <- SF2R_1 at 1. apply rounds_to_self; try lia.
    apply nonneg53_1; lia. }
  assert (S50 : rounds_to (-47) (-47) 50 (Prim2SF 50)).
  { rewrite <- SF2R_50 at 1. apply rounds_to_self; try lia.
    apply nonneg53_50; lia. }
  assert (NQ : nonneg53 (-107) 3 Q).
  { apply (rounds_to_nonneg53 (-107) 2 _ _ ltac:(lia) ltac:(lia) SQ). }
  pose proof (SF2R_nonneg _ _ _ NQ) as Q0.
  assert (XR : (SF2R R <= 1)%R).
  { rewrite <- SF2R_1.
    apply (rounds_to_le (-159) 3 (-52) (-52) (1 - SF2R Q) 1);
      try lia; try assumption. lra. }
  split.
  - apply (rounds_to_nonneg53 (-266) 61 _ _ ltac:(lia) ltac:(lia) SP).
  - rewrite <- SF2R_50.
    apply (rounds_to_le (-266) 61 (-47) (-47) (50 * SF2R R) 50);
      try lia; try assumption. lra.
Qed.

(** A later answer in the window gets no more bonus than an earlier
    one. *)
Lemma bonus_antitone (T1 T2 : spec_float) :
  window T1 -> window T2 -> SFleb T1 T2 = true ->
  (SF2R (bonusSF T2) <= SF2R (bonusSF T1))%R.
Proof.
  intros W1 W2 L.
  destruct (bonus_stages T1 W1) as (SU1 & SQ1 & SR1 & SP1).
  destruct (bonus_stages T2 W2) as (SU2 & SQ2 & SR2 & SP2).
  destruct W1 as (N1 & _), W2 as (N2 & _).
  pose proof (SFleb_SF2R _ _ _ _ _ _ N1 N2 L) as XT.
  assert (XU : (SF2R (SF64sub T1 (Prim2SF 5000))
                <= SF2R (SF64sub T2 (Prim2SF 5000)))%R).
  { apply (rounds_to_le (-92) (-39) (-92) (-39)
             (SF2R T1 - 5000) (SF2R T2 - 5000));
      try lia; try assumption. lra. }
  set (U1 := SF64sub T1 (Prim2SF 5000)) in *.
  set (U2 := SF64sub T2 (Prim2SF 5000)) in *.
  assert (XQ : (SF2R (SF64div U1 (Prim2SF 5000))
                <= SF2R (SF64div U2 (Prim2SF 5000)))%R).
  { apply (rounds_to_le (-107) 2 (-107) 2
             (SF2R U1 / 5000) (SF2R U2 / 5000));
      try lia; try assumption. lra. }
  set (Q1 := SF64div U1 (Prim2SF 5000)) in *.
  set (Q2 := SF64div U2 (Prim2SF 5000)) in *.
  assert (XR : (SF2R (SF64sub (Prim2SF 1) Q2)
                <= SF2R (SF64sub (Prim2SF 1) Q1))%R).
  { apply (rounds_to_le (-159) 3 (-159) 3
             (1 - SF2R Q2) (1 - SF2R Q1));
      try lia; try assumption. lra. }
  set (R1 := SF64sub (Prim2SF 1) Q1) in *.
  set (R2 := SF64sub (Prim2SF 1) Q2) in *.
  apply (rounds_to_le (-266) 61 (-266) 61
           (50 * SF2R R2) (50 * SF2R R1));
    try lia; try assumption. lra.
Qed.
End Decay.

Section Window.

Lemma between_finite (f : spec_float) (c : positive) :
  SFltb f (S754_finite false c (-40)) = false ->
  SFltb f (S754_finite false c (-39)) = true ->
  exists m e, f = S754_finite false m e
    /\ ((e = -40 /\ (c <= m)%positive) \/ (e = -39 /\ (m < c)%positive)).
Proof.
  intros H1 H2.
  destruct f as [[|]|[|]| |[|] m e];
    unfold SFltb, SFcompare in H1, H2; try discriminate.
  change (Pos.compare_cont Eq) with Pos.compare in *.
  exists m, e. split; [reflexivity|].
  destruct (Z.compare_spec e (-40)) as [C|C|C];
    [left | discriminate H1 | ].
  - split; [exact C|].
    destruct (Pos.compare_spec m c) as [P|P|P];
      [|discriminate H1|]; clear H1 H2; lia.
  - destruct (Z.compare_spec e (-39)) as [D|D|D];
      [right | exfalso; clear H1 H2; lia | discriminate H2].
    split; [exact D|].
    destruct (Pos.compare_spec m c) as [P|P|P];
      try discriminate H2. exact P.
Qed.

Lemma valid_53 (s : bool) (m : positive) (e : Z) :
  valid_binary (S754_finite s m e) = true -> -1074 < e ->
  2 ^ 52 <= Zpos m < 2 ^ 53.
Proof.
  intros V E.
  assert (D : Zpos (digits2_pos m) = 53%Z).
  { unfold valid_binary, bounded, canonical_mantissa in V.
    apply andb_prop in V as [V _]. apply Z.eqb_eq in V.
    unfold fexp, emin, prec, emax in V. lia. }
  pose proof (digits2_pos_bounds m) as B. rewrite D in B.
  change (2 ^ (53 - 1))%Z with (2 ^ 52)%Z in B. exact B.
Qed.

Lemma between_leb (c m : positive) (e : Z) :
  (e = -40 /\ (c <= m)%positive) \/ (e = -39 /\ (m < c)%positive) ->
  SFleb (S754_finite false c (-40)) (S754_finite false m e) = true
  /\ SFleb (S754_finite false m e) (S754_finite false c (-39)) = true.
Proof.
  intros E. unfold SFleb, SFcompare.
  change (Pos.compare_cont Eq) with Pos.compare.
  destruct E as [[-> M]|[-> M]].
  - change (-40 ?= -40)%Z with Eq. change (-40 ?= -39)%Z with Lt.
    cbv beta iota. split; [|reflexivity].
    destruct (Pos.compare_spec c m); try reflexivity; lia.
  - change (-39 ?= -39)%Z with Eq. change (-40 ?= -39)%Z with Lt.
    cbv beta iota. split; [reflexivity|].
    destruct (Pos.compare_spec m c); try reflexivity; lia.
Qed.

(** A binary64 value in the decay window is a positive one of 53 digits,
    from 5000 to 10000. *)
Lemma window_Prim2SF (t : float) : inDecayWindow t -> window (Prim2SF t).
Proof.
  intros [H1 H2]. rewrite ltb_spec in H1, H2.
  rewrite Prim2SF_5000 in H1. rewrite Prim2SF_10000 in H2.
  destruct (between_finite _ _ H1 H2) as (m & e & X & E).
  pose proof (Prim2SF_valid t) as V. rewrite X in V.
  unfold window. rewrite Prim2SF_5000, Prim2SF_10000, X.
  split; [|apply between_leb; exact E].
  unfold nonneg53.
  destruct E as [[-> _]|[-> _]];
    (split; [apply (valid_53 false _ _ V) |]); lia.
Qed.
End Window.

Section Score.
Local Open Scope float_scope.

Lemma bonus_checked :
  forallb bonusCheck (map Z.of_nat (seq 0 51)) = true.
Proof. vm_compute. reflexivity. Qed.

Lemma add_100 (k : Z) :
  (0 <= k <= 50)%Z -> 100 + ofZ k = ofZ (100 + k).
Proof.
  intros H. pose proof bonus_checked as C.
  rewrite forallb_forall in C.
  apply FloatAxioms.Leibniz.eqb_spec. apply C.
  apply in_map_iff. exists (Z.to_nat k). split; [lia|].
  apply in_seq. lia.
Qed.

(** In the decay window the score is 100 and the whole part of the
    bonus. *)
Lemma calculateScore_window (t : float) :
  inDecayWindow t ->
  exists k, calculateScore true t = ofZ (100 + k) /\ (0 <= k <= 50)%Z
            /\ (IZR k <= SF2R (bonusSF (Prim2SF t)) < IZR k + 1)%R.
Proof.
  intros W. pose proof (window_Prim2SF t W) as WS. destruct W as [H1 H2].
  unfold calculateScore. cbv beta iota zeta delta [negb].
  rewrite H1, H2.
  set (x := 50 * (1 - (t - 5000) / 5000)).
  assert (X : Prim2SF x = bonusSF (Prim2SF t)).
  { unfold x, bonusSF.
    rewrite mul_spec, sub_spec, div_spec, sub_spec. reflexivity. }
  destruct (bonus_range _ WS) as [N U]. rewrite <- X in N, U.
  destruct (floor_spec _ _ x N U) as (k & F & C). rewrite F.
  pose proof (SF2R_nonneg _ _ _ N) as P.
  assert (K : (0 <= k <= 50)%Z).
  { split.
    - apply Z.lt_succ_r. apply lt_IZR. rewrite succ_IZR. lra.
    - apply le_IZR. lra. }
  exists k. rewrite <- X. rewrite add_100 by exact K. tauto.
Qed.

(** The score of a correct answer is a whole number from 100 to 150,
    whatever binary64 value the response time is. *)
Lemma calculateScore_whole (t : float) :
  exists k, calculateScore true t = ofZ k /\ (100 <= k <= 150)%Z.
Proof.
  destruct (t <? 5000) eqn:H1.
  - exists 150%Z. split; [apply calculateScore_fast, H1 | lia].
  - destruct (t <? 10000) eqn:H2.
    + destruct (calculateScore_window t (conj H1 H2)) as (k & E & K & _).
      exists (100 + k)%Z. split; [exact E | lia].
    + exists 100%Z. split; [apply calculateScore_slow; assumption | lia].
Qed.

(** A slower correct answer never scores more than a faster one,
    whatever binary64 values the response times are. *)
Lemma calculateScore_slower (t1 t2 : float) :
  (t1 <=? t2) = true ->
  (calculateScore true t2 <=? calculateScore true t1) = true.
Proof.
  intros L.
  assert (ofZ_le : forall k2 k1, (100 <= k2 <= 150)%Z ->
            (100 <= k1 <= 150)%Z -> (k2 <= k1)%Z ->
            (ofZ k2 <=? ofZ k1) = true).
  { intros k2 k1 B2 B1 K. rewrite leb_ofZ by (apply safe_small; lia).
    apply Z.leb_le, K. }
  destruct (t1 <? 5000) eqn:A1.
  { rewrite (calculateScore_fast t1 A1).
    destruct (calculateScore_whole t2) as (k2 & -> & B2).
    apply ofZ_le; lia. }
  assert (A2 : (t2 <? 5000) = false).
  { destruct (t2 <? 5000) eqn:A2; [|reflexivity].
    rewrite (leb_ltb_trans t1 t2 5000 L A2) in A1. discriminate. }
  destruct (t2 <? 10000) eqn:W2.
  - assert (W1 : (t1 <? 10000) = true)
      by exact (leb_ltb_trans t1 t2 10000 L W2).
    destruct (calculateScore_window t1 (conj A1 W1)) as (k1 & -> & K1 & C1).
    destruct (calculateScore_window t2 (conj A2 W2)) as (k2 & -> & K2 & C2).
    apply ofZ_le; try lia.
    assert (k2 <= k1)%Z; [|lia].
    apply (floor_le k2 k1 _ _ C2 C1).
    apply bonus_antitone.
    + apply window_Prim2SF. split; assumption.
    + apply window_Prim2SF. split; assumption.
    + rewrite <- leb_spec. exact L.
  - rewrite (calculateScore_slow t2 A2 W2).
    destruct (calculateScore_whole t1) as (k1 & -> & B1).
    apply ofZ_le; lia.
Qed.
End Score.

(** ** Whole numbers in binary64: exact sums, and the quotient by 60 *)

Section WholeNumbers.

Lemma SFleb_antisym lo1 hi1 lo2 hi2 f g :
  nonneg53 lo1 hi1 f -> nonneg53 lo2 hi2 g ->
  SFleb f g = true -> SFleb g f = true -> f = g.
Proof.
  destruct f as [[|]|[|]| |[|] m1 e1]; try contradiction;
    destruct g as [[|]|[|]| |[|] m2 e2]; try contradiction;
    intros _ _; try reflexivity; try discriminate.
  unfold SFleb, SFcompare.
  destruct (Z.compare_spec e1 e2) as [E|E|E];
    destruct (Z.compare_spec e2 e1) as [E'|E'|E']; try lia;
    try discriminate.
  subst e2.
  change (Pos.compare_cont Eq m1 m2) with (m1 ?= m2)%positive.
  change (Pos.compare_cont Eq m2 m1) with (m2 ?= m1)%positive.
  destruct (Pos.compare_spec m1 m2) as [M|M|M];
    destruct (Pos.compare_spec m2 m1) as [M'|M'|M']; try lia;
    try discriminate.
  subst m2. reflexivity.
Qed.

(** A value has one rounding. *)
Lemma rounds_to_unique lo1 hi1 lo2 hi2 x f g :
  -1074 <= lo1 -> hi1 + 1 <= 971 -> -1074 <= lo2 -> hi2 + 1 <= 971 ->
  rounds_to lo1 hi1 x f -> rounds_to lo2 hi2 x g -> f = g.
Proof.
  intros L1 H1 L2 H2 F G.
  apply (SFleb_antisym lo1 (hi1 + 1) lo2 (hi2 + 1)).
  - apply (rounds_to_nonneg53 lo1 hi1 x); assumption.
  - apply (rounds_to_nonneg53 lo2 hi2 x); assumption.
  - apply (rounds_to_mono lo1 hi1 lo2 hi2 x x); try assumption.
    apply Rle_refl.
  - apply (rounds_to_mono lo2 hi2 lo1 hi1 x x); try assumption.
    apply Rle_refl.
Qed.

Lemma canon_nonneg53 (z : Z) :
  0 <= z < 2 ^ 53 -> nonneg53 (-52) 0 (canon z).
Proof.
  intros [L U]. destruct z as [|p|p]; try lia; simpl; [exact I|].
  pose proof (canonM_digits p U) as D.
  pose proof (digits2_pos_bounds (canonM p)) as B. rewrite D in B.
  pose proof (safe_digits p U).
  assert (0 < Zpos (digits2_pos p)) by lia.
  unfold canonE. split; [exact B | lia].
Qed.

Lemma SF2R_canon (z : Z) : 0 <= z < 2 ^ 53 -> SF2R (canon z) = IZR z.
Proof.
  intros [L U]. destruct z as [|p|p]; try lia; simpl; [reflexivity|].
  rewrite (canonM_value p U). unfold canonE.
  pose proof (safe_digits p U).
  replace (Zpos (digits2_pos p) - 53)
    with (0 - (53 - Zpos (digits2_pos p))) by lia.
  rewrite F2R_shift by lia. unfold F2R. rewrite bpow_0. lra.
Qed.

(** Rounding does not look at the sign. *)
Lemma binary_round_sign (p : positive) (e : Z) :
  binary_round prec emax true p e
  = SFopp (binary_round prec emax false p e).
Proof.
  unfold binary_round.
  destruct (shl_align p e (fexp prec emax (Zpos (digits2_pos p) + e)))
    as [mz ez].
  unfold binary_round_aux.
  destruct (shr_fexp prec emax (Zpos mz) ez loc_Exact) as [mrs' e'].
  destruct (shr_fexp prec emax
              (round_nearest_even (shr_m mrs') (loc_of_shr_record mrs'))
              e' loc_Exact) as [mrs'' e''].
  destruct (shr_m mrs''); [reflexivity | | reflexivity].
  destruct (e'' <=? emax - prec); reflexivity.
Qed.

(** A whole number below 2^53, however long the mantissa it is written
    with, is rounded to itself. *)
Lemma binary_round_whole (z : Z) (p : positive) (e : Z) :
  0 < z < 2 ^ 53 -> -52 <= e <= 0 -> Zpos p = z * 2 ^ (- e) ->
  binary_round prec emax false p e = canon z.
Proof.
  intros Z E P.
  apply (rounds_to_unique (-200) 100 (-52) 0 (IZR z)); try lia.
  - replace (IZR z) with (F2R (Zpos p) e).
    + apply binary_round_rounds; [lia|].
      assert (K : 0 < 2 ^ (- e)) by (apply Z.pow_pos_nonneg; lia).
      assert (U : Zpos p < 2 ^ (53 + - e)).
      { rewrite Z.pow_add_r, P by lia.
        apply Z.mul_lt_mono_pos_r; lia. }
      pose proof (digits_le p _ U).
      assert (0 < Zpos (digits2_pos p)) by lia. lia.
    + rewrite P. replace e with (0 - - e) at 2 by lia.
      rewrite F2R_shift by lia. unfold F2R. rewrite bpow_0. lra.
  - rewrite <- (SF2R_canon z) by lia.
    apply rounds_to_self; try lia. apply canon_nonneg53. lia.
Qed.

(** The mantissa of a whole number, shifted to the exponent [ez]. *)
Lemma canon_aligned (p : positive) (ez : Z) :
  Zpos p < 2 ^ 53 -> ez <= canonE p ->
  Zpos (fst (shl_align (canonM p) (canonE p) ez))
  = Zpos p * 2 ^ (- ez).
Proof.
  intros U L. rewrite shl_align_value by exact L.
  rewrite (canonM_value p U). unfold canonE in *.
  pose proof (safe_digits p U).
  rewrite <- Z.mul_assoc, <- Z.pow_add_r by lia.
  f_equal. f_equal. lia.
Qed.

Lemma SFadd_finite (sa sb : bool) (pa pb : positive) :
  Zpos pa < 2 ^ 53 -> Zpos pb < 2 ^ 53 ->
  safe (cond_Zopp sa (Zpos pa) + cond_Zopp sb (Zpos pb)) ->
  SFadd prec emax (S754_finite sa (canonM pa) (canonE pa))
    (S754_finite sb (canonM pb) (canonE pb))
  = canon (cond_Zopp sa (Zpos pa) + cond_Zopp sb (Zpos pb)).
Proof.
  intros A B S. unfold SFadd. set (ez := Z.min (canonE pa) (canonE pb)).
  rewrite !canon_aligned by (try assumption; unfold ez; lia).
  pose proof (safe_digits pa A). pose proof (safe_digits pb B).
  assert (0 < Zpos (digits2_pos pa)) by lia.
  assert (0 < Zpos (digits2_pos pb)) by lia.
  assert (E : -52 <= ez <= 0) by (unfold ez, canonE; lia).
  set (K := 2 ^ (- ez)).
  assert (PK : 0 < K) by (apply Z.pow_pos_nonneg; lia).
  replace (cond_Zopp sa (Zpos pa * K) + cond_Zopp sb (Zpos pb * K))
    with ((cond_Zopp sa (Zpos pa) + cond_Zopp sb (Zpos pb)) * K)
    by (destruct sa, sb; cbv [cond_Zopp]; ring).
  unfold safe in S.
  destruct (cond_Zopp sa (Zpos pa) + cond_Zopp sb (Zpos pb))
    as [|z|z]; unfold binary_normalize.
  - reflexivity.
  - destruct (Zpos z * K) as [|p|p] eqn:P; try lia.
    apply binary_round_whole; [lia | exact E | symmetry; exact P].
  - destruct (Zneg z * K) as [|p|p] eqn:P; try lia.
    rewrite binary_round_sign.
    rewrite (binary_round_whole (Zpos z) p ez);
      [reflexivity | lia | exact E | fold K; lia].
Qed.

(** The sum of two whole numbers is exact as long as it stays below 2^53
    in absolute value. *)
Lemma SFadd_whole (a b : Z) :
  safe a -> safe b -> safe (a + b) ->
  SFadd prec emax (canon a) (canon b) = canon (a + b).
Proof.
  intros A B S.
  destruct a as [|pa|pa]; [destruct b; reflexivity | |];
    (destruct b as [|pb|pb]; [rewrite Z.add_0_r; reflexivity | |]);
    unfold safe in A, B.
  - apply (SFadd_finite false false); try lia. exact S.
  - apply (SFadd_finite false true); try lia. exact S.
  - apply (SFadd_finite true false); try lia. exact S.
  - apply (SFadd_finite true true); try lia. exact S.
Qed.

Lemma Prim2SF_inj (x y : float) : Prim2SF x = Prim2SF y -> x = y.
Proof.
  intros E. rewrite <- (SF2Prim_Prim2SF x), <- (SF2Prim_Prim2SF y), E.
  reflexivity.
Qed.

(** [a + b] on the floats of two whole numbers. *)
Lemma plus_whole (a b : Z) :
  safe a -> safe b -> safe (a + b) ->
  (ofZ a + ofZ b)%float = ofZ (a + b).
Proof.
  intros A B S. apply Prim2SF_inj.
  rewrite add_spec, !Prim2SF_ofZ by assumption.
  apply SFadd_whole; assumption.
Qed.
End WholeNumbers.

Section Minutes.

Lemma Prim2SF_60 : Prim2SF 60 = S754_finite false 8444249301319680 (-47).
Proof. vm_compute. reflexivity. Qed.

(** The whole number of the float of a whole number is the number. *)
Lemma whole_ofZ (z : Z) : safe z -> whole (ofZ z) = z.
Proof.
  intros S. unfold whole. rewrite (Prim2SF_ofZ z S).
  assert (P : forall p, Zpos p < 2 ^ 53 ->
              (if 0 <=? canonE p then Zpos (canonM p) * 2 ^ canonE p
               else Z.shiftr (Zpos (canonM p)) (- canonE p)) = Zpos p).
  { intros p U. rewrite (canonM_value p U). unfold canonE.
    pose proof (safe_digits p U) as D.
    destruct (Z.leb_spec 0 (Zpos (digits2_pos p) - 53)) as [C|C].
    - replace (Zpos (digits2_pos p)) with 53 by lia. simpl. lia.
    - rewrite Z.shiftr_div_pow2 by lia.
      replace (- (Zpos (digits2_pos p) - 53))
        with (53 - Zpos (digits2_pos p)) by lia.
      apply Z.div_mul. apply Z.pow_nonzero; lia. }
  unfold safe in S. destruct z as [|p|p]; simpl.
  - reflexivity.
  - apply P. lia.
  - rewrite P by lia. reflexivity.
Qed.

(** [Math.floor(seconds / 60)] on the floats is the whole quotient: the
    rounding of the division does not reach the next whole number. *)
Lemma floor_quotient (seconds : Z) :
  60 <= seconds < 2 ^ 52 ->
  floor (ofZ seconds / 60) = ofZ (seconds / 60).
Proof.
  intros [L U].
  set (q := seconds / 60).
  assert (DM : 60 * q <= seconds <= 60 * q + 59)
    by (unfold q; Z.div_mod_to_equations; lia).
  assert (Q : 1 <= q < 2 ^ 47) by lia.
  set (x := (ofZ seconds / 60)%float).
  assert (X : Prim2SF x = SFdiv prec emax (canon seconds) (Prim2SF 60)).
  { unfold x. rewrite div_spec, Prim2SF_ofZ by (unfold safe; lia).
    reflexivity. }
  assert (N60 : nonneg53 (-52) 0 (Prim2SF 60)).
  { rewrite Prim2SF_60. apply nonneg53_literal; vm_compute; reflexivity. }
  assert (V60 : SF2R (Prim2SF 60) = 60%R).
  { rewrite Prim2SF_60. apply (SF2R_literal 60 47); [lia | reflexivity]. }
  assert (R : rounds_to (-105) 0 (IZR seconds / 60) (Prim2SF x)).
  { rewrite X, <- (SF2R_canon seconds), <- V60 by lia.
    apply (SFdiv_rounds (-52) 0); try lia; try assumption.
    - apply canon_nonneg53. lia.
    - rewrite V60. lra. }
  (* from below: the whole quotient *)
  assert (RQ : rounds_to (-52) 0 (IZR q) (canon q)).
  { rewrite <- (SF2R_canon q) by lia.
    apply rounds_to_self; try lia. apply canon_nonneg53. lia. }
  assert (S1 : (IZR (60 * q) <= IZR seconds)%R) by (apply IZR_le; lia).
  assert (S2 : (IZR seconds <= IZR (60 * q + 59))%R)
    by (apply IZR_le; lia).
  rewrite plus_IZR in S2. rewrite mult_IZR in S1, S2.
  assert (Lo : (IZR q <= SF2R (Prim2SF x))%R).
  { rewrite <- (SF2R_canon q) by lia.
    apply (rounds_to_le (-52) 0 (-105) 0 (IZR q) (IZR seconds / 60));
      try lia; try assumption. lra. }
  (* from above: the quotient and 63/64, which binary64 holds *)
  set (p := Z.to_pos (64 * q + 63)).
  assert (P : Zpos p = 64 * q + 63) by (unfold p; lia).
  assert (PU : Zpos p < 2 ^ 53) by lia.
  set (y := S754_finite false (canonM p) (canonE p - 6)).
  assert (NY : nonneg53 (-58) (-6) y).
  { pose proof (canon_nonneg53 (Zpos p) ltac:(lia)) as [B E].
    unfold y. simpl. split; [exact B | lia]. }
  assert (VY : SF2R y = (IZR q + 63 / 64)%R).
  { pose proof (SF2R_canon (Zpos p) ltac:(lia)) as V.
    change (SF2R (canon (Zpos p)))
      with (F2R (Zpos (canonM p)) (canonE p)) in V.
    change (SF2R y) with (F2R (Zpos (canonM p)) (canonE p - 6)).
    unfold F2R in *.
    replace (canonE p - 6) with (canonE p + (-6)) by lia.
    rewrite bpow_add, <- Rmult_assoc, V, P.
    rewrite plus_IZR, mult_IZR.
    replace (bpow (-6)) with (/ 64)%R; [lra|].
    unfold bpow. simpl. lra. }
  assert (Hi : (SF2R (Prim2SF x) <= IZR q + 63 / 64)%R).
  { rewrite <- VY.
    apply (rounds_to_le (-105) 0 (-58) (-6) (IZR seconds / 60) (SF2R y));
      try lia; try assumption.
    - apply rounds_to_self; try lia. exact NY.
    - rewrite VY. lra. }
  pose proof (rounds_to_nonneg53 (-105) 0 _ _ ltac:(lia) ltac:(lia) R)
    as N.
  assert (Q1 : (1 <= IZR q)%R) by (apply IZR_le; lia).
  assert (Q2 : (IZR q < IZR (2 ^ 47))%R) by (apply IZR_lt; lia).
  unfold floor. fold x.
  destruct (Prim2SF x) as [[|]|[|]| |[|] m e] eqn:E; try contradiction.
  - simpl in Lo. lra.
  - destruct N as [[M0 M1] _]. simpl in Lo, Hi.
    destruct (Z.leb_spec 0 e) as [C|C].
    + exfalso. pose proof (bpow_le 0 e C) as B. rewrite bpow_0 in B.
      assert (IZR (2 ^ 52) <= IZR (Zpos m))%R by (apply IZR_le; exact M0).
      assert (IZR (2 ^ 47) + 1 <= IZR (2 ^ 52))%R
        by (rewrite <- plus_IZR; apply IZR_le; lia).
      unfold F2R in Hi.
      assert (IZR (Zpos m) * 1 <= IZR (Zpos m) * bpow e)%R
        by (apply Rmult_le_compat_l; lra).
      lra.
    + simpl cond_Zopp. f_equal. pose proof (floor_cell m e C) as K.
      assert (K' : (IZR q <= F2R (Zpos m) e < IZR q + 1)%R) by lra.
      apply Z.le_antisymm.
      * apply (floor_le _ _ _ _ K K'). apply Rle_refl.
      * apply (floor_le _ _ _ _ K' K). apply Rle_refl.
Qed.
End Minutes.

(** ** The scoring function: the claims *)

Section Claims.
Local Open Scope float_scope.

(** C9: for every input the score is a whole number from 0 to 150, at
    least 100 for a correct answer, and a slower correct answer never
    scores more than a faster one.  The response times are any binary64
    values: whole or not, negative, infinite or NaN. *)
Theorem calculateScore_range_antitone
  (isCorrect : bool) (t1 t2 : float) :
  (exists k, calculateScore isCorrect t1 = ofZ k /\ (0 <= k <= 150)%Z
             /\ (isCorrect = true -> (100 <= k)%Z))
  /\ ((t1 <=? t2) = true ->
      (calculateScore true t2 <=? calculateScore true t1) = true).
Proof.
  split.
  - destruct isCorrect.
    + destruct (calculateScore_whole t1) as (k & E & B).
      exists k. repeat split; try assumption; lia.
    + exists 0%Z. repeat split; try lia; try discriminate.
  - apply calculateScore_slower.
Qed.

Lemma calculateScore_range_antitone_witness :
  (exists k, calculateScore true 6700.5 = ofZ k /\ (0 <= k <= 150)%Z
             /\ (true = true -> (100 <= k)%Z))
  /\ ((6700.5 <=? 7500.25) = true ->
      (calculateScore true 7500.25 <=? calculateScore true 6700.5)
      = true).
Proof.
  exact (calculateScore_range_antitone true 6700.5 7500.25).
Defined.

(** C8: an incorrect answer scores 0, whatever the response time. *)
Theorem calculateScore_incorrect (t : float) : calculateScore false t = 0.
Proof. reflexivity. Qed.

(** C4: a negative response time scores what a response time of 0
    scores. *)
Theorem calculateScore_negative (t : float) :
  (t <? 0) = true -> calculateScore true t = calculateScore true 0.
Proof.
  intros H.
  assert (F : (0 <? 5000) = true) by (vm_compute; reflexivity).
  assert (L : (t <=? 0) = true).
  { revert H. rewrite ltb_spec, leb_spec. unfold SFltb, SFleb.
    destruct (SFcompare (Prim2SF t) (Prim2SF 0)) as [[ | | ]|]; congruence. }
  rewrite (calculateScore_fast t (leb_ltb_trans t 0 5000 L F)).
  rewrite (calculateScore_fast 0 F). reflexivity.
Qed.

Lemma calculateScore_negative_witness :
  calculateScore true (-250) = calculateScore true 0.
Proof.
  apply (calculateScore_negative (-250)). vm_compute. reflexivity.
Defined.

(** C1, as amended: the sample points of the scoring function, that at
    5000 ms being 150: the decaying bonus starts from its full 50
    points. *)
Theorem calculateScore_samples :
  calculateScore true 4999 = 150 /\ calculateScore true 5000 = 150
  /\ calculateScore true 7500 = 125 /\ calculateScore true 10000 = 100.
Proof. repeat split; vm_compute; reflexivity. Qed.

(** Against C1 as stated: at 5000 ms the score is 150, which is not
    100. *)
Lemma calculateScore_5000_is_150 :
  calculateScore true 5000 = 150
  /\ (calculateScore true 5000 =? 100) = false.
Proof. split; vm_compute; reflexivity. Qed.

(** The rounding of the binary64 operations shows in the decay: after
    6700 ms the bonus is 32, where exact arithmetic gives 33. *)
Example calculateScore_6700 : calculateScore true 6700 = 132.
Proof. vm_compute. reflexivity. Qed.

(** A response time need not be whole. *)
Example calculateScore_6700_5 : calculateScore true 6700.5 = 132.
Proof. vm_compute. reflexivity. Qed.
End Claims.

(** ** The store: what each call does to participants and answers *)

Section DeleteAll.
Context {V : Type}.
Implicit Types (m : JSMap.t V) (k : Z) (v : V).

Lemma deleteAll_app ks1 ks2 m :
  JSMap.deleteAll (ks1 ++ ks2) m = JSMap.deleteAll ks2 (JSMap.deleteAll ks1 m).
Proof. apply fold_left_app. Qed.

Lemma get_deleteAll ks k v m :
  JSMap.get k (JSMap.deleteAll ks m) = Some v -> JSMap.get k m = Some v.
Proof.
  revert m. induction ks as [|k0 ks IH]; intros m; simpl; [tauto|].
  intros H. apply IH in H. rewrite get_delete in H.
  destruct (k0 =? k); [discriminate | exact H].
Qed.

Lemma ascending_deleteAll next ks m :
  JSMap.ascending next m -> JSMap.ascending next (JSMap.deleteAll ks m).
Proof.
  revert m. induction ks as [|k0 ks IH]; intros m A; simpl; [exact A|].
  apply IH, ascending_delete, A.
Qed.
End DeleteAll.

Module Import StoreFacts.
Import MemStorage.

Ltac unfold_store :=
  unfold createAdmin, createQuiz, updateQuiz, createQuestion,
    updateQuestion, createParticipant, updateParticipant, createAnswer,
    deleteAnswerById, getAdmin, getQuiz, getQuestion, getParticipant,
    getAnswer, getQuizByCode, getParticipantsByQuiz, getAnswersByQuestion,
    getAnswersByParticipant, getQuestionsByQuiz, getLeaderboard,
    bind, ret, read, setAdmins, setQuizzes, setQuestions, setParticipants,
    setAnswers, withAdmins, withQuizzes, withQuestions, withParticipants,
    withAnswers, nextAdminId, nextQuizId, nextQuestionId,
    nextParticipantId, nextAnswerId in *;
  simpl in *.

Lemma shrunk_refl st : shrunk st st.
Proof. repeat split; exists []; reflexivity. Qed.

Lemma shrunk_trans st1 st2 st3 :
  shrunk st1 st2 -> shrunk st2 st3 -> shrunk st1 st3.
Proof.
  intros (P1 & A1 & [kp1 E1] & [ka1 F1]) (P2 & A2 & [kp2 E2] & [ka2 F2]).
  repeat split; try congruence.
  - exists (kp1 ++ kp2). rewrite deleteAll_app, <- E1. exact E2.
  - exists (ka1 ++ ka2). rewrite deleteAll_app, <- F1. exact F2.
Qed.

Lemma forEach_shrunk {A} (xs : list A) (body : A -> M unit) :
  (forall x st, shrunk st (snd (body x st))) ->
  forall st, shrunk st (snd (forEach xs body st)).
Proof.
  intros B. induction xs as [|x xs IH]; intros st; simpl.
  - apply shrunk_refl.
  - unfold bind. specialize (B x st). destruct (body x st) as [u st1].
    eapply shrunk_trans; [exact B | apply IH].
Qed.

Lemma deleteAnswerById_shrunk id st : shrunk st (snd (deleteAnswerById id st)).
Proof.
  unfold_store. repeat split; [exists [] | exists [id]]; reflexivity.
Qed.

Lemma deleteQuestion_shrunk id st : shrunk st (snd (deleteQuestion id st)).
Proof.
  unfold deleteQuestion, bind at 1 2.
  destruct (getAnswersByQuestion id st) as [l st0] eqn:E0.
  assert (st0 = st) by (unfold_store; congruence). subst st0.
  pose proof (forEach_shrunk l
    (fun answer => deleteAnswerById (Answer.id answer))
    (fun x s => deleteAnswerById_shrunk _ s) st) as S.
  destruct (forEach l _ st) as [u st1]. simpl in S.
  eapply shrunk_trans; [exact S|]. unfold_store.
  repeat split; exists []; reflexivity.
Qed.

Lemma deleteQuiz_shrunk id st : shrunk st (snd (deleteQuiz id st)).
Proof.
  unfold deleteQuiz, bind at 1 2.
  destruct (getQuestionsByQuiz id st) as [qs st0] eqn:E0.
  assert (st0 = st) by (unfold_store; congruence). subst st0.
  assert (S1 : shrunk st (snd (forEach qs (fun question =>
             deleteQuestion (Question.id question) ;; ret tt)%storage st))).
  { apply forEach_shrunk. intros x s. unfold bind, ret.
    pose proof (deleteQuestion_shrunk (Question.id x) s) as D.
    destruct (deleteQuestion (Question.id x) s). exact D. }
  destruct (forEach qs _ st) as [u st1]. simpl in S1.
  unfold bind at 1.
  destruct (getParticipantsByQuiz id st1) as [ps st0] eqn:E1.
  assert (st0 = st1) by (unfold_store; congruence). subst st0.
  unfold bind at 1.
  match goal with |- context [forEach ps ?b st1] =>
    assert (S2 : shrunk st1 (snd (forEach ps b st1))) end.
  { apply forEach_shrunk. intros x s. unfold bind at 1 2.
    destruct (getAnswersByParticipant (Participant.id x) s) as [l s0] eqn:E2.
    assert (s0 = s) by (unfold_store; congruence). subst s0.
    pose proof (forEach_shrunk l
      (fun answer => deleteAnswerById (Answer.id answer))
      (fun x s => deleteAnswerById_shrunk _ s) s) as S.
    destruct (forEach l _ s) as [u' s1]. simpl in S.
    eapply shrunk_trans; [exact S|]. unfold_store.
    repeat split; [exists [Participant.id x] | exists []]; reflexivity. }
  destruct (forEach ps _ st1) as [u2 st2]. simpl in S2.
  eapply shrunk_trans; [exact S1|]. eapply shrunk_trans; [exact S2|].
  unfold_store. repeat split; exists []; reflexivity.
Qed.
End StoreFacts.

Section StoreSteps.
Import MemStorage.

(** What [updateParticipant] leaves. *)
Lemma updateParticipant_eq id participant st :
  updateParticipant id participant st =
  match JSMap.get id (participants st) with
  | Some existing =>
      (Some (spreadParticipant existing participant),
       withParticipants
         (JSMap.set id (spreadParticipant existing participant)
                    (participants st)) st)
  | None => (None, st)
  end.
Proof.
  unfold updateParticipant, bind, read, ret, setParticipants.
  destruct (JSMap.get id (participants st)); reflexivity.
Qed.

(** What [createAnswer] leaves: the answer under the next answer id, and
    the score of the participant it names raised by the answer's score. *)
Lemma createAnswer_eq answer st :
  createAnswer answer st =
  (newAnswerOf answer st,
   let st1 :=
     mk (admins st) (quizzes st) (questions st) (participants st)
        (JSMap.set (answerId st) (newAnswerOf answer st) (answers st))
        (adminId st) (quizId st) (questionId st) (participantId st)
        (answerId st + 1) in
   match JSMap.get (InsertAnswer.participantId answer) (participants st) with
   | Some participant =>
       snd (updateParticipant (Participant.id participant)
              (scorePatch (Participant.score participant
                           + InsertAnswer.score answer)) st1)
   | None => st1
   end).
Proof.
  unfold createAnswer, bind, read, ret, setAnswers, nextAnswerId,
    getParticipant, withAnswers, newAnswerOf, scorePatch. simpl.
  destruct (JSMap.get (InsertAnswer.participantId answer) (participants st))
    as [p|]; [|reflexivity].
  match goal with |- context [updateParticipant ?i ?q ?s] =>
    destruct (updateParticipant i q s) end.
  reflexivity.
Qed.

Lemma createParticipant_eq participant now st :
  createParticipant participant now st =
  (let newParticipant :=
     Participant.mk (participantId st)
       (InsertParticipant.quizId participant)
       (InsertParticipant.alias participant)
       (nullish (InsertParticipant.score participant) 0) now in
   (newParticipant,
    mk (admins st) (quizzes st) (questions st)
       (JSMap.set (participantId st) newParticipant (participants st))
       (answers st) (adminId st) (quizId st) (questionId st)
       (participantId st + 1) (answerId st))).
Proof. reflexivity. Qed.

Lemma bystander_shrunk c st : bystander c -> shrunk st (run c st).
Proof.
  destruct c; simpl; try contradiction; intros _.
  - unfold_store. repeat split; exists []; reflexivity.
  - unfold_store. repeat split; exists []; reflexivity.
  - unfold updateQuiz, bind, read.
    destruct (JSMap.get id (quizzes st)); unfold_store;
      repeat split; exists []; reflexivity.
  - unfold_store. repeat split; exists []; reflexivity.
  - unfold updateQuestion, bind, read.
    destruct (JSMap.get id (questions st)); unfold_store;
      repeat split; exists []; reflexivity.
Qed.

(** Every call either only deletes, as far as participants and answers go,
    or is one of the three that write them. *)
Lemma run_shrunk c st :
  match c with
  | CreateParticipant _ _ | UpdateParticipant _ _ | CreateAnswer _ => True
  | _ => shrunk st (run c st)
  end.
Proof.
  destruct c; try exact I; try (apply bystander_shrunk; exact I).
  - apply deleteQuiz_shrunk.
  - apply deleteQuestion_shrunk.
Qed.

Lemma wf_shrunk st st' : shrunk st st' -> wf st -> wf st'.
Proof.
  intros (P & A & [kp EP] & [ka EA]) [WP WA]. unfold wf.
  rewrite P, A, EP, EA. split; apply ascending_deleteAll; assumption.
Qed.

Lemma wf_updateParticipant id participant st :
  wf st -> wf (snd (updateParticipant id participant st)).
Proof.
  intros [WP WA]. rewrite updateParticipant_eq.
  destruct (JSMap.get id (participants st)) as [e|] eqn:G; simpl;
    [|split; assumption].
  split; [|exact WA]. simpl. eapply ascending_set_present; eassumption.
Qed.

Lemma wf_run c st : wf st -> wf (run c st).
Proof.
  intros W. pose proof (run_shrunk c st) as S.
  destruct c; try (eapply wf_shrunk; eassumption); unfold run.
  - rewrite createParticipant_eq. destruct W as [WP WA]. split; simpl.
    + apply ascending_set_next, WP.
    + exact WA.
  - apply wf_updateParticipant, W.
  - rewrite createAnswer_eq. simpl.
    match goal with
    | |- wf (match _ with
             | Some p => snd (updateParticipant ?i ?q ?s)
             | None => _
             end) => assert (W1 : wf s)
    end.
    { destruct W as [WP WA]. split; simpl; [exact WP|].
      apply ascending_set_next, WA. }
    destruct (JSMap.get _ (participants st)); [|exact W1].
    apply wf_updateParticipant, W1.
Qed.

Lemma wf_empty : wf empty.
Proof. split; apply ascending_empty. Qed.

Lemma reachable_wf st : reachable st -> wf st.
Proof.
  induction 1 as [|c st R IH]; [apply wf_empty | apply wf_run, IH].
Qed.

Lemma reachable_runs cs st : reachable st -> reachable (runs cs st).
Proof.
  revert st. induction cs as [|c cs IH]; intros st R; simpl; [exact R|].
  apply IH. constructor. exact R.
Qed.
End StoreSteps.

Section Scores.
Import MemStorage.

Lemma get_shrunk st st' k p :
  shrunk st st' -> JSMap.get k (participants st') = Some p ->
  JSMap.get k (participants st) = Some p.
Proof.
  intros (_ & _ & [kp EP] & _). rewrite EP. apply get_deleteAll.
Qed.

Lemma present_below_counter st k p :
  wf st -> JSMap.get k (participants st) = Some p -> k < participantId st.
Proof.
  intros [[_ F] _] G. rewrite Forall_forall in F. apply F.
  apply get_Some_In in G. change k with (fst (k, p)). apply in_map, G.
Qed.

(** What the three writing calls leave in [participants]. *)
Lemma participants_updateParticipant id participant st :
  participants (snd (updateParticipant id participant st)) =
  match JSMap.get id (participants st) with
  | Some existing =>
      JSMap.set id (spreadParticipant existing participant) (participants st)
  | None => participants st
  end.
Proof.
  rewrite updateParticipant_eq.
  destruct (JSMap.get id (participants st)); reflexivity.
Qed.

Lemma participants_createAnswer answer st :
  participants (snd (createAnswer answer st)) =
  match JSMap.get (InsertAnswer.participantId answer) (participants st) with
  | Some participant =>
      match JSMap.get (Participant.id participant) (participants st) with
      | Some existing =>
          JSMap.set (Participant.id participant)
            (spreadParticipant existing
               (scorePatch (Participant.score participant
                            + InsertAnswer.score answer)))
            (participants st)
      | None => participants st
      end
  | None => participants st
  end.
Proof.
  rewrite createAnswer_eq. simpl.
  destruct (JSMap.get (InsertAnswer.participantId answer) (participants st));
    [|reflexivity].
  rewrite participants_updateParticipant. reflexivity.
Qed.

Lemma participantId_run c st : participantId st <= participantId (run c st).
Proof.
  pose proof (run_shrunk c st) as S.
  destruct c; try (destruct S as (E & _); rewrite E; lia); unfold run.
  - rewrite createParticipant_eq. simpl. lia.
  - rewrite updateParticipant_eq.
    destruct (JSMap.get id (participants st)); simpl; lia.
  - rewrite createAnswer_eq. simpl.
    destruct (JSMap.get _ (participants st)); simpl; [|lia].
    rewrite updateParticipant_eq. simpl.
    destruct (JSMap.get _ (participants st)); simpl; lia.
Qed.

Lemma idsOk_run c st : idsOk st -> scoreKeeping c -> idsOk (run c st).
Proof.
  intros I K. pose proof (run_shrunk c st) as S. unfold idsOk.
  destruct c; try (intros k p G; apply I; eapply get_shrunk; eassumption);
    unfold run; intros k p.
  - rewrite createParticipant_eq. simpl.
    destruct (Z.eq_dec k (participantId st)) as [->|N].
    + rewrite get_set_same. intros E. inversion E. reflexivity.
    + rewrite get_set_other by exact N. apply I.
  - rewrite participants_updateParticipant.
    destruct (JSMap.get id (participants st)) as [e|] eqn:G; [|apply I].
    destruct (Z.eq_dec k id) as [->|N].
    + rewrite get_set_same. intros E. inversion E. simpl.
      destruct K as [_ ->]. simpl. apply I, G.
    + rewrite get_set_other by exact N. apply I.
  - rewrite participants_createAnswer.
    destruct (JSMap.get (InsertAnswer.participantId answer)
                        (participants st)) as [p0|]; [|apply I].
    destruct (JSMap.get (Participant.id p0) (participants st)) as [e|] eqn:G;
      [|apply I].
    destruct (Z.eq_dec k (Participant.id p0)) as [->|N].
    + rewrite get_set_same. intros E. inversion E. simpl. apply I, G.
    + rewrite get_set_other by exact N. apply I.
Qed.

(** One call, one participant: the score does not go down. *)
Lemma score_run c st k p p' :
  wf st -> idsOk st -> scoreKeeping c ->
  JSMap.get k (participants st) = Some p ->
  JSMap.get k (participants (run c st)) = Some p' ->
  Participant.score p <= Participant.score p'.
Proof.
  intros W I K G. pose proof (run_shrunk c st) as S.
  destruct c;
    try (intros G'; apply (get_shrunk _ _ _ _ S) in G';
         assert (p' = p) by congruence; subst; lia);
    unfold run.
  - rewrite createParticipant_eq. simpl.
    pose proof (present_below_counter st k p W G).
    rewrite get_set_other by lia. intros G'.
    assert (p' = p) by congruence. subst. lia.
  - rewrite participants_updateParticipant.
    destruct (JSMap.get id (participants st)) as [e|] eqn:E.
    + destruct (Z.eq_dec k id) as [->|N].
      * rewrite get_set_same. intros G'. inversion G'. simpl.
        destruct K as [-> _]. simpl.
        assert (e = p) by congruence. subst. lia.
      * rewrite get_set_other by exact N. intros G'.
        assert (p' = p) by congruence. subst. lia.
    + intros G'. assert (p' = p) by congruence. subst. lia.
  - rewrite participants_createAnswer.
    destruct (JSMap.get (InsertAnswer.participantId answer)
                        (participants st)) as [p0|] eqn:E0.
    + rewrite (I _ _ E0), E0.
      destruct (Z.eq_dec k (InsertAnswer.participantId answer)) as [->|N].
      * rewrite get_set_same. intros G'. inversion G'. simpl.
        assert (p0 = p) by congruence. subst. simpl in K. lia.
      * rewrite get_set_other by exact N. intros G'.
        assert (p' = p) by congruence. subst. lia.
    + intros G'. assert (p' = p) by congruence. subst. lia.
Qed.

(** An id whose participant is gone is not handed out again. *)
Lemma gone_run c st k :
  k < participantId st -> JSMap.get k (participants st) = None ->
  JSMap.get k (participants (run c st)) = None.
Proof.
  intros B G. pose proof (run_shrunk c st) as S.
  destruct c;
    try (destruct (JSMap.get k (participants (run _ st))) eqn:G';
         [apply (get_shrunk _ _ _ _ S) in G'; congruence | reflexivity]);
    unfold run.
  - rewrite createParticipant_eq. simpl. rewrite get_set_other by lia.
    exact G.
  - rewrite participants_updateParticipant.
    destruct (JSMap.get id (participants st)) as [e|] eqn:E; [|exact G].
    rewrite get_set_other by congruence. exact G.
  - rewrite participants_createAnswer.
    destruct (JSMap.get (InsertAnswer.participantId answer)
                        (participants st)) as [p0|]; [|exact G].
    destruct (JSMap.get (Participant.id p0) (participants st)) eqn:E;
      [|exact G].
    rewrite get_set_other by congruence. exact G.
Qed.

Lemma gone_runs cs st k :
  k < participantId st -> JSMap.get k (participants st) = None ->
  JSMap.get k (participants (runs cs st)) = None.
Proof.
  revert st. induction cs as [|c cs IH]; intros st B G; simpl; [exact G|].
  apply IH; [|apply gone_run; assumption].
  pose proof (participantId_run c st). lia.
Qed.

Lemma scoreKeeping_runs cs st :
  wf st -> idsOk st -> Forall scoreKeeping cs ->
  wf (runs cs st) /\ idsOk (runs cs st).
Proof.
  revert st. induction cs as [|c cs IH]; intros st W I F; simpl.
  - split; assumption.
  - inversion F; subst. apply IH; [apply wf_run | apply idsOk_run |];
      assumption.
Qed.

Lemma score_runs cs st k p p' :
  wf st -> idsOk st -> Forall scoreKeeping cs ->
  JSMap.get k (participants st) = Some p ->
  JSMap.get k (participants (runs cs st)) = Some p' ->
  Participant.score p <= Participant.score p'.
Proof.
  revert st p. induction cs as [|c cs IH]; intros st p W I F G; simpl.
  - intros G'. assert (p' = p) by congruence. subst. lia.
  - inversion F as [|? ? K F']; subst. intros G'.
    destruct (JSMap.get k (participants (run c st))) as [p1|] eqn:G1.
    + pose proof (score_run c st k p p1 W I K G G1).
      pose proof (IH (run c st) p1 (wf_run c st W) (idsOk_run c st I K)
                    F' G1 G').
      lia.
    + pose proof (present_below_counter st k p W G).
      pose proof (participantId_run c st).
      rewrite (gone_runs cs (run c st) k) in G' by (try lia; exact G1).
      discriminate.
Qed.

Lemma idsOk_empty : idsOk empty.
Proof. intros k p G. discriminate G. Qed.
End Scores.

Section StoreClaims.
Import MemStorage InFlight.

Lemma reachable_bind {A B} (c : M A) (k : A -> M B) st :
  reachable (snd (c st)) ->
  (forall a st', reachable st' -> reachable (snd (k a st'))) ->
  reachable (snd ((x <- c ;; k x)%storage st)).
Proof.
  intros R K. unfold bind. destruct (c st) as [a st']. apply K, R.
Qed.

Lemma reachable_constructed now : reachable (constructed now).
Proof.
  unfold constructed.
  apply reachable_bind;
    [exact (reachable_run (CreateAdmin _) _ reachable_empty)|].
  intros _ st1 R1. apply reachable_bind;
    [exact (reachable_run (CreateQuiz _ _) _ R1)|].
  intros quiz st2 R2. apply reachable_bind;
    [exact (reachable_run (CreateQuestion _) _ R2)|].
  intros _ st3 R3. exact (reachable_run (CreateQuestion _) _ R3).
Qed.

Lemma reachable_joined : reachable Sample.joined.
Proof. apply reachable_run, reachable_constructed. Qed.

(** *** The answers of one participant to one question *)

Lemma answersFor_createAnswer p q answer st :
  wf st ->
  answersFor p q (snd (createAnswer answer st)) =
  answersFor p q st
  ++ (if isFor p q answer then [newAnswerOf answer st] else []).
Proof.
  intros [_ WA].
  assert (E : answers (snd (createAnswer answer st)) =
              answers st ++ [(answerId st, newAnswerOf answer st)]).
  { rewrite createAnswer_eq. simpl.
    rewrite <- (set_fresh _ _ _ (ascending_fresh _ _ WA)).
    destruct (JSMap.get _ (participants st)); [|reflexivity].
    rewrite updateParticipant_eq. simpl.
    destruct (JSMap.get _ (participants st)); reflexivity. }
  unfold answersFor, JSMap.values. rewrite E, map_app, filter_app.
  reflexivity.
Qed.

Lemma createAnswers_cons answer submissions st :
  snd (createAnswers (answer :: submissions) st) =
  snd (createAnswers submissions (snd (createAnswer answer st))).
Proof.
  unfold createAnswers. simpl. unfold bind, ret.
  destruct (createAnswer answer st). reflexivity.
Qed.

Lemma wf_createAnswers submissions st :
  wf st -> wf (snd (createAnswers submissions st)).
Proof.
  revert st. induction submissions as [|a l IH]; intros st W.
  - exact W.
  - rewrite createAnswers_cons. apply IH. exact (wf_run (CreateAnswer a) st W).
Qed.

Lemma answersFor_createAnswers p q submissions st :
  wf st ->
  List.length (answersFor p q (snd (createAnswers submissions st))) =
  (List.length (answersFor p q st)
   + List.length (filter (isFor p q) submissions))%nat.
Proof.
  revert st. induction submissions as [|a l IH]; intros st W.
  - simpl. lia.
  - rewrite createAnswers_cons.
    rewrite IH by exact (wf_run (CreateAnswer a) st W).
    rewrite answersFor_createAnswer by exact W.
    rewrite length_app. simpl. destruct (isFor p q a); simpl; lia.
Qed.

(** *** [createAnswer], stretch by stretch *)

Lemma createAnswer_enter_eq answer st :
  createAnswer_enter answer st =
  (mkWaiting answer (newAnswerOf answer st)
     (JSMap.get (InsertAnswer.participantId answer) (participants st)),
   mk (admins st) (quizzes st) (questions st) (participants st)
      (JSMap.set (answerId st) (newAnswerOf answer st) (answers st))
      (adminId st) (quizId st) (questionId st) (participantId st)
      (answerId st + 1)).
Proof. reflexivity. Qed.

Lemma createAnswer_resume_eq w st :
  createAnswer_resume w st =
  (newAnswer w,
   match InFlight.participant w with
   | Some participant =>
       snd (updateParticipant (Participant.id participant)
              (scorePatch (Participant.score participant
                           + InsertAnswer.score (InFlight.answer w))) st)
   | None => st
   end).
Proof.
  unfold createAnswer_resume.
  destruct (InFlight.participant w) as [p|]; [|reflexivity].
  unfold bind, ret, scorePatch.
  destruct (updateParticipant _ _ st). reflexivity.
Qed.

(** A call that nothing interrupts is its two stretches, one after the
    other. *)
Lemma createAnswer_stretches answer st :
  createAnswer answer st =
  createAnswer_resume (fst (createAnswer_enter answer st))
    (snd (createAnswer_enter answer st)).
Proof.
  rewrite createAnswer_eq, createAnswer_enter_eq, createAnswer_resume_eq.
  simpl.
  destruct (JSMap.get (InsertAnswer.participantId answer)
              (participants st)); reflexivity.
Qed.

Lemma answers_resume w st :
  answers (snd (createAnswer_resume w st)) = answers st
  /\ answerId (snd (createAnswer_resume w st)) = answerId st.
Proof.
  rewrite createAnswer_resume_eq. simpl.
  destruct (InFlight.participant w) as [p|]; [|split; reflexivity].
  rewrite updateParticipant_eq.
  destruct (JSMap.get (Participant.id p) (participants st));
    split; reflexivity.
Qed.

(** What a stretch does to the answers: a call that enters stores one,
    under the next id; a call that goes on stores none. *)
Lemma answers_step p q e s :
  JSMap.ascending (answerId (fst s)) (answers (fst s)) ->
  JSMap.ascending (answerId (fst (step e s))) (answers (fst (step e s)))
  /\ answersFor p q (fst (step e s)) =
     answersFor p q (fst s)
     ++ match e with
        | Enter answer =>
            if isFor p q answer then [newAnswerOf answer (fst s)] else []
        | Resume _ => []
        end.
Proof.
  intros A. destruct s as [st ws]. destruct e as [answer|n]; simpl.
  - split; [apply ascending_set_next, A|].
    unfold answersFor, JSMap.values. simpl.
    rewrite (set_fresh _ _ _ (ascending_fresh _ _ A)).
    rewrite map_app, filter_app. reflexivity.
  - destruct (nth_error ws n) as [w|]; simpl.
    + destruct (answers_resume w st) as [E1 E2].
      unfold answersFor. rewrite E1, E2, app_nil_r. auto.
    + rewrite app_nil_r. auto.
Qed.

Lemma steps_cons e es s : steps (e :: es) s = steps es (step e s).
Proof. reflexivity. Qed.

Lemma answersFor_steps p q es :
  forall s,
    JSMap.ascending (answerId (fst s)) (answers (fst s)) ->
    JSMap.ascending (answerId (fst (steps es s)))
      (answers (fst (steps es s)))
    /\ List.length (answersFor p q (fst (steps es s))) =
       (List.length (answersFor p q (fst s))
        + List.length (filter (isFor p q) (entered es)))%nat.
Proof.
  induction es as [|e es IH]; intros s A.
  - simpl. split; [exact A | lia].
  - rewrite steps_cons.
    destruct (answers_step p q e s A) as (A' & E).
    destruct (IH (step e s) A') as [A2 L]. split; [exact A2|].
    rewrite L, E, length_app.
    destruct e as [answer|n]; simpl.
    + destruct (isFor p q answer); simpl; lia.
    + lia.
Qed.

Lemma step_call answer st :
  step (Resume 0) (step (Enter answer) (st, []))
  = (snd (createAnswer answer st), []).
Proof.
  rewrite createAnswer_stretches. unfold step. simpl fst. simpl snd.
  destruct (createAnswer_enter answer st) as [w st1]. reflexivity.
Qed.

Lemma steps_oneByOne submissions :
  forall st,
    steps (oneByOne submissions) (st, [])
    = (snd (createAnswers submissions st), []).
Proof.
  induction submissions as [|a l IH]; intros st.
  - reflexivity.
  - rewrite createAnswers_cons, <- IH.
    change (oneByOne (a :: l)) with (Enter a :: Resume 0 :: oneByOne l).
    rewrite !steps_cons, step_call. reflexivity.
Qed.

(** C2, as amended: every submission is stored.  After [createAnswer]
    calls, made one after the other ([createAnswers]) or while earlier
    ones still wait at their [await]s (any order of [stretches]), the
    answers keep distinct ids, and a participant has as many more answers
    to a question as submissions were made for that participant and
    question: a second submission is stored beside the first, not
    rejected. *)
Theorem createAnswers_stores_every_submission
  (st : t) (submissions : list InsertAnswer.t) (stretches : list stretch)
  (participantId questionId : Z) :
  reachable st ->
  (NoDup (JSMap.keys (answers (snd (createAnswers submissions st))))
   /\ List.length (answersFor participantId questionId
                (snd (createAnswers submissions st))) =
      (List.length (answersFor participantId questionId st)
       + List.length
           (filter (isFor participantId questionId) submissions))%nat)
  /\ (NoDup (JSMap.keys (answers (fst (steps stretches (st, [])))))
      /\ List.length (answersFor participantId questionId
                   (fst (steps stretches (st, [])))) =
         (List.length (answersFor participantId questionId st)
          + List.length
              (filter (isFor participantId questionId)
                 (entered stretches)))%nat)
  /\ fst (steps (oneByOne submissions) (st, []))
     = snd (createAnswers submissions st).
Proof.
  intros R. pose proof (reachable_wf st R) as W. split; [split|split].
  - destruct (wf_createAnswers submissions st W) as [_ WA].
    exact (ascending_NoDup _ _ WA).
  - apply answersFor_createAnswers, W.
  - destruct (answersFor_steps participantId questionId stretches
                (st, []) (proj2 W)) as [A L].
    split; [exact (ascending_NoDup _ _ A) | exact L].
  - rewrite steps_oneByOne. reflexivity.
Qed.

Lemma createAnswers_stores_every_submission_witness :
  (NoDup (JSMap.keys (answers (snd (createAnswers
            [Sample.submission; Sample.submission] Sample.joined))))
   /\ List.length (answersFor 1 1 (snd (createAnswers
                [Sample.submission; Sample.submission] Sample.joined))) =
      (List.length (answersFor 1 1 Sample.joined)
       + List.length (filter (isFor 1 1)
                   [Sample.submission; Sample.submission]))%nat)
  /\ (NoDup (JSMap.keys (answers (fst (steps
               [Enter Sample.submission; Enter Sample.submission;
                Resume 0; Resume 0] (Sample.joined, [])))))
      /\ List.length (answersFor 1 1 (fst (steps
                   [Enter Sample.submission; Enter Sample.submission;
                    Resume 0; Resume 0] (Sample.joined, [])))) =
         (List.length (answersFor 1 1 Sample.joined)
          + List.length (filter (isFor 1 1)
                      (entered
                         [Enter Sample.submission; Enter Sample.submission;
                          Resume 0; Resume 0])))%nat)
  /\ fst (steps (oneByOne [Sample.submission; Sample.submission])
            (Sample.joined, []))
     = snd (createAnswers [Sample.submission; Sample.submission]
              Sample.joined).
Proof.
  apply (createAnswers_stores_every_submission Sample.joined
           [Sample.submission; Sample.submission]
           [Enter Sample.submission; Enter Sample.submission;
            Resume 0; Resume 0] 1 1).
  exact reachable_joined.
Defined.

(** Against C2 as stated: two submissions of the same participant for the
    same question leave two answers, and the score counts both. *)
Lemma second_submission_is_stored :
  List.length (answersFor 1 1 (snd (createAnswers
            [Sample.submission; Sample.submission] Sample.joined))) = 2%nat
  /\ fst (getParticipant 1 (snd (createAnswers
            [Sample.submission; Sample.submission] Sample.joined))) =
     Some (Participant.mk 1 1 "Alice" 300 0).
Proof. split; vm_compute; reflexivity. Qed.



(** C5, as amended: a [createAnswer] that nothing interrupts (its two
    stretches, one after the other) stores the answer and adds its score
    to the participant it names, when the record of that participant
    carries the id it is stored under and the two scores and their sum
    are whole numbers below 2^53 in absolute value, so that the binary64
    sum is the sum; no other participant changes. *)
Theorem createAnswer_adds_score
  (st : t) (answer : InsertAnswer.t) (participant : Participant.t) :
  fst (getParticipant (InsertAnswer.participantId answer) st)
    = Some participant ->
  Participant.id participant = InsertAnswer.participantId answer ->
  safe (Participant.score participant) ->
  safe (InsertAnswer.score answer) ->
  safe (Participant.score participant + InsertAnswer.score answer) ->
  let newAnswer := fst (createAnswer answer st) in
  let st' := snd (createAnswer answer st) in
  createAnswer answer st
  = createAnswer_resume (fst (createAnswer_enter answer st))
      (snd (createAnswer_enter answer st))
  /\ newAnswer = newAnswerOf answer st
  /\ fst (getAnswer (Answer.id newAnswer) st') = Some newAnswer
  /\ fst (getParticipant (InsertAnswer.participantId answer) st') =
       Some (Participant.mk (Participant.id participant)
               (Participant.quizId participant)
               (Participant.alias participant)
               (Participant.score participant + InsertAnswer.score answer)
               (Participant.joinedAt participant))
  /\ (ofZ (Participant.score participant)
      + ofZ (InsertAnswer.score answer))%float
     = ofZ (Participant.score participant + InsertAnswer.score answer)
  /\ (forall id, id <> InsertAnswer.participantId answer ->
        fst (getParticipant id st') = fst (getParticipant id st)).
Proof.
  intros G I S0 A0 B. split; [apply createAnswer_stretches|].
  revert G I. unfold getParticipant, getAnswer, read. simpl. intros G I.
  rewrite createAnswer_eq. simpl. rewrite G, I, updateParticipant_eq.
  simpl. rewrite G. simpl. repeat split.
  - apply get_set_same.
  - rewrite get_set_same. unfold spreadParticipant, scorePatch. simpl.
    rewrite I. reflexivity.
  - apply plus_whole; assumption.
  - intros id N. apply get_set_other, N.
Qed.

Lemma createAnswer_adds_score_witness :
  let newAnswer := fst (createAnswer Sample.submission Sample.joined) in
  let st' := snd (createAnswer Sample.submission Sample.joined) in
  createAnswer Sample.submission Sample.joined
  = createAnswer_resume
      (fst (createAnswer_enter Sample.submission Sample.joined))
      (snd (createAnswer_enter Sample.submission Sample.joined))
  /\ newAnswer = newAnswerOf Sample.submission Sample.joined
  /\ fst (getAnswer (Answer.id newAnswer) st') = Some newAnswer
  /\ fst (getParticipant 1 st') = Some (Participant.mk 1 1 "Alice" 150 0)
  /\ (ofZ 0 + ofZ 150)%float = ofZ 150
  /\ (forall id, id <> 1 ->
        fst (getParticipant id st') = fst (getParticipant id Sample.joined)).
Proof.
  apply (createAnswer_adds_score Sample.joined Sample.submission
           (Participant.mk 1 1 "Alice" 0 0));
    try (vm_compute; reflexivity); split; reflexivity.
Defined.

(** Against C5 as stated.  In a store where the record under 1 carries
    the id 2, an answer of participant 1 leaves the score under 1 as it
    was and overwrites the score under 2.  When a second [createAnswer]
    is made while the first waits, both answers are stored and the score
    written last stands: 0, with 150 points in the answers.  And at 2^53
    the binary64 sum of a score and 1 is the score. *)
Lemma createAnswer_score_goes_elsewhere :
  reachable Sample.relabelled
  /\ fst (getParticipant 1 Sample.relabelled)
     = Some (Participant.mk 2 1 "Alice" 0 0)
  /\ fst (getParticipant 2 Sample.relabelled)
     = Some (Participant.mk 2 1 "Bob" 7 5)
  /\ fst (getParticipant 1
            (snd (createAnswer Sample.submission Sample.relabelled)))
     = Some (Participant.mk 2 1 "Alice" 0 0)
  /\ fst (getParticipant 2
            (snd (createAnswer Sample.submission Sample.relabelled)))
     = Some (Participant.mk 2 1 "Bob" 150 5)
  /\ (let st' :=
        fst (steps [Enter Sample.submission; Enter Sample.miss;
                    Resume 0; Resume 0] (Sample.joined, [])) in
      fst (getParticipant 1 Sample.joined)
      = Some (Participant.mk 1 1 "Alice" 0 0)
      /\ map Answer.score (fst (getAnswersByParticipant 1 st'))
         = [150; 0]
      /\ fst (getParticipant 1 st')
         = Some (Participant.mk 1 1 "Alice" 0 0))
  /\ (ofZ (2 ^ 53) + ofZ 1)%float = ofZ (2 ^ 53).
Proof.
  split.
  - unfold Sample.relabelled. apply reachable_runs, reachable_joined.
  - repeat split; vm_compute; reflexivity.
Qed.

(** C10: updating a quiz or a participant that is not stored returns
    [undefined] and leaves the store as it was. *)
Theorem update_missing_changes_nothing
  (st : t) (quizId participantId : Z) (quiz : PartialQuiz.t)
  (participant : PartialParticipant.t) :
  fst (getQuiz quizId st) = None ->
  fst (getParticipant participantId st) = None ->
  updateQuiz quizId quiz st = (None, st)
  /\ updateParticipant participantId participant st = (None, st).
Proof.
  unfold getQuiz, getParticipant, read. simpl. intros GQ GP.
  unfold updateQuiz, updateParticipant, bind, read. rewrite GQ, GP.
  split; reflexivity.
Qed.

Lemma update_missing_changes_nothing_witness :
  updateQuiz 99 (PartialQuiz.mk None None (Some "Renamed"%string) None None
                   None None) Sample.joined = (None, Sample.joined)
  /\ updateParticipant 99 (scorePatch 1000) Sample.joined
     = (None, Sample.joined).
Proof.
  apply (update_missing_changes_nothing Sample.joined 99 99);
    vm_compute; reflexivity.
Defined.

(** C6, as amended: a participant created without an explicit score
    starts at 0, and in a run of the store made of score-keeping calls
    (no [updateParticipant] that sets a score or an id, no answer with a
    negative score), each of which has returned before the next is made
    ([runs] takes every call from its first statement to its last), a
    participant's score never goes down. *)
Theorem score_never_decreases
  (before after : list call) (id : Z)
  (participant participant' : Participant.t) :
  Forall scoreKeeping before -> Forall scoreKeeping after ->
  JSMap.get id (participants (runs before empty)) = Some participant ->
  JSMap.get id (participants (runs after (runs before empty)))
    = Some participant' ->
  Participant.score participant <= Participant.score participant'
  /\ (forall joining now st,
        InsertParticipant.score joining = None ->
        Participant.score (fst (createParticipant joining now st)) = 0).
Proof.
  intros FB FA G G'. split.
  - destruct (scoreKeeping_runs before empty wf_empty idsOk_empty FB)
      as [W I].
    exact (score_runs after _ id participant participant' W I FA G G').
  - intros joining now st N. rewrite createParticipant_eq. simpl.
    rewrite N. reflexivity.
Qed.

Lemma score_never_decreases_witness :
  0 <= 150
  /\ (forall joining now st,
        InsertParticipant.score joining = None ->
        Participant.score (fst (createParticipant joining now st)) = 0).
Proof.
  apply (score_never_decreases
           [CreateParticipant Sample.alice 0]
           [CreateAnswer (InsertAnswer.mk 1 1 0 true 3000 150);
            CreateParticipant Sample.bob 5;
            UpdateParticipant 1
              (PartialParticipant.mk None None (Some "Alicia"%string)
                 None None);
            DeleteQuiz 2]
           1 (Participant.mk 1 1 "Alice" 0 0)
           (Participant.mk 1 1 "Alicia" 150 0)).
  - repeat constructor.
  - repeat constructor; simpl; lia.
  - vm_compute. reflexivity.
  - vm_compute. reflexivity.
Defined.

(** Against C6 as stated: a participant can be created with a score, and
    [updateParticipant] can lower a score.  So can an answer with
    negative points, an answer of a participant whose record carries the
    id of another, and a [createAnswer] that was made while another
    waited: it writes the score it read before the other added its
    points. *)
Lemma score_can_be_set :
  Participant.score (fst (createParticipant Sample.bob 5 Sample.joined)) = 7
  /\ fst (getParticipant 1 (run (CreateAnswer Sample.submission)
                                Sample.joined))
     = Some (Participant.mk 1 1 "Alice" 150 0)
  /\ fst (getParticipant 1
            (run (UpdateParticipant 1 (scorePatch 0))
               (run (CreateAnswer Sample.submission) Sample.joined)))
     = Some (Participant.mk 1 1 "Alice" 0 0)
  /\ fst (getParticipant 1
            (run (CreateAnswer (InsertAnswer.mk 1 2 0 false 4000 (-10)))
               (run (CreateAnswer Sample.submission) Sample.joined)))
     = Some (Participant.mk 1 1 "Alice" 140 0)
  /\ fst (getParticipant 2 Sample.relabelled)
     = Some (Participant.mk 2 1 "Bob" 7 5)
  /\ fst (getParticipant 2
            (run (CreateAnswer Sample.miss) Sample.relabelled))
     = Some (Participant.mk 2 1 "Bob" 0 5)
  /\ fst (getParticipant 1
            (fst (steps [Enter Sample.submission; Enter Sample.miss;
                         Resume 0] (Sample.joined, []))))
     = Some (Participant.mk 1 1 "Alice" 150 0)
  /\ fst (getParticipant 1
            (fst (steps [Enter Sample.submission; Enter Sample.miss;
                         Resume 0; Resume 0] (Sample.joined, []))))
     = Some (Participant.mk 1 1 "Alice" 0 0).
Proof. repeat split; vm_compute; reflexivity. Qed.
End StoreClaims.

(** ** Sorting: [Array.prototype.sort] with a descending comparator *)

Section SortDescending.
Context {A : Type}.
Variable key : A -> Z.
Import JSArray.

Let compareFn (a b : A) : Z := key b - key a.

Lemma insert_perm (x : A) (l : list A) :
  Permutation (insert compareFn x l) (x :: l).
Proof.
  induction l as [|y l IH]; simpl; [reflexivity|].
  destruct (compareFn x y <=? 0); [reflexivity|].
  rewrite IH. apply perm_swap.
Qed.

Lemma sort_perm (l : list A) : Permutation (sort compareFn l) l.
Proof.
  induction l as [|x l IH]; simpl; [reflexivity|].
  rewrite insert_perm. constructor. exact IH.
Qed.

Lemma insert_descending (x : A) (l : list A) :
  descending key l -> descending key (insert compareFn x l).
Proof.
  unfold descending. induction 1 as [|y l S IH F]; simpl.
  - repeat constructor.
  - unfold compareFn at 1. destruct (Z.leb_spec (key y - key x) 0) as [L|G].
    + constructor; [constructor; assumption|].
      constructor; [lia|].
      eapply Forall_impl; [|exact F]. simpl. intros. lia.
    + constructor; [exact IH|].
      rewrite (Forall_forall (fun b => key b <= key y)).
      intros b I. apply (Permutation_in _ (insert_perm x l)) in I.
      destruct I as [<-|I]; [lia|].
      rewrite Forall_forall in F. apply F, I.
Qed.

Lemma sort_descending (l : list A) : descending key (sort compareFn l).
Proof.
  induction l as [|x l IH]; simpl; [constructor|].
  apply insert_descending, IH.
Qed.

Lemma before_In (a b : A) (l : list A) : before a b l -> In a l /\ In b l.
Proof.
  induction 1 as [l I|x l B [IA IB]]; simpl; tauto.
Qed.

(** Where a pair listed in order after an insertion comes from. *)
Lemma before_insert (a b x : A) (l : list A) :
  before a b (insert compareFn x l) ->
  (a = x /\ In b l) \/ (b = x /\ key x < key a) \/ before a b l.
Proof.
  induction l as [|y l IH]; simpl.
  - intros B. inversion B as [l' I|x' l' B']; subst.
    + destruct I.
    + inversion B'.
  - unfold compareFn at 1. destruct (Z.leb_spec (key y - key x) 0) as [L|G].
    + intros B. inversion B as [l' I|x' l' B']; subst.
      * left. split; [reflexivity | exact I].
      * right. right. exact B'.
    + intros B. inversion B as [l' I|x' l' B']; subst.
      * apply (Permutation_in _ (insert_perm x l)) in I.
        destruct I as [<-|I].
        -- right. left. split; [reflexivity | lia].
        -- right. right. constructor. exact I.
      * destruct (IH B') as [[-> I]|[[-> K]|B'']].
        -- left. split; [reflexivity | right; exact I].
        -- right. left. split; [reflexivity | exact K].
        -- right. right. apply before_later, B''.
Qed.

(** The sort is stable: entries with equal keys keep their order. *)
Lemma sort_stable (a b : A) (l : list A) :
  before a b (sort compareFn l) -> key a = key b -> before a b l.
Proof.
  intros B E. induction l as [|x l IH]; simpl in B.
  - inversion B.
  - destruct (before_insert a b x _ B) as [[-> I]|[[-> K]|B']].
    + constructor. apply (Permutation_in _ (sort_perm l)), I.
    + lia.
    + apply before_later, IH, B'.
Qed.
End SortDescending.

Section BeforeFacts.
Context {A : Type}.
Import JSArray.

Lemma before_filter (f : A -> bool) (a b : A) (l : list A) :
  before a b (filter f l) -> before a b l.
Proof.
  induction l as [|x l IH]; simpl; [tauto|].
  destruct (f x).
  - intros B. inversion B as [l' I|x' l' B']; subst.
    + constructor. apply filter_In in I. apply I.
    + apply before_later, IH, B'.
  - intros B. apply before_later, IH, B.
Qed.

(** In a [Map] with ascending keys, values listed in order are stored
    under keys in order. *)
Lemma before_values (a b : A) (m : JSMap.t A) :
  StronglySorted Z.lt (JSMap.keys m) ->
  before a b (JSMap.values m) ->
  exists ka kb, ka < kb /\ In (ka, a) m /\ In (kb, b) m.
Proof.
  induction m as [|[k v] m IH]; simpl; intros S B.
  - inversion B.
  - inversion S as [|? ? S' F]; subst.
    inversion B as [l' I|x' l' B']; subst.
    + apply in_map_iff in I. destruct I as ([kb b'] & E & I).
      simpl in E. subst b'. exists k, kb. repeat split.
      * rewrite Forall_forall in F. apply F.
        change kb with (fst (kb, b)). apply in_map, I.
      * left. reflexivity.
      * right. exact I.
    + destruct (IH S' B') as (ka & kb & L & Ia & Ib).
      exists ka, kb.
      repeat split; [exact L | right; exact Ia | right; exact Ib].
Qed.
End BeforeFacts.

Section Leaderboard.
Import MemStorage.

(** C3: the leaderboard of a quiz lists exactly the participants of the
    quiz, by descending score, and participants with equal scores in the
    order they joined: of two with the same score the one listed first
    is stored under the smaller id, and whoever joins gets an id above
    every id in the store. *)
Theorem getLeaderboard_sorted_stable (st : t) (quizId : Z) :
  reachable st ->
  let leaderboard := fst (getLeaderboard quizId st) in
  Permutation leaderboard (fst (getParticipantsByQuiz quizId st))
  /\ (forall p, In p leaderboard <->
                Participant.quizId p = quizId
                /\ exists id, fst (getParticipant id st) = Some p)
  /\ JSArray.descending Participant.score leaderboard
  /\ (forall a b,
        JSArray.before a b leaderboard ->
        Participant.score a = Participant.score b ->
        exists ida idb,
          ida < idb
          /\ fst (getParticipant ida st) = Some a
          /\ fst (getParticipant idb st) = Some b)
  /\ (forall joining now id p,
        fst (getParticipant id st) = Some p ->
        id < Participant.id (fst (createParticipant joining now st))).
Proof.
  intros R. pose proof (reachable_wf st R) as W. destruct W as [WP WA].
  pose proof (ascending_NoDup _ _ WP) as D.
  pose proof (fun id p => present_below_counter st id p (conj WP WA)) as N.
  unfold getLeaderboard, getParticipantsByQuiz, getParticipant, bind, read,
    ret. simpl.
  set (quizOnly := filter _ (JSMap.values (participants st))).
  assert (P : Permutation
                (JSArray.sort
                   (fun a b => Participant.score b - Participant.score a)
                   quizOnly) quizOnly)
    by apply (sort_perm Participant.score).
  split; [exact P|]. split; [|split; [|split]].
  - intros p. split.
    + intros I. apply (Permutation_in _ P), filter_In in I.
      destruct I as [I Q]. split; [apply Z.eqb_eq, Q|].
      apply in_map_iff in I. destruct I as ([id p'] & E & I). simpl in E.
      subst p'. exists id. apply In_get_Some; assumption.
    + intros (Q & id & G). apply (Permutation_in _ (Permutation_sym P)).
      apply filter_In. split; [|apply Z.eqb_eq, Q].
      apply get_Some_In in G. change p with (snd (id, p)). apply in_map, G.
  - apply (sort_descending Participant.score).
  - intros a b B E.
    apply (sort_stable Participant.score) in B; [|exact E].
    apply before_filter in B.
    destruct (before_values a b _ (proj1 WP) B) as (ka & kb & L & Ia & Ib).
    exists ka, kb. repeat split; [exact L | |]; apply In_get_Some; assumption.
  - intros joining now id p G. exact (N id p G).
Qed.
End Leaderboard.

(** ** Quiz codes *)

Section Strings.
Local Open Scope nat_scope.

Lemma length_append (s1 s2 : string) :
  String.length (s1 ++ s2) = String.length s1 + String.length s2.
Proof.
  induction s1 as [|c s1 IH]; simpl; [reflexivity|].
  rewrite IH. reflexivity.
Qed.

Lemma chars_append (s1 s2 : string) :
  list_ascii_of_string (s1 ++ s2)
  = (list_ascii_of_string s1 ++ list_ascii_of_string s2)%list.
Proof.
  induction s1 as [|c s1 IH]; simpl; [reflexivity|].
  rewrite IH. reflexivity.
Qed.

Lemma get_in_range (s : string) (i : nat) :
  i < String.length s ->
  exists c, String.get i s = Some c /\ In c (list_ascii_of_string s).
Proof.
  revert i. induction s as [|c s IH]; simpl; intros i L; [lia|].
  destruct i as [|i].
  - exists c. split; [reflexivity | left; reflexivity].
  - destruct (IH i) as (c' & G & I); [lia|].
    exists c'. split; [exact G | right; exact I].
Qed.

(** An index in range picks one character of the string. *)
Lemma charAt_in_range (s : string) (i : nat) :
  i < String.length s ->
  exists c, charAt s i = String c EmptyString
            /\ In c (list_ascii_of_string s).
Proof.
  intros L. destruct (get_in_range s i L) as (c & G & I).
  exists c. unfold charAt. rewrite G. split; [reflexivity | exact I].
Qed.
End Strings.

Section Codes.
Local Open Scope nat_scope.

Lemma drawChars_eq (n : nat) (draws : list nat) (code : string) :
  drawChars n draws code =
  if n <=? List.length draws
  then Some (codeFrom code (firstn n draws), skipn n draws)
  else None.
Proof.
  revert draws code. induction n as [|n IH]; intros draws code; simpl.
  - reflexivity.
  - destruct draws as [|r draws]; [reflexivity|]. rewrite IH. reflexivity.
Qed.

Lemma codeFrom_length (code : string) (draws : list nat) :
  Forall inRange draws ->
  String.length (codeFrom code draws)
  = String.length code + List.length draws.
Proof.
  revert code. induction draws as [|r draws IH]; intros code F; simpl.
  - lia.
  - inversion F as [|? ? R F']; subst. rewrite (IH _ F'), length_append.
    destruct (charAt_in_range characters r R) as (c & -> & _). simpl. lia.
Qed.

Lemma codeFrom_inAlphabet (code : string) (draws : list nat) :
  Forall inRange draws -> inAlphabet code ->
  inAlphabet (codeFrom code draws).
Proof.
  revert code. induction draws as [|r draws IH]; intros code F I; simpl.
  - exact I.
  - inversion F as [|? ? R F']; subst. apply (IH _ F').
    unfold inAlphabet. rewrite chars_append. apply Forall_app.
    split; [exact I|].
    destruct (charAt_in_range characters r R) as (c & -> & C).
    constructor; [exact C | constructor].
Qed.

(** Six draws in range spell six characters of the alphabet. *)
Lemma codeOf_six (six : list nat) :
  Forall inRange six -> List.length six = 6 ->
  String.length (codeOf six) = 6 /\ inAlphabet (codeOf six).
Proof.
  intros F L. split.
  - unfold codeOf. rewrite (codeFrom_length _ _ F), L. reflexivity.
  - apply (codeFrom_inAlphabet EmptyString six F). constructor.
Qed.

Lemma generateQuizCode_client (draws : list nat) :
  Quiz_ts.generateQuizCode draws =
  if 6 <=? List.length draws
  then Some (codeOf (firstn 6 draws), skipn 6 draws)
  else None.
Proof. apply drawChars_eq. Qed.
End Codes.

Section GenerateQuizCode.
Import MemStorage.
Local Open Scope nat_scope.

Lemma taken_false code st :
  taken code st = false ->
  forall quiz, In quiz (JSMap.values (quizzes st)) ->
               Quiz.code quiz <> code.
Proof.
  unfold taken, getQuizByCode, read. simpl.
  destruct (find _ (JSMap.values (quizzes st))) eqn:F; [discriminate|].
  intros _ quiz I E.
  apply (find_none _ _ F) in I. rewrite E, String.eqb_refl in I.
  discriminate.
Qed.

(** One attempt: six draws, then the look-up. *)
Lemma generateQuizCode_rec_eq fuel draws st :
  generateQuizCode_rec (S fuel) draws st =
  if 6 <=? List.length draws then
    if taken (codeOf (firstn 6 draws)) st
    then generateQuizCode_rec fuel (skipn 6 draws) st
    else (Some (codeOf (firstn 6 draws), skipn 6 draws), st)
  else (None, st).
Proof.
  cbn [generateQuizCode_rec]. rewrite drawChars_eq.
  destruct (6 <=? List.length draws); [|reflexivity].
  unfold bind, taken, getQuizByCode, read, ret. simpl.
  change (codeFrom EmptyString (firstn 6 draws))
    with (codeOf (firstn 6 draws)).
  destruct (find _ (JSMap.values (quizzes st))); reflexivity.
Qed.

(** Fuel beyond the number of draws changes nothing. *)
Lemma generateQuizCode_rec_fuel fuel1 fuel2 draws st :
  List.length draws < fuel1 -> List.length draws < fuel2 ->
  generateQuizCode_rec fuel1 draws st = generateQuizCode_rec fuel2 draws st.
Proof.
  revert fuel2 draws.
  induction fuel1 as [|fuel1 IH]; intros fuel2 draws L1 L2; [lia|].
  destruct fuel2 as [|fuel2]; [lia|].
  rewrite !generateQuizCode_rec_eq.
  destruct (Nat.leb_spec 6 (List.length draws)) as [L|L]; [|reflexivity].
  destruct (taken _ st); [|reflexivity].
  apply IH; rewrite length_skipn; lia.
Qed.

(** [generateQuizCode], one attempt at a time. *)
Lemma generateQuizCode_eq six rest st :
  List.length six = 6 ->
  generateQuizCode (six ++ rest) st =
  if taken (codeOf six) st then generateQuizCode rest st
  else (Some (codeOf six, rest), st).
Proof.
  intros L. unfold generateQuizCode. rewrite generateQuizCode_rec_eq.
  assert (F : firstn 6 (six ++ rest) = six).
  { rewrite <- L, firstn_app, Nat.sub_diag, firstn_all. simpl.
    apply app_nil_r. }
  assert (S : skipn 6 (six ++ rest) = rest).
  { rewrite <- L, skipn_app, Nat.sub_diag, skipn_all. reflexivity. }
  rewrite F, S, length_app, L. simpl Nat.leb.
  destruct (taken (codeOf six) st); [|reflexivity].
  apply generateQuizCode_rec_fuel; lia.
Qed.

Lemma generateQuizCode_short draws st :
  List.length draws < 6 -> generateQuizCode draws st = (None, st).
Proof.
  intros L. unfold generateQuizCode. rewrite generateQuizCode_rec_eq.
  destruct (Nat.leb_spec 6 (List.length draws)); [lia | reflexivity].
Qed.

(** Whatever [generateQuizCode] returns is a free code of six characters
    of the alphabet. *)
Lemma generateQuizCode_sound draws st code rest :
  Forall inRange draws ->
  fst (generateQuizCode draws st) = Some (code, rest) ->
  String.length code = 6 /\ inAlphabet code /\ taken code st = false.
Proof.
  remember (List.length draws) as n eqn:N. revert draws N.
  induction n as [n IH] using lt_wf_ind. intros draws N F.
  destruct (Nat.leb_spec 6 (List.length draws)) as [L|L].
  - rewrite <- (firstn_skipn 6 draws) in F |- *.
    apply Forall_app in F. destruct F as [F6 Fr].
    assert (L6 : List.length (firstn 6 draws) = 6)
      by (rewrite length_firstn; lia).
    rewrite (generateQuizCode_eq _ _ st L6).
    destruct (taken (codeOf (firstn 6 draws)) st) eqn:T.
    + apply (IH (List.length (skipn 6 draws))); try reflexivity;
        [|exact Fr].
      rewrite length_skipn. lia.
    + simpl. intros E. inversion E; subst.
      destruct (codeOf_six _ F6 L6) as [C1 C2]. repeat split; assumption.
  - rewrite generateQuizCode_short by exact L. discriminate.
Qed.
End GenerateQuizCode.

Section FinalClaims.
Import MemStorage.

Lemma reachable_lobby : reachable Sample.lobby.
Proof. apply reachable_runs, reachable_joined. Qed.

Lemma getLeaderboard_sorted_stable_witness :
  let leaderboard := fst (getLeaderboard 1 Sample.lobby) in
  Permutation leaderboard (fst (getParticipantsByQuiz 1 Sample.lobby))
  /\ (forall p, In p leaderboard <->
                Participant.quizId p = 1
                /\ exists id, fst (getParticipant id Sample.lobby) = Some p)
  /\ JSArray.descending Participant.score leaderboard
  /\ (forall a b,
        JSArray.before a b leaderboard ->
        Participant.score a = Participant.score b ->
        exists ida idb,
          ida < idb
          /\ fst (getParticipant ida Sample.lobby) = Some a
          /\ fst (getParticipant idb Sample.lobby) = Some b)
  /\ (forall joining now id p,
        fst (getParticipant id Sample.lobby) = Some p ->
        id < Participant.id
               (fst (createParticipant joining now Sample.lobby))).
Proof.
  exact (getLeaderboard_sorted_stable Sample.lobby 1 reachable_lobby).
Defined.

(** The leaderboard of the sample session: Bob before Dave, Alice before
    Carol had she not answered. *)
Example leaderboard_lobby :
  fst (getLeaderboard 1 Sample.lobby) =
  [Participant.mk 1 1 "Alice" 150 0; Participant.mk 2 1 "Bob" 7 5;
   Participant.mk 4 1 "Dave" 7 7; Participant.mk 3 1 "Carol" 0 6].
Proof. vm_compute. reflexivity. Qed.

Local Open Scope nat_scope.

Lemma generateQuizCode_retries st collisions six rest :
  Forall (collides st) collisions ->
  List.length six = 6 -> taken (codeOf six) st = false ->
  generateQuizCode (List.concat collisions ++ six ++ rest)%list st
  = (Some (codeOf six, rest), st).
Proof.
  intros F L T. induction F as [|attempt collisions [LA TA] F IH]; simpl.
  - rewrite (generateQuizCode_eq six rest st L), T. reflexivity.
  - rewrite <- app_assoc, (generateQuizCode_eq attempt _ st LA), TA.
    exact IH.
Qed.

(** C7: [generateQuizCode] returns six characters of the alphabet that
    are the code of no stored quiz, and it does return: attempts that
    spell a taken code are retried, and the first attempt that spells a
    free code is the result.  The store is left as it was. *)
Theorem generateQuizCode_free_code
  (st : t) (collisions : list (list nat)) (six rest : list nat) :
  Forall (collides st) collisions ->
  List.length six = 6 -> Forall inRange six ->
  taken (codeOf six) st = false ->
  generateQuizCode (List.concat collisions ++ six ++ rest)%list st
    = (Some (codeOf six, rest), st)
  /\ String.length (codeOf six) = 6
  /\ inAlphabet (codeOf six)
  /\ (forall quiz, In quiz (JSMap.values (quizzes st)) ->
                   Quiz.code quiz <> codeOf six)
  /\ (forall draws code rest',
        Forall inRange draws ->
        fst (generateQuizCode draws st) = Some (code, rest') ->
        String.length code = 6 /\ inAlphabet code
        /\ forall quiz, In quiz (JSMap.values (quizzes st)) ->
                        Quiz.code quiz <> code).
Proof.
  intros F L R T. destruct (codeOf_six six R L) as [C1 C2].
  split; [apply generateQuizCode_retries; assumption|].
  split; [exact C1|]. split; [exact C2|].
  split; [apply taken_false, T|].
  intros draws code rest' FD G.
  destruct (generateQuizCode_sound draws st code rest' FD G)
    as (S1 & S2 & S3).
  split; [exact S1|]. split; [exact S2|]. apply taken_false, S3.
Qed.

Lemma generateQuizCode_free_code_witness :
  generateQuizCode
    (List.concat [[0; 1; 2; 3; 4; 5]] ++ [6; 7; 8; 9; 10; 31] ++ [12])%list
    Sample.lobby
    = (Some (codeOf [6; 7; 8; 9; 10; 31], [12]), Sample.lobby)
  /\ String.length (codeOf [6; 7; 8; 9; 10; 31]) = 6
  /\ inAlphabet (codeOf [6; 7; 8; 9; 10; 31])
  /\ (forall quiz, In quiz (JSMap.values (quizzes Sample.lobby)) ->
                   Quiz.code quiz <> codeOf [6; 7; 8; 9; 10; 31])
  /\ (forall draws code rest',
        Forall inRange draws ->
        fst (generateQuizCode draws Sample.lobby) = Some (code, rest') ->
        String.length code = 6 /\ inAlphabet code
        /\ forall quiz, In quiz (JSMap.values (quizzes Sample.lobby)) ->
                        Quiz.code quiz <> code).
Proof.
  apply (generateQuizCode_free_code Sample.lobby [[0; 1; 2; 3; 4; 5]]
           [6; 7; 8; 9; 10; 31] [12]).
  - repeat constructor.
  - reflexivity.
  - repeat constructor.
  - vm_compute. reflexivity.
Defined.

(** The draws 0,...,5 spell ABCDEF, the code of the second sample quiz;
    the next six spell the code that is returned. *)
Example generateQuizCode_lobby :
  fst (generateQuizCode [0; 1; 2; 3; 4; 5; 6; 7; 8; 9; 10; 31; 12]
         Sample.lobby)
  = Some ("GHJKL9"%string, [12]).
Proof. vm_compute. reflexivity. Qed.
End FinalClaims.

(* ================================================================= *)
(** * Further properties *)

(** ** client/src/lib/utils/quiz.ts: [findCorrectOption], [shuffleArray] *)

Section ViewHelpers.
Import QuizView.

Lemma find_first {A : Type} (f : A -> bool) (l : list A) (x : A) :
  find f l = Some x <->
  exists earlier later,
    l = (earlier ++ x :: later)%list /\ f x = true
    /\ Forall (fun y => f y = false) earlier.
Proof.
  induction l as [|y l IH]; simpl.
  - split; [discriminate|]. intros (e & r & E & _). destruct e; discriminate.
  - destruct (f y) eqn:F.
    + split.
      * intros H. injection H as <-. exists [], l. repeat split; auto.
      * intros (e & r & E & Fx & Fe). destruct e as [|z e]; simpl in E.
        -- congruence.
        -- injection E as <- _. inversion Fe; congruence.
    + rewrite IH. split.
      * intros (e & r & -> & Fx & Fe). exists (y :: e), r.
        repeat split; auto.
      * intros (e & r & E & Fx & Fe). destruct e as [|z e]; simpl in E.
        -- injection E as -> _. congruence.
        -- injection E as <- ->. inversion Fe; subst. exists e, r. auto.
Qed.

Lemma find_none {A : Type} (f : A -> bool) (l : list A) :
  find f l = None <-> Forall (fun y => f y = false) l.
Proof.
  induction l as [|y l IH]; simpl.
  - split; constructor.
  - destruct (f y) eqn:F.
    + split; [discriminate|]. intros H. inversion H; congruence.
    + rewrite IH. split; [constructor; assumption|].
      intros H. inversion H; assumption.
Qed.

(** X1: [findCorrectOption] returns the first option that is flagged
    correct, whatever comes after it, and [undefined] exactly when no option
    is flagged. *)
Theorem findCorrectOption_first (options : list QuizOption.t) :
  (forall found,
      findCorrectOption options = Some found <->
      exists earlier later,
        options = (earlier ++ found :: later)%list
        /\ QuizOption.isCorrect found = true
        /\ Forall (fun o => QuizOption.isCorrect o = false) earlier)
  /\ (findCorrectOption options = None <->
      Forall (fun o => QuizOption.isCorrect o = false) options).
Proof.
  split; [intros found; apply find_first | apply find_none].
Qed.

Local Open Scope nat_scope.

Lemma assign_length {T : Type} (i : nat) (x : T) (a : list T) :
  List.length (assign i x a) = List.length a.
Proof.
  revert i. induction a as [|y a IH]; intros [|i]; simpl; auto.
Qed.

Lemma nth_error_assign_same {T : Type} (i : nat) (x : T) (a : list T) :
  i < List.length a -> nth_error (assign i x a) i = Some x.
Proof.
  revert i. induction a as [|y a IH]; intros [|i] L; simpl in *;
    try lia; [reflexivity | apply IH; lia].
Qed.

Lemma nth_error_assign_other {T : Type} (i j : nat) (x : T) (a : list T) :
  i <> j -> nth_error (assign i x a) j = nth_error a j.
Proof.
  revert i j. induction a as [|y a IH]; intros [|i] [|j] N; simpl;
    try reflexivity; try lia. apply IH. lia.
Qed.

(** Writing [y] over [x] trades one for the other. *)
Lemma assign_extract {T : Type} (i : nat) (x y : T) (a : list T) :
  nth_error a i = Some x -> Permutation (y :: a) (x :: assign i y a).
Proof.
  revert i. induction a as [|h a IH]; intros [|i] H; simpl in *;
    try discriminate.
  - injection H as ->. apply perm_swap.
  - rewrite perm_swap. rewrite (IH i H). apply perm_swap.
Qed.

Lemma swap_perm {T : Type} (i j : nat) (a a' : list T) :
  swap i j a = Some a' ->
  Permutation a a' /\ List.length a' = List.length a.
Proof.
  unfold swap. destruct (nth_error a j) as [atJ|] eqn:J; [|discriminate].
  destruct (nth_error a i) as [atI|] eqn:I; [|discriminate].
  intros H. injection H as <-. split; [|rewrite !assign_length; reflexivity].
  assert (Li : i < List.length a) by (apply nth_error_Some; congruence).
  assert (J' : nth_error (assign i atJ a) j = Some atJ).
  { destruct (Nat.eq_dec i j) as [<-|N].
    - apply nth_error_assign_same, Li.
    - rewrite nth_error_assign_other by exact N. exact J. }
  apply (Permutation_cons_inv (a := atJ)).
  rewrite (assign_extract i atI atJ a I).
  apply (assign_extract j atJ atI _ J').
Qed.

Lemma swap_some {T : Type} (i j : nat) (a : list T) :
  j <= i -> i < List.length a -> exists a', swap i j a = Some a'.
Proof.
  intros L B. unfold swap.
  destruct (nth_error a j) eqn:J;
    [|apply nth_error_None in J; lia].
  destruct (nth_error a i) eqn:I;
    [|apply nth_error_None in I; lia].
  eexists. reflexivity.
Qed.

Lemma shuffleFrom_spec {T : Type} (i : nat) :
  forall (draws : list nat) (a : list T),
    i < List.length a \/ i = 0 ->
    (fitting i draws ->
     exists result, shuffleFrom i draws a = Some (result, skipn i draws))
    /\ (forall result rest,
           shuffleFrom i draws a = Some (result, rest) ->
           Permutation a result /\ List.length result = List.length a
           /\ rest = skipn i draws /\ fitting i draws).
Proof.
  induction i as [|i IH]; intros draws a B; simpl.
  - split.
    + intros _. exists a. reflexivity.
    + intros result rest H. injection H as <- <-. auto.
  - destruct B as [B|B]; [|discriminate].
    destruct draws as [|j draws]; [split; [tauto | discriminate]|].
    destruct (Nat.leb_spec j (S i)) as [L|G].
    + destruct (swap_some (S i) j a L B) as [a' S']. rewrite S'.
      destruct (swap_perm _ _ _ _ S') as [P E].
      assert (B' : i < List.length a' \/ i = 0) by lia.
      destruct (IH draws a' B') as [IH1 IH2]. split.
      * intros [_ F]. apply IH1, F.
      * intros result rest H.
        destruct (IH2 result rest H) as (P' & E' & R & F).
        repeat split; auto; [rewrite P; exact P' | lia].
    + split; [intros [L _]; lia | discriminate].
Qed.

(** X2: [shuffleArray] returns the elements of the array in some order, none
    lost and none twice, after one draw for each index from the last down to
    1; it does return when the draws are of the loop, and an array of at
    most one element comes back as it is, with no draw made. *)
Theorem shuffleArray_permutation {T : Type}
  (draws : list nat) (array : list T) :
  (fitting (List.length array - 1) draws ->
   exists result,
     shuffleArray draws array
     = Some (result, skipn (List.length array - 1) draws))
  /\ (forall result rest,
         shuffleArray draws array = Some (result, rest) ->
         Permutation array result
         /\ List.length result = List.length array
         /\ rest = skipn (List.length array - 1) draws)
  /\ (List.length array <= 1 -> shuffleArray draws array = Some (array, draws)).
Proof.
  unfold shuffleArray.
  assert (B : List.length array - 1 < List.length array
              \/ List.length array - 1 = 0) by lia.
  destruct (shuffleFrom_spec _ draws array B) as [S1 S2].
  split; [exact S1|]. split.
  - intros result rest H. destruct (S2 result rest H) as (P & E & R & _).
    auto.
  - intros L. replace (List.length array - 1) with 0 by lia. reflexivity.
Qed.

Lemma assign_app_left {T : Type} (j : nat) (y : T) (a l : list T) :
  j < List.length a -> assign j y (a ++ l) = (assign j y a ++ l)%list.
Proof.
  revert j. induction a as [|h a IH]; intros [|j] L; simpl in *;
    try lia; [reflexivity | rewrite IH by lia; reflexivity].
Qed.

Lemma assign_app_last {T : Type} (x y : T) (a l : list T) :
  assign (List.length a) x (a ++ y :: l) = (a ++ x :: l)%list.
Proof.
  induction a as [|h a IH]; simpl; [reflexivity | rewrite IH; reflexivity].
Qed.

(** The loop from [i] down can leave any arrangement of the elements up
    to index [i]; what lies beyond stays. *)
Lemma shuffleFrom_any {T : Type} (i : nat) :
  forall (a r tail : list T),
    List.length a = S i -> Permutation a r ->
    exists draws,
      fitting i draws /\ List.length draws = i
      /\ shuffleFrom i draws (a ++ tail) = Some ((r ++ tail)%list, []).
Proof.
  induction i as [|i IH]; intros a r tail L P.
  - exists []. repeat split; try reflexivity.
    destruct a as [|x [|? ?]]; try discriminate.
    apply Permutation_length_1_inv in P. subst r. reflexivity.
  - assert (Lr : List.length r = S (S i))
      by (rewrite <- (Permutation_length P); exact L).
    destruct (exists_last (l := r)) as (r0 & x & ->);
      [intros ->; discriminate|].
    destruct (exists_last (l := a)) as (a0 & y & ->);
      [intros ->; discriminate|].
    rewrite length_app in L, Lr. simpl in L, Lr.
    assert (La : List.length a0 = S i) by lia.
    assert (I : In x (a0 ++ [y]))
      by (apply (Permutation_in _ (Permutation_sym P)), in_or_app;
          right; left; reflexivity).
    apply In_nth_error in I. destruct I as [j J].
    assert (Lj : j < S (S i)).
    { assert (j < List.length (a0 ++ [y]))
        by (apply nth_error_Some; congruence).
      rewrite length_app in H. simpl in H. lia. }
    (* the array after the swap of [S i] and [j] *)
    assert (S' : exists a1,
               swap (S i) j ((a0 ++ [y]) ++ tail)
               = Some (a1 ++ x :: tail)%list
               /\ List.length a1 = S i /\ Permutation a1 r0).
    { unfold swap. rewrite <- !app_assoc.
      change ([y] ++ tail)%list with (y :: tail).
      assert (Y : nth_error (a0 ++ y :: tail) (S i) = Some y).
      { rewrite <- La, nth_error_app2 by lia.
        rewrite Nat.sub_diag. reflexivity. }
      assert (X : nth_error (a0 ++ y :: tail) j = Some x).
      { destruct (Nat.eq_dec j (S i)) as [->|N].
        - rewrite Y. rewrite <- La, nth_error_app2 in J by lia.
          rewrite Nat.sub_diag in J. exact J.
        - rewrite nth_error_app1 by lia.
          rewrite nth_error_app1 in J by lia. exact J. }
      rewrite X, Y.
      replace (assign (S i) x (a0 ++ y :: tail)) with (a0 ++ x :: tail)%list
        by (rewrite <- La; symmetry; apply assign_app_last).
      destruct (Nat.eq_dec j (S i)) as [->|N].
      - exists a0. assert (x = y) by congruence. subst y.
        replace (assign (S i) x (a0 ++ x :: tail)) with (a0 ++ x :: tail)%list
          by (rewrite <- La; symmetry; apply assign_app_last).
        repeat split; [exact La|].
        apply (Permutation_app_inv_r _ _ _ P).
      - rewrite assign_app_left by lia. exists (assign j y a0).
        rewrite assign_length. repeat split; [exact La|].
        rewrite nth_error_app1 in J by lia.
        apply (Permutation_cons_inv (a := x)).
        rewrite <- (assign_extract j x y a0 J).
        rewrite (Permutation_cons_append a0 y), P.
        symmetry. apply Permutation_cons_append. }
    destruct S' as (a1 & S' & L1 & P1).
    destruct (IH a1 r0 (x :: tail) L1 P1) as (draws & F & LD & G).
    exists (j :: draws). split; [split; [lia | exact F]|].
    split; [simpl; lia|].
    simpl. destruct (Nat.leb_spec j (S i)) as [_|G']; [|lia].
    rewrite S', G. rewrite <- !app_assoc. reflexivity.
Qed.

(** X3: Every arrangement of the array can come out of [shuffleArray]: for
    each there are draws of the loop that produce it. *)
Theorem shuffleArray_any_order {T : Type} (array result : list T) :
  Permutation array result ->
  exists draws,
    fitting (List.length array - 1) draws
    /\ List.length draws = List.length array - 1
    /\ shuffleArray draws array = Some (result, []).
Proof.
  intros P. unfold shuffleArray. destruct array as [|x array].
  - apply Permutation_nil in P. subst result. exists [].
    repeat split; reflexivity.
  - replace (List.length (x :: array) - 1) with (List.length array)
      by (simpl; lia).
    destruct (shuffleFrom_any (List.length array) (x :: array) result []
                eq_refl P) as (draws & F & L & G).
    rewrite !app_nil_r in G. exists draws. auto.
Qed.

Lemma shuffleArray_any_order_witness :
  exists draws,
    fitting (List.length [1; 2; 3]%Z - 1) draws
    /\ List.length draws = List.length [1; 2; 3]%Z - 1
    /\ shuffleArray draws [1; 2; 3]%Z = Some ([3; 1; 2]%Z, []).
Proof.
  apply (shuffleArray_any_order [1; 2; 3]%Z [3; 1; 2]%Z).
  apply Permutation_sym, (Permutation_cons_append [1; 2]%Z 3%Z).
Defined.

(** Five elements, with the draws 2, 0, 1, 0 for the indices 4, 3, 2, 1. *)
Example shuffleArray_five :
  shuffleArray [2; 0; 1; 0; 9] ["a"; "b"; "c"; "d"; "e"]%string
  = Some (["e"; "d"; "b"; "a"; "c"]%string, [9]).
Proof. reflexivity. Qed.
End ViewHelpers.

(** ** client/src/lib/utils/quiz.ts: [formatTime], [getPositionSuffix] *)

Section Numerals.
Import QuizView.

Let chars := list_ascii_of_string.

Let digit (c : ascii) : Prop := In c (chars "0123456789").

Lemma chars_inj (s1 s2 : string) : chars s1 = chars s2 -> s1 = s2.
Proof.
  intros H. rewrite <- (string_of_list_ascii_of_string s1),
    <- (string_of_list_ascii_of_string s2). unfold chars in H.
  rewrite H. reflexivity.
Qed.

Lemma append_inv_tail (s1 s2 t : string) :
  (s1 ++ t = s2 ++ t)%string -> s1 = s2.
Proof.
  intros H. apply chars_inj. apply (f_equal chars) in H. unfold chars in *.
  rewrite !chars_append in H. exact (app_inv_tail _ _ _ H).
Qed.

Lemma append_inv_head (s t1 t2 : string) :
  (s ++ t1 = s ++ t2)%string -> t1 = t2.
Proof.
  induction s as [|c s IH]; simpl; intros H; [exact H|].
  injection H as H. exact (IH H).
Qed.

Lemma uint_digits (d : Decimal.uint) :
  Forall digit (chars (NilEmpty.string_of_uint d)).
Proof.
  induction d; simpl; constructor; try assumption;
    unfold digit; simpl; tauto.
Qed.

Lemma toString_inj (a b : Z) : toString a = toString b -> a = b.
Proof.
  assert (N : forall z, Z.to_int z <> Decimal.Pos Decimal.Nil
                        /\ Z.to_int z <> Decimal.Neg Decimal.Nil).
  { intros [|p|p]; simpl; split; intros E; try discriminate;
      injection E; apply DecimalPos.Unsigned.to_uint_nonnil. }
  unfold toString. intros H. apply to_int_inj.
  apply (f_equal NilZero.int_of_string) in H.
  rewrite !NilZero.isi in H by apply N. injection H. auto.
Qed.

(** The numeral of a whole number from 0 on: digits, at least one. *)
Lemma toString_nonneg (z : Z) :
  0 <= z ->
  Forall digit (chars (toString z))
  /\ exists c rest, chars (toString z) = c :: rest.
Proof.
  intros H. unfold toString. destruct z as [|p|p]; try lia; simpl.
  - split; [repeat constructor; unfold digit; simpl; tauto|].
    eexists _, _. reflexivity.
  - pose proof (DecimalPos.Unsigned.to_uint_nonnil p) as N.
    pose proof (uint_digits (Pos.to_uint p)) as D.
    unfold NilZero.string_of_uint.
    destruct (Pos.to_uint p); [congruence | ..];
      (split; [exact D | simpl; eexists _, _; reflexivity]).
Qed.

(** The numeral of a negative whole number starts with the sign. *)
Lemma toString_neg (z : Z) :
  z < 0 -> exists rest, chars (toString z) = "-"%char :: rest.
Proof.
  intros H. destruct z as [|p|p]; try lia. simpl. eexists. reflexivity.
Qed.

(** Where the digits end is where they end. *)
Lemma digits_split (d1 d2 r1 r2 : list ascii) (c1 c2 : ascii) :
  Forall digit d1 -> Forall digit d2 -> ~ digit c1 -> ~ digit c2 ->
  (d1 ++ c1 :: r1 = d2 ++ c2 :: r2)%list ->
  d1 = d2 /\ c1 = c2 /\ r1 = r2.
Proof.
  intros F1. revert d2. induction F1 as [|x d1 X F1 IH];
    intros d2 F2 N1 N2 E; destruct F2 as [|y d2 Y F2]; simpl in E.
  - injection E as -> ->. auto.
  - injection E as -> _. contradiction.
  - injection E as -> _. contradiction.
  - injection E as -> E. destruct (IH d2 F2 N1 N2 E) as (-> & -> & ->).
    auto.
Qed.

Lemma not_digit_s : ~ digit "s".
Proof.
  unfold digit. simpl. intros H.
  repeat (destruct H as [H|H]; [discriminate|]). exact H.
Qed.

Lemma not_digit_m : ~ digit "m".
Proof.
  unfold digit. simpl. intros H.
  repeat (destruct H as [H|H]; [discriminate|]). exact H.
Qed.

Lemma not_digit_minus : ~ digit "-".
Proof.
  unfold digit. simpl. intros H.
  repeat (destruct H as [H|H]; [discriminate|]). exact H.
Qed.

Lemma formatTime_small (seconds : Z) :
  seconds < 60 -> formatTime seconds = (toString seconds ++ "s")%string.
Proof.
  intros H. unfold formatTime.
  destruct (Z.ltb_spec seconds 60); [reflexivity | lia].
Qed.

Lemma formatTime_large (seconds : Z) :
  60 <= seconds < 2 ^ 52 ->
  formatTime seconds
  = (toString (seconds / 60) ++ "m " ++ toString (seconds mod 60) ++ "s")
      %string.
Proof.
  intros H. unfold formatTime.
  destruct (Z.ltb_spec seconds 60); [lia|].
  rewrite Z.rem_mod_nonneg by lia.
  rewrite (floor_quotient seconds H), whole_ofZ; [reflexivity|].
  unfold safe. Z.div_mod_to_equations. lia.
Qed.

Lemma formatTime_inj (a b : Z) :
  Z.abs a < 2 ^ 52 -> Z.abs b < 2 ^ 52 ->
  formatTime a = formatTime b -> a = b.
Proof.
  assert (Mixed : forall x y, x < 60 -> 60 <= y < 2 ^ 52 ->
                    formatTime x = formatTime y -> False).
  { intros x y X Y E.
    rewrite (formatTime_small x X), (formatTime_large y Y) in E.
    apply (f_equal chars) in E. unfold chars in E.
    rewrite !chars_append in E. fold chars in E. simpl in E.
    assert (M : 0 <= y / 60) by (Z.div_mod_to_equations; lia).
    destruct (toString_nonneg _ M) as [DM (c & rest & EM)].
    destruct (Z_lt_le_dec x 0) as [Neg|Pos].
    - destruct (toString_neg x Neg) as [rest' EX].
      rewrite EX, EM in E. simpl in E. injection E as <- _.
      rewrite EM in DM. inversion DM as [|? ? D _]; subst.
      exact (not_digit_minus D).
    - destruct (toString_nonneg _ Pos) as [DX _].
      destruct (digits_split _ _ _ _ _ _ DX DM not_digit_s not_digit_m E)
        as (_ & C & _).
      discriminate. }
  intros BA BB E.
  destruct (Z_lt_le_dec a 60) as [A|A], (Z_lt_le_dec b 60) as [B|B].
  - rewrite (formatTime_small a A), (formatTime_small b B) in E.
    apply toString_inj. exact (append_inv_tail _ _ _ E).
  - destruct (Mixed a b A ltac:(lia) E).
  - destruct (Mixed b a B ltac:(lia) (eq_sym E)).
  - rewrite (formatTime_large a), (formatTime_large b) in E by lia.
    assert (MA : 0 <= a / 60) by (Z.div_mod_to_equations; lia).
    assert (MB : 0 <= b / 60) by (Z.div_mod_to_equations; lia).
    pose proof (f_equal chars E) as C. unfold chars in C.
    rewrite !(chars_append (toString _)) in C. fold chars in C.
    simpl in C.
    destruct (digits_split _ _ _ _ _ _
                (proj1 (toString_nonneg _ MA)) (proj1 (toString_nonneg _ MB))
                not_digit_m not_digit_m C) as (M & _ & R).
    apply chars_inj, toString_inj in M.
    injection R as R. apply chars_inj in R.
    apply append_inv_tail, toString_inj in R.
    rewrite (Z.div_mod a 60), (Z.div_mod b 60) by lia. congruence.
Qed.

(** X4: [formatTime] writes different whole numbers of seconds below 2^52
    in absolute value differently.  Below 60 it writes the seconds alone,
    negative ones too; from 60 on it writes whole minutes, at least one
    and not carried over into hours, and the seconds from 0 to 59 that
    remain: below 2^52 the binary64 quotient, rounded down, is the whole
    quotient. *)
Theorem formatTime_distinct :
  (forall a b,
      Z.abs a < 2 ^ 52 -> Z.abs b < 2 ^ 52 ->
      formatTime a = formatTime b -> a = b)
  /\ (forall seconds,
         - 2 ^ 52 < seconds < 60 ->
         formatTime seconds = (toString seconds ++ "s")%string)
  /\ (forall seconds,
         60 <= seconds < 2 ^ 52 ->
         exists mins secs,
           formatTime seconds
           = (toString mins ++ "m " ++ toString secs ++ "s")%string
           /\ floor (ofZ seconds / 60) = ofZ mins
           /\ 1 <= mins /\ 0 <= secs < 60
           /\ seconds = 60 * mins + secs).
Proof.
  split; [exact formatTime_inj|].
  split; [intros seconds H; apply formatTime_small; lia|].
  intros seconds H. exists (seconds / 60), (seconds mod 60).
  split; [apply formatTime_large, H|].
  split; [apply floor_quotient, H|].
  Z.div_mod_to_equations. lia.
Qed.

Example formatTime_hour : formatTime 3600 = "60m 0s"%string.
Proof. vm_compute. reflexivity. Qed.

Example formatTime_minute : formatTime 61 = "1m 1s"%string.
Proof. vm_compute. reflexivity. Qed.

(** Far beyond 2^53 the quotient is rounded before [Math.floor] sees it,
    here up to the next whole number: the minutes written are one more
    than the seconds hold. *)
Example formatTime_rounded :
  formatTime 67553994410557496 = "1125899906842625m 56s"%string
  /\ 67553994410557496 / 60 = 1125899906842624.
Proof. split; vm_compute; reflexivity. Qed.

Lemma getPositionSuffix_digit (position : Z) :
  0 <= position -> ~ (11 <= position <= 13) ->
  getPositionSuffix position
  = (toString position
     ++ match position mod 10 with
        | 1 => "st"
        | 2 => "nd"
        | 3 => "rd"
        | _ => "th"
        end)%string.
Proof.
  intros P N. unfold getPositionSuffix.
  destruct (Z.leb_spec 11 position), (Z.leb_spec position 13);
    simpl; try lia.
  all: rewrite Z.rem_mod_nonneg by lia.
  all: destruct (position mod 10) as [|[[?|?|]|[?|?|]|]|?]; reflexivity.
Qed.

(** X5: [getPositionSuffix] writes the place and, from 0 to 110 and wherever
    the last two digits are not 11, 12 or 13, the suffix of the English
    ordinal; the teens of the later hundreds get the suffix of their last
    digit (111st, 212nd, 313rd), and a negative place gets th. *)
Theorem getPositionSuffix_ordinal (position : Z) :
  (0 <= position ->
   (getPositionSuffix position
    = (toString position ++ ordinal position)%string
    <-> ~ (100 <= position /\ 11 <= position mod 100 <= 13)))
  /\ (position < 0 ->
      getPositionSuffix position = (toString position ++ "th")%string).
Proof.
  split.
  - intros P. unfold ordinal.
    destruct (Z_le_dec 11 position) as [L|L];
      [destruct (Z_le_dec position 13) as [U|U]|].
    + (* 11, 12, 13 *)
      assert (M : position mod 100 = position)
        by (apply Z.mod_small; lia).
      unfold getPositionSuffix. rewrite M.
      destruct (Z.leb_spec 11 position), (Z.leb_spec position 13);
        try lia. simpl. split; [lia | reflexivity].
    + rewrite (getPositionSuffix_digit position P) by lia.
      assert (D : position mod 10 = (position mod 100) mod 10)
        by (Z.div_mod_to_equations; lia).
      assert (B : 0 <= position mod 100 < 100)
        by (apply Z.mod_pos_bound; lia).
      destruct (Z.leb_spec 11 (position mod 100)) as [T1|T1];
        [destruct (Z.leb_spec (position mod 100) 13) as [T2|T2]|];
        simpl.
      * (* a teen of a later hundred *)
        assert (H : 100 <= position) by (Z.div_mod_to_equations; lia).
        assert (C : position mod 100 = 11 \/ position mod 100 = 12
                    \/ position mod 100 = 13) by lia.
        split; [|intros X; exfalso; apply X; lia].
        intros E. apply append_inv_head in E. exfalso.
        rewrite D in E.
        destruct C as [C|[C|C]]; rewrite C in E; discriminate.
      * split; [lia | reflexivity].
      * split; [lia | reflexivity].
    + rewrite (getPositionSuffix_digit position P) by lia.
      assert (M : position mod 100 = position)
        by (apply Z.mod_small; lia).
      rewrite M.
      destruct (Z.leb_spec 11 position); [lia|]. simpl.
      split; [lia | reflexivity].
  - intros N. unfold getPositionSuffix.
    destruct (Z.leb_spec 11 position); [lia|]. simpl.
    assert (B : -10 < Z.rem position 10 <= 0)
      by (Z.quot_rem_to_equations; lia).
    destruct (Z.rem position 10) as [|p|p]; try lia; reflexivity.
Qed.

Example getPositionSuffix_samples :
  map getPositionSuffix [1; 2; 3; 4; 11; 12; 13; 21; 101; 111; 112; -1]
  = ["1st"; "2nd"; "3rd"; "4th"; "11th"; "12th"; "13th"; "21st"; "101st";
     "111st"; "112nd"; "-1th"]%string.
Proof. reflexivity. Qed.
End Numerals.

(** ** client/src/lib/utils/quiz.ts: where the bonus of [calculateScore]
       starts and stops decaying *)

Section Thresholds.

Lemma SFltb_leb (a b : spec_float) : SFltb a b = true -> SFleb a b = true.
Proof.
  unfold SFltb, SFleb. destruct (SFcompare a b) as [[| |]|]; congruence.
Qed.

Lemma SFltb_leb_trans (a b c : spec_float) :
  SFltb a b = true -> SFleb b c = true -> SFleb a c = true.
Proof.
  unfold SFleb, SFltb.
  destruct a as [sa|sa| |sa ma ea], b as [sb|sb| |sb mb eb],
           c as [sc|sc| |sc mc ec];
    try destruct sa; try destruct sb; try destruct sc;
    unfold SFcompare; try congruence; try reflexivity.
  all: change (Pos.compare_cont Eq) with Pos.compare.
  all: destruct (Z.compare_spec ea eb), (Z.compare_spec eb ec),
         (Z.compare_spec ea ec); try congruence; try lia.
  all: try (destruct (Pos.compare_spec ma mb), (Pos.compare_spec mb mc),
         (Pos.compare_spec ma mc); simpl; try congruence; lia).
Qed.

(** A positive float that is not at most another is at least the next
    one. *)
Lemma SFleb_next (m0 m : positive) (e0 e : Z) :
  SFleb (S754_finite false m e) (S754_finite false m0 e0) = false ->
  SFleb (S754_finite false (m0 + 1) e0) (S754_finite false m e) = true.
Proof.
  unfold SFleb, SFcompare.
  change (Pos.compare_cont Eq) with Pos.compare.
  destruct (Z.compare_spec e e0), (Z.compare_spec e0 e);
    try congruence; try lia; try reflexivity.
  destruct (Pos.compare_spec m m0), (Pos.compare_spec (m0 + 1) m);
    try congruence; try lia; reflexivity.
Qed.

Local Open Scope float_scope.

Lemma ofZ_le_inv (a b : Z) :
  (0 <= a <= 150)%Z -> (0 <= b <= 150)%Z ->
  (ofZ a <=? ofZ b) = true -> (a <= b)%Z.
Proof.
  intros A B H. rewrite leb_ofZ in H by (apply safe_small; lia).
  apply Z.leb_le, H.
Qed.

(** In the window, a time beyond [c] is at least the next binary64 value
    after [c]. *)
Lemma window_next (t c : float) (m0 : positive) (e0 : Z) :
  inDecayWindow t -> Prim2SF c = S754_finite false m0 e0 ->
  (t <=? c) = false ->
  SFleb (S754_finite false (m0 + 1) e0) (Prim2SF t) = true.
Proof.
  intros W C H. rewrite leb_spec, C in H.
  destruct (window_Prim2SF t W) as (N & _ & _).
  destruct (Prim2SF t) as [[|]|[|]| |[|] m e]; try contradiction.
  - discriminate H.
  - apply SFleb_next, H.
Qed.

(** X6: A correct answer scores the full 150 up to 5000 ms and less from the
    next binary64 value on; it scores more than the base 100 up to 9900 ms
    and the base 100 beyond, as it does when the response time is not a
    number. *)
Theorem calculateScore_thresholds (t : float) :
  ((t <=? 5000) = true -> calculateScore true t = 150)
  /\ ((t <=? 5000) = false -> (calculateScore true t <=? 149) = true)
  /\ ((t <=? 9900) = true -> (101 <=? calculateScore true t) = true)
  /\ ((t <=? 9900) = false -> calculateScore true t = 100).
Proof.
  destruct (calculateScore_whole t) as (k & E & K).
  assert (V150 : calculateScore true 5000 = ofZ 150)
    by (vm_compute; reflexivity).
  assert (V149 : calculateScore true (next_up 5000) = ofZ 149)
    by (vm_compute; reflexivity).
  assert (V101 : calculateScore true 9900 = ofZ 101)
    by (vm_compute; reflexivity).
  assert (V100 : calculateScore true (next_up 9900) = ofZ 100)
    by (vm_compute; reflexivity).
  assert (L150 : 150 = ofZ 150) by (vm_compute; reflexivity).
  assert (L149 : 149 = ofZ 149) by (vm_compute; reflexivity).
  assert (L101 : 101 = ofZ 101) by (vm_compute; reflexivity).
  assert (L100 : 100 = ofZ 100) by (vm_compute; reflexivity).
  assert (Le : forall a b, (0 <= a <= 150)%Z -> (0 <= b <= 150)%Z ->
                 (a <= b)%Z -> (ofZ a <=? ofZ b) = true).
  { intros a b A B H. rewrite leb_ofZ by (apply safe_small; lia).
    apply Z.leb_le, H. }
  assert (Fast : (t <? 5000) = true -> (t <=? 5000) = true).
  { rewrite ltb_spec, leb_spec. apply SFltb_leb. }
  assert (Fast' : (t <? 5000) = true -> (t <=? 9900) = true).
  { rewrite ltb_spec, !leb_spec. intros H.
    apply (SFltb_leb_trans _ _ _ H). vm_compute. reflexivity. }
  repeat split.
  - (* up to 5000 ms *)
    intros H. pose proof (calculateScore_slower t 5000 H) as S.
    rewrite V150, E in S. apply ofZ_le_inv in S; try lia.
    rewrite E, L150. f_equal. lia.
  - (* beyond 5000 ms *)
    intros H. rewrite E, L149.
    destruct (t <? 5000) eqn:A; [rewrite (Fast eq_refl) in H; discriminate|].
    destruct (t <? 10000) eqn:B.
    + assert (N : (next_up 5000 <=? t) = true).
      { rewrite leb_spec.
        replace (Prim2SF (next_up 5000))
          with (S754_finite false (5497558138880000 + 1) (-40))
          by (vm_compute; reflexivity).
        apply (window_next t 5000); [split; assumption | | exact H].
        vm_compute. reflexivity. }
      pose proof (calculateScore_slower _ _ N) as S.
      rewrite V149, E in S. exact S.
    + rewrite (calculateScore_slow t A B) in E.
      apply ofZ_inj in E; try (apply safe_small; lia).
      apply Le; lia.
  - (* up to 9900 ms *)
    intros H. pose proof (calculateScore_slower t 9900 H) as S.
    rewrite V101, E in S. rewrite E, L101. exact S.
  - (* beyond 9900 ms, or not a number *)
    intros H. rewrite L100.
    destruct (t <? 5000) eqn:A;
      [rewrite (Fast' eq_refl) in H; discriminate|].
    destruct (t <? 10000) eqn:B; [|apply calculateScore_slow; assumption].
    assert (N : (next_up 9900 <=? t) = true).
    { rewrite leb_spec.
      replace (Prim2SF (next_up 9900))
        with (S754_finite false (5442582557491200 + 1) (-39))
        by (vm_compute; reflexivity).
      apply (window_next t 9900); [split; assumption | | exact H].
      vm_compute. reflexivity. }
    pose proof (calculateScore_slower _ _ N) as S.
    rewrite V100, E in S. apply ofZ_le_inv in S; try lia.
    rewrite E. f_equal. lia.
Qed.

(** Not a number, and the two infinities. *)
Example calculateScore_not_finite :
  calculateScore true nan = 100 /\ calculateScore true infinity = 100
  /\ calculateScore true neg_infinity = 150.
Proof. repeat split; vm_compute; reflexivity. Qed.
End Thresholds.

(** ** server/storage.ts: the keys of the store *)

Section StoreOrder.
Import MemStorage Store.

Ltac same_fields := repeat split; try reflexivity; exists []; reflexivity.

Ltac each_map :=
  unfold ordered; refine (conj _ (conj _ (conj _ (conj _ _)))); simpl.

Lemma pruned_refl st : pruned st st.
Proof. same_fields. Qed.

Lemma pruned_trans st1 st2 st3 :
  pruned st1 st2 -> pruned st2 st3 -> pruned st1 st3.
Proof.
  intros (A1 & B1 & C1 & D1 & E1 & F1 & [k1 G1] & [l1 H1] & [m1 I1]
          & [n1 J1])
         (A2 & B2 & C2 & D2 & E2 & F2 & [k2 G2] & [l2 H2] & [m2 I2]
          & [n2 J2]).
  repeat split; try congruence.
  - exists (k1 ++ k2). rewrite deleteAll_app, <- G1. exact G2.
  - exists (l1 ++ l2). rewrite deleteAll_app, <- H1. exact H2.
  - exists (m1 ++ m2). rewrite deleteAll_app, <- I1. exact I2.
  - exists (n1 ++ n2). rewrite deleteAll_app, <- J1. exact J2.
Qed.

Lemma forEach_pruned {A} (xs : list A) (body : A -> M unit) :
  (forall x st, pruned st (snd (body x st))) ->
  forall st, pruned st (snd (forEach xs body st)).
Proof.
  intros B. induction xs as [|x xs IH]; intros st; simpl.
  - apply pruned_refl.
  - unfold bind. specialize (B x st). destruct (body x st) as [u st1].
    eapply pruned_trans; [exact B | apply IH].
Qed.

Lemma deleteAnswerById_pruned id st : pruned st (snd (deleteAnswerById id st)).
Proof.
  unfold_store. repeat split; try reflexivity;
    [exists [] | exists [] | exists [] | exists [id]]; reflexivity.
Qed.

Lemma deleteQuestion_pruned id st : pruned st (snd (deleteQuestion id st)).
Proof.
  unfold deleteQuestion, bind at 1 2.
  destruct (getAnswersByQuestion id st) as [l st0] eqn:E0.
  assert (st0 = st) by (unfold_store; congruence). subst st0.
  pose proof (forEach_pruned l
    (fun answer => deleteAnswerById (Answer.id answer))
    (fun x s => deleteAnswerById_pruned _ s) st) as S.
  destruct (forEach l _ st) as [u st1]. simpl in S.
  eapply pruned_trans; [exact S|]. unfold_store.
  repeat split; try reflexivity;
    [exists [] | exists [id] | exists [] | exists []]; reflexivity.
Qed.

Lemma deleteQuiz_pruned id st : pruned st (snd (deleteQuiz id st)).
Proof.
  unfold deleteQuiz, bind at 1 2.
  destruct (getQuestionsByQuiz id st) as [qs st0] eqn:E0.
  assert (st0 = st) by (unfold_store; congruence). subst st0.
  assert (S1 : pruned st (snd (forEach qs (fun question =>
             deleteQuestion (Question.id question) ;; ret tt)%storage st))).
  { apply forEach_pruned. intros x s. unfold bind, ret.
    pose proof (deleteQuestion_pruned (Question.id x) s) as D.
    destruct (deleteQuestion (Question.id x) s). exact D. }
  destruct (forEach qs _ st) as [u st1]. simpl in S1.
  unfold bind at 1.
  destruct (getParticipantsByQuiz id st1) as [ps st0] eqn:E1.
  assert (st0 = st1) by (unfold_store; congruence). subst st0.
  unfold bind at 1.
  match goal with |- context [forEach ps ?b st1] =>
    assert (S2 : pruned st1 (snd (forEach ps b st1))) end.
  { apply forEach_pruned. intros x s. unfold bind at 1 2.
    destruct (getAnswersByParticipant (Participant.id x) s) as [l s0] eqn:E2.
    assert (s0 = s) by (unfold_store; congruence). subst s0.
    pose proof (forEach_pruned l
      (fun answer => deleteAnswerById (Answer.id answer))
      (fun x s => deleteAnswerById_pruned _ s) s) as S.
    destruct (forEach l _ s) as [u' s1]. simpl in S.
    eapply pruned_trans; [exact S|]. unfold_store.
    repeat split; try reflexivity;
      [exists [] | exists [] | exists [Participant.id x] | exists []];
      reflexivity. }
  destruct (forEach ps _ st1) as [u2 st2]. simpl in S2.
  eapply pruned_trans; [exact S1|]. eapply pruned_trans; [exact S2|].
  unfold_store.
  repeat split; try reflexivity;
    [exists [id] | exists [] | exists [] | exists []]; reflexivity.
Qed.

Lemma ordered_pruned st st' : pruned st st' -> ordered st -> ordered st'.
Proof.
  intros (A & B & C & D & E & F & [k G] & [l H] & [m I] & [n J])
         (O1 & O2 & O3 & O4 & O5).
  unfold ordered. rewrite A, B, C, D, E, F, G, H, I, J.
  each_map; try assumption; apply ascending_deleteAll; assumption.
Qed.

(** What the other writing calls leave. *)
Lemma createAdmin_eq admin st :
  createAdmin admin st =
  (let newAdmin :=
     Admin.mk (adminId st) (InsertAdmin.username admin)
       (InsertAdmin.password admin) in
   (newAdmin,
    mk (JSMap.set (adminId st) newAdmin (admins st)) (quizzes st)
       (questions st) (participants st) (answers st) (adminId st + 1)
       (quizId st) (questionId st) (participantId st) (answerId st))).
Proof. reflexivity. Qed.

Lemma createQuiz_eq quiz now st :
  createQuiz quiz now st =
  (let newQuiz := fst (createQuiz quiz now st) in
   (newQuiz,
    mk (admins st) (JSMap.set (quizId st) newQuiz (quizzes st))
       (questions st) (participants st) (answers st) (adminId st)
       (quizId st + 1) (questionId st) (participantId st) (answerId st))).
Proof. reflexivity. Qed.

Lemma createQuiz_id quiz now st :
  Quiz.id (fst (createQuiz quiz now st)) = quizId st.
Proof. reflexivity. Qed.

Lemma createQuestion_eq question st :
  createQuestion question st =
  (let newQuestion :=
     Question.mk (questionId st) (InsertQuestion.quizId question)
       (InsertQuestion.text question) (InsertQuestion.options question)
       (InsertQuestion.order question) in
   (newQuestion,
    mk (admins st) (quizzes st)
       (JSMap.set (questionId st) newQuestion (questions st))
       (participants st) (answers st) (adminId st) (quizId st)
       (questionId st + 1) (participantId st) (answerId st))).
Proof. reflexivity. Qed.

Lemma updateQuiz_eq id quiz st :
  updateQuiz id quiz st =
  match JSMap.get id (quizzes st) with
  | Some existing =>
      (Some (spreadQuiz existing quiz),
       withQuizzes (JSMap.set id (spreadQuiz existing quiz) (quizzes st))
         st)
  | None => (None, st)
  end.
Proof.
  unfold updateQuiz, bind, read, ret, setQuizzes.
  destruct (JSMap.get id (quizzes st)); reflexivity.
Qed.

Lemma updateQuestion_eq id question st :
  updateQuestion id question st =
  match JSMap.get id (questions st) with
  | Some existing =>
      (Some (spreadQuestion existing question),
       withQuestions
         (JSMap.set id (spreadQuestion existing question) (questions st))
         st)
  | None => (None, st)
  end.
Proof.
  unfold updateQuestion, bind, read, ret, setQuestions.
  destruct (JSMap.get id (questions st)); reflexivity.
Qed.

(** [createAnswer], field by field. *)
Lemma createAnswer_fields answer st :
  let st' := snd (createAnswer answer st) in
  admins st' = admins st /\ quizzes st' = quizzes st
  /\ questions st' = questions st
  /\ answers st'
     = JSMap.set (answerId st) (newAnswerOf answer st) (answers st)
  /\ adminId st' = adminId st /\ quizId st' = quizId st
  /\ questionId st' = questionId st
  /\ participantId st' = participantId st
  /\ answerId st' = answerId st + 1.
Proof.
  rewrite createAnswer_eq. simpl.
  destruct (JSMap.get (InsertAnswer.participantId answer) (participants st))
    as [p|]; [|repeat split].
  rewrite updateParticipant_eq. simpl.
  destruct (JSMap.get (Participant.id p) (participants st));
    repeat split.
Qed.

Lemma ordered_run c st : ordered st -> ordered (run c st).
Proof.
  intros O. pose proof O as (O1 & O2 & O3 & O4 & O5).
  destruct c; unfold run.
  - rewrite createAdmin_eq. each_map; try assumption;
      apply ascending_set_next, O1.
  - rewrite createQuiz_eq. each_map; try assumption;
      apply ascending_set_next, O2.
  - rewrite updateQuiz_eq.
    destruct (JSMap.get id (quizzes st)) eqn:G; simpl; [|exact O].
    each_map; try assumption.
    all: eapply ascending_set_present; eassumption.
  - eapply ordered_pruned; [apply deleteQuiz_pruned | exact O].
  - rewrite createQuestion_eq. each_map; try assumption;
      apply ascending_set_next, O3.
  - rewrite updateQuestion_eq.
    destruct (JSMap.get id (questions st)) eqn:G; simpl; [|exact O].
    each_map; try assumption.
    all: eapply ascending_set_present; eassumption.
  - eapply ordered_pruned; [apply deleteQuestion_pruned | exact O].
  - rewrite createParticipant_eq. each_map; try assumption;
      apply ascending_set_next, O4.
  - rewrite updateParticipant_eq.
    destruct (JSMap.get id (participants st)) eqn:G; simpl; [|exact O].
    each_map; try assumption.
    all: eapply ascending_set_present; eassumption.
  - pose proof (wf_run (CreateAnswer answer) st (conj O4 O5)) as [W4 W5].
    destruct (createAnswer_fields answer st)
      as (A & B & C & _ & E & F & G & _ & _).
    unfold run in W4, W5. unfold ordered.
    rewrite A, B, C, E, F, G. each_map; assumption.
Qed.

Lemma ordered_empty : ordered empty.
Proof. each_map; apply ascending_empty. Qed.

Lemma reachable_ordered st : reachable st -> ordered st.
Proof.
  induction 1 as [|c st R IH]; [apply ordered_empty | apply ordered_run, IH].
Qed.

(** No call lowers a counter. *)
Lemma counters_run c st :
  adminId st <= adminId (run c st) /\ quizId st <= quizId (run c st)
  /\ questionId st <= questionId (run c st)
  /\ participantId st <= participantId (run c st)
  /\ answerId st <= answerId (run c st).
Proof.
  destruct c; unfold run.
  - rewrite createAdmin_eq. simpl. lia.
  - rewrite createQuiz_eq. simpl. lia.
  - rewrite updateQuiz_eq. destruct (JSMap.get id (quizzes st)); simpl; lia.
  - destruct (deleteQuiz_pruned id st) as (_ & B & C & D & E & F & _). lia.
  - rewrite createQuestion_eq. simpl. lia.
  - rewrite updateQuestion_eq.
    destruct (JSMap.get id (questions st)); simpl; lia.
  - destruct (deleteQuestion_pruned id st) as (_ & B & C & D & E & F & _).
    lia.
  - rewrite createParticipant_eq. simpl. lia.
  - rewrite updateParticipant_eq.
    destruct (JSMap.get id (participants st)); simpl; lia.
  - destruct (createAnswer_fields answer st)
      as (_ & _ & _ & _ & E & F & G & H & I). lia.
Qed.

Lemma counters_runs cs st :
  adminId st <= adminId (runs cs st) /\ quizId st <= quizId (runs cs st)
  /\ questionId st <= questionId (runs cs st)
  /\ participantId st <= participantId (runs cs st)
  /\ answerId st <= answerId (runs cs st).
Proof.
  revert st. induction cs as [|c cs IH]; intros st; simpl; [lia|].
  pose proof (counters_run c st). pose proof (IH (run c st)). lia.
Qed.

(** X8: An id is handed out once: the record a create call returns has an id
    under which the store holds nothing, and whatever is called afterwards,
    deletions too, a later create call of the same kind returns a larger id. *)
Theorem ids_fresh_and_increasing (st : t) (later : list call) :
  reachable st ->
  (forall admin admin',
      fst (getAdmin (Admin.id (fst (createAdmin admin st))) st) = None
      /\ Admin.id (fst (createAdmin admin st))
         < Admin.id (fst (createAdmin admin'
                            (runs later (run (CreateAdmin admin) st)))))
  /\ (forall quiz now quiz' now',
        fst (getQuiz (Quiz.id (fst (createQuiz quiz now st))) st) = None
        /\ Quiz.id (fst (createQuiz quiz now st))
           < Quiz.id (fst (createQuiz quiz' now'
                             (runs later (run (CreateQuiz quiz now) st)))))
  /\ (forall question question',
        fst (getQuestion (Question.id (fst (createQuestion question st)))
               st) = None
        /\ Question.id (fst (createQuestion question st))
           < Question.id
               (fst (createQuestion question'
                       (runs later (run (CreateQuestion question) st)))))
  /\ (forall participant now participant' now',
        fst (getParticipant
               (Participant.id (fst (createParticipant participant now st)))
               st) = None
        /\ Participant.id (fst (createParticipant participant now st))
           < Participant.id
               (fst (createParticipant participant' now'
                       (runs later
                          (run (CreateParticipant participant now) st)))))
  /\ (forall answer answer',
        fst (getAnswer (Answer.id (fst (createAnswer answer st))) st) = None
        /\ Answer.id (fst (createAnswer answer st))
           < Answer.id
               (fst (createAnswer answer'
                       (runs later (run (CreateAnswer answer) st))))).
Proof.
  intros R. destruct (reachable_ordered st R) as (O1 & O2 & O3 & O4 & O5).
  assert (I1 : forall a s, Admin.id (fst (createAdmin a s)) = adminId s)
    by reflexivity.
  assert (I2 : forall a n s, Quiz.id (fst (createQuiz a n s)) = quizId s)
    by reflexivity.
  assert (I3 : forall a s,
             Question.id (fst (createQuestion a s)) = questionId s)
    by reflexivity.
  assert (I4 : forall a n s,
             Participant.id (fst (createParticipant a n s))
             = participantId s) by reflexivity.
  assert (I5 : forall a s, Answer.id (fst (createAnswer a s)) = answerId s)
    by (intros; rewrite createAnswer_eq; reflexivity).
  repeat split.
  - rewrite I1. apply (ascending_fresh _ _ O1).
  - rewrite !I1.
    pose proof (counters_runs later (run (CreateAdmin admin) st)) as C.
    assert (E : adminId (run (CreateAdmin admin) st) = adminId st + 1)
      by reflexivity.
    lia.
  - rewrite I2. apply (ascending_fresh _ _ O2).
  - rewrite !I2.
    pose proof (counters_runs later (run (CreateQuiz quiz now) st)) as C.
    assert (E : quizId (run (CreateQuiz quiz now) st) = quizId st + 1)
      by reflexivity.
    lia.
  - rewrite I3. apply (ascending_fresh _ _ O3).
  - rewrite !I3.
    pose proof (counters_runs later (run (CreateQuestion question) st))
      as C.
    assert (E : questionId (run (CreateQuestion question) st)
                = questionId st + 1) by reflexivity.
    lia.
  - rewrite I4. apply (ascending_fresh _ _ O4).
  - rewrite !I4.
    pose proof (counters_runs later
                  (run (CreateParticipant participant now) st)) as C.
    assert (E : participantId (run (CreateParticipant participant now) st)
                = participantId st + 1) by reflexivity.
    lia.
  - rewrite I5. apply (ascending_fresh _ _ O5).
  - rewrite !I5.
    pose proof (counters_runs later (run (CreateAnswer answer) st)) as C.
    destruct (createAnswer_fields answer st)
      as (_ & _ & _ & _ & _ & _ & _ & _ & E).
    assert (E' : answerId (run (CreateAnswer answer) st) = answerId st + 1)
      by exact E.
    lia.
Qed.

Lemma ids_fresh_and_increasing_witness :
  let st := Sample.lobby in
  let later := [DeleteQuiz 1] in
  (forall admin admin',
      fst (getAdmin (Admin.id (fst (createAdmin admin st))) st) = None
      /\ Admin.id (fst (createAdmin admin st))
         < Admin.id (fst (createAdmin admin'
                            (runs later (run (CreateAdmin admin) st)))))
  /\ (forall quiz now quiz' now',
        fst (getQuiz (Quiz.id (fst (createQuiz quiz now st))) st) = None
        /\ Quiz.id (fst (createQuiz quiz now st))
           < Quiz.id (fst (createQuiz quiz' now'
                             (runs later (run (CreateQuiz quiz now) st)))))
  /\ (forall question question',
        fst (getQuestion (Question.id (fst (createQuestion question st)))
               st) = None
        /\ Question.id (fst (createQuestion question st))
           < Question.id
               (fst (createQuestion question'
                       (runs later (run (CreateQuestion question) st)))))
  /\ (forall participant now participant' now',
        fst (getParticipant
               (Participant.id (fst (createParticipant participant now st)))
               st) = None
        /\ Participant.id (fst (createParticipant participant now st))
           < Participant.id
               (fst (createParticipant participant' now'
                       (runs later
                          (run (CreateParticipant participant now) st)))))
  /\ (forall answer answer',
        fst (getAnswer (Answer.id (fst (createAnswer answer st))) st) = None
        /\ Answer.id (fst (createAnswer answer st))
           < Answer.id
               (fst (createAnswer answer'
                       (runs later (run (CreateAnswer answer) st))))).
Proof.
  exact (ids_fresh_and_increasing Sample.lobby [DeleteQuiz 1]
           reachable_lobby).
Defined.
End StoreOrder.

(** ** server/storage.ts: creating, finding and updating records *)

Section StoreLookups.
Import MemStorage Store.

Lemma values_set_fresh {V : Type} (k : Z) (v : V) (m : JSMap.t V) :
  JSMap.get k m = None ->
  JSMap.values (JSMap.set k v m) = JSMap.values m ++ [v].
Proof.
  intros H. rewrite (set_fresh _ _ _ H). unfold JSMap.values.
  rewrite map_app. reflexivity.
Qed.

Lemma set_same {V : Type} (k : Z) (v : V) (m : JSMap.t V) :
  JSMap.get k m = Some v -> JSMap.set k v m = m.
Proof.
  induction m as [|[k' v'] m IH]; simpl; [discriminate|].
  destruct (Z.eqb_spec k' k) as [->|N]; intros H.
  - congruence.
  - rewrite (IH H). reflexivity.
Qed.

Lemma find_snoc {A : Type} (f : A -> bool) (l : list A) (x : A) :
  find f (l ++ [x]) =
  match find f l with
  | Some y => Some y
  | None => if f x then Some x else None
  end.
Proof.
  induction l as [|y l IH]; simpl; [reflexivity|].
  destruct (f y); [reflexivity | exact IH].
Qed.

Lemma get_app {V : Type} (k : Z) (m more : JSMap.t V) :
  JSMap.get k (m ++ more) =
  match JSMap.get k m with
  | Some v => Some v
  | None => JSMap.get k more
  end.
Proof.
  induction m as [|[k' v'] m IH]; simpl; [reflexivity|].
  destruct (k' =? k); [reflexivity | exact IH].
Qed.

(** A new quiz goes last. *)
Lemma createQuiz_appends st quiz now :
  reachable st ->
  quizzes (snd (createQuiz quiz now st))
  = quizzes st ++ [(quizId st, fst (createQuiz quiz now st))].
Proof.
  intros R. destruct (reachable_ordered st R) as (_ & O2 & _).
  rewrite createQuiz_eq. simpl.
  apply set_fresh, (ascending_fresh _ _ O2).
Qed.

(** X9: [createQuiz] stores the quiz under its new id, where [getQuiz] finds
    it, last in the list of its admin and with no other quiz touched; the
    time per question is never 0 and the status never empty. The code is not
    checked: when a stored quiz has it already, the new quiz is stored all
    the same and [getQuizByCode] goes on returning the older one. *)
Theorem createQuiz_stored (st : t) (quiz : InsertQuiz.t) (now : Z) :
  reachable st ->
  let newQuiz := fst (createQuiz quiz now st) in
  let st' := snd (createQuiz quiz now st) in
  fst (getQuiz (Quiz.id newQuiz) st') = Some newQuiz
  /\ (forall id, id <> Quiz.id newQuiz ->
                 fst (getQuiz id st') = fst (getQuiz id st))
  /\ fst (getQuizzesByAdmin (InsertQuiz.adminId quiz) st')
     = fst (getQuizzesByAdmin (InsertQuiz.adminId quiz) st) ++ [newQuiz]
  /\ Quiz.timePerQuestion newQuiz <> 0
  /\ Quiz.status newQuiz <> EmptyString
  /\ fst (getQuizByCode (InsertQuiz.code quiz) st')
     = match fst (getQuizByCode (InsertQuiz.code quiz) st) with
       | Some older => Some older
       | None => Some newQuiz
       end.
Proof.
  intros R newQuiz st'.
  destruct (reachable_ordered st R) as (_ & O2 & _).
  pose proof (ascending_fresh _ _ O2) as F.
  assert (Q : quizzes st' = JSMap.set (quizId st) newQuiz (quizzes st))
    by reflexivity.
  assert (I : Quiz.id newQuiz = quizId st) by reflexivity.
  assert (V : JSMap.values (quizzes st')
              = JSMap.values (quizzes st) ++ [newQuiz])
    by (rewrite Q; apply values_set_fresh, F).
  assert (G1 : forall id s, fst (getQuiz id s) = JSMap.get id (quizzes s))
    by reflexivity.
  assert (G2 : forall a s,
             fst (getQuizzesByAdmin a s)
             = filter (fun quiz => Quiz.adminId quiz =? a)
                 (JSMap.values (quizzes s))) by reflexivity.
  assert (G3 : forall c s,
             fst (getQuizByCode c s)
             = find (fun quiz => String.eqb (Quiz.code quiz) c)
                 (JSMap.values (quizzes s))) by reflexivity.
  rewrite !G1, !G2, !G3, V, Q, I. repeat split.
  - apply get_set_same.
  - intros id N. rewrite G1, Q. apply get_set_other. exact N.
  - rewrite filter_app. simpl. rewrite Z.eqb_refl. reflexivity.
  - unfold newQuiz, createQuiz, bind, ret, read, nextQuizId. simpl.
    destruct (InsertQuiz.timePerQuestion quiz) as [[|p|p]|]; discriminate.
  - unfold newQuiz, createQuiz, bind, ret, read, nextQuizId. simpl.
    destruct (InsertQuiz.status quiz) as [[|c s]|]; discriminate.
  - rewrite find_snoc.
    destruct (find _ (JSMap.values (quizzes st))); [reflexivity|].
    simpl. rewrite String.eqb_refl. reflexivity.
Qed.

Lemma createQuiz_stored_witness :
  let quiz := InsertQuiz.mk 1 "Third quiz" (Some 0) None "ABCDEF" in
  let newQuiz := fst (createQuiz quiz 9 Sample.lobby) in
  let st' := snd (createQuiz quiz 9 Sample.lobby) in
  fst (getQuiz (Quiz.id newQuiz) st') = Some newQuiz
  /\ (forall id, id <> Quiz.id newQuiz ->
                 fst (getQuiz id st') = fst (getQuiz id Sample.lobby))
  /\ fst (getQuizzesByAdmin (InsertQuiz.adminId quiz) st')
     = fst (getQuizzesByAdmin (InsertQuiz.adminId quiz) Sample.lobby)
       ++ [newQuiz]
  /\ Quiz.timePerQuestion newQuiz <> 0
  /\ Quiz.status newQuiz <> EmptyString
  /\ fst (getQuizByCode (InsertQuiz.code quiz) st')
     = match fst (getQuizByCode (InsertQuiz.code quiz) Sample.lobby) with
       | Some older => Some older
       | None => Some newQuiz
       end.
Proof.
  exact (createQuiz_stored Sample.lobby
           (InsertQuiz.mk 1 "Third quiz" (Some 0) None "ABCDEF") 9
           reachable_lobby).
Defined.

(** A quiz created with a code in use: the code still leads to the older
    quiz; the missing status and the time 0 are replaced. *)
Example createQuiz_duplicate_code :
  let quiz := InsertQuiz.mk 1 "Third quiz" (Some 0) None "ABCDEF" in
  fst (createQuiz quiz 9 Sample.lobby)
  = Quiz.mk 3 1 "Third quiz" 15 "draft" "ABCDEF" 9
  /\ fst (getQuizByCode "ABCDEF" (snd (createQuiz quiz 9 Sample.lobby)))
     = Some (Quiz.mk 2 1 "Second quiz" 15 "draft" "ABCDEF" 8).
Proof. split; vm_compute; reflexivity. Qed.

(** [generateQuizCode] only reads, and the code it returns is free. *)
Lemma generateQuizCode_rec_free fuel :
  forall draws st code rest,
    fst (generateQuizCode_rec fuel draws st) = Some (code, rest) ->
    taken code st = false /\ snd (generateQuizCode_rec fuel draws st) = st.
Proof.
  induction fuel as [|fuel IH]; intros draws st code rest H.
  - discriminate.
  - rewrite generateQuizCode_rec_eq in *.
    destruct (6 <=? List.length draws)%nat; [|discriminate].
    destruct (taken (codeOf (firstn 6 draws)) st) eqn:T.
    + exact (IH _ _ _ _ H).
    + simpl in H. injection H as <- <-. split; [exact T | reflexivity].
Qed.

(** X10: A code from [generateQuizCode], given to [createQuiz], leads to the
    quiz just created: [getQuizByCode] returns that quiz, and no other quiz
    has the code. *)
Theorem generated_code_leads_to_new_quiz
  (st : t) (draws rest : list nat) (code : string)
  (quiz : InsertQuiz.t) (now : Z) :
  reachable st ->
  fst (generateQuizCode draws st) = Some (code, rest) ->
  InsertQuiz.code quiz = code ->
  let st1 := snd (generateQuizCode draws st) in
  let newQuiz := fst (createQuiz quiz now st1) in
  let st' := snd (createQuiz quiz now st1) in
  st1 = st
  /\ fst (getQuizByCode code st') = Some newQuiz
  /\ (forall id other,
        fst (getQuiz id st') = Some other -> Quiz.code other = code ->
        id = Quiz.id newQuiz).
Proof.
  intros R G C st1 newQuiz st'.
  destruct (generateQuizCode_rec_free _ _ _ _ _ G) as [T S].
  fold (generateQuizCode draws st) in S. fold st1 in S.
  split; [exact S|].
  assert (R1 : reachable st1) by (rewrite S; exact R).
  pose proof (createQuiz_appends st1 quiz now R1) as Q.
  fold newQuiz st' in Q.
  assert (T' : taken code st1 = false) by (rewrite S; exact T).
  assert (G1 : forall id s, fst (getQuiz id s) = JSMap.get id (quizzes s))
    by reflexivity.
  assert (G3 : forall c s,
             fst (getQuizByCode c s)
             = find (fun quiz => String.eqb (Quiz.code quiz) c)
                 (JSMap.values (quizzes s))) by reflexivity.
  assert (C' : Quiz.code newQuiz = code) by exact C.
  split.
  - rewrite G3, Q. unfold JSMap.values. rewrite map_app. simpl.
    rewrite find_snoc.
    unfold taken in T'. rewrite G3 in T'. unfold JSMap.values in T'.
    destruct (find _ (map snd (quizzes st1))); [discriminate|].
    rewrite C', String.eqb_refl. reflexivity.
  - intros id other. rewrite G1, Q, get_app.
    destruct (JSMap.get id (quizzes st1)) as [older|] eqn:E.
    + intros H X. injection H as ->. exfalso.
      apply (taken_false code st1 T' other); [|exact X].
      apply get_Some_In in E. change other with (snd (id, other)).
      apply in_map, E.
    + simpl. destruct (Z.eqb_spec (quizId st1) id) as [<-|N];
        [reflexivity | discriminate].
Qed.

Lemma generated_code_leads_to_new_quiz_witness :
  let draws := [0; 1; 2; 3; 4; 5; 6; 7; 8; 9; 10; 31; 12]%nat in
  let quiz := InsertQuiz.mk 1 "Third quiz" None None "GHJKL9" in
  let st1 := snd (generateQuizCode draws Sample.lobby) in
  let newQuiz := fst (createQuiz quiz 9 st1) in
  let st' := snd (createQuiz quiz 9 st1) in
  st1 = Sample.lobby
  /\ fst (getQuizByCode "GHJKL9" st') = Some newQuiz
  /\ (forall id other,
        fst (getQuiz id st') = Some other ->
        Quiz.code other = "GHJKL9"%string ->
        id = Quiz.id newQuiz).
Proof.
  apply (generated_code_leads_to_new_quiz Sample.lobby
           [0; 1; 2; 3; 4; 5; 6; 7; 8; 9; 10; 31; 12]%nat [12]%nat
           "GHJKL9" (InsertQuiz.mk 1 "Third quiz" None None "GHJKL9") 9).
  - exact reachable_lobby.
  - vm_compute. reflexivity.
  - reflexivity.
Defined.

Lemma spreadQuiz_none (existing : Quiz.t) :
  spreadQuiz existing PartialQuiz.none = existing.
Proof. destruct existing. reflexivity. Qed.

(** X11: [updateQuiz] of a stored quiz returns the stored record overlaid
    with the fields given, and that is what [getQuiz] returns afterwards.
    The record stays where it is: under the same key, also when an [id] is
    among the fields given, and at the same place among the quizzes. Nothing
    else in the store changes, and with no field given nothing changes at
    all. *)
Theorem updateQuiz_stored
  (st : t) (id : Z) (existing : Quiz.t) (quiz : PartialQuiz.t) :
  fst (getQuiz id st) = Some existing ->
  let updated := spreadQuiz existing quiz in
  let st' := snd (updateQuiz id quiz st) in
  fst (updateQuiz id quiz st) = Some updated
  /\ fst (getQuiz id st') = Some updated
  /\ (forall id', id' <> id ->
                  fst (getQuiz id' st') = fst (getQuiz id' st))
  /\ JSMap.keys (quizzes st') = JSMap.keys (quizzes st)
  /\ st' = withQuizzes (quizzes st') st
  /\ (forall other, PartialQuiz.id quiz = Some other ->
                    Quiz.id updated = other)
  /\ updateQuiz id PartialQuiz.none st = (Some existing, st).
Proof.
  intros G updated st'. unfold getQuiz, read in *. simpl in G.
  unfold st'. rewrite !updateQuiz_eq, G. simpl.
  repeat split.
  - apply get_set_same.
  - intros id' N. apply get_set_other. exact N.
  - eapply keys_set_present. exact G.
  - intros other E. unfold updated, spreadQuiz. simpl. rewrite E.
    reflexivity.
  - rewrite spreadQuiz_none, (set_same _ _ _ G).
    destruct st; reflexivity.
Qed.

Lemma updateQuiz_stored_witness :
  let existing := Quiz.mk 1 1 "Geography Quiz" 15 "active" "GEO123" 0 in
  let quiz :=
    PartialQuiz.mk (Some 7) None None None (Some QuizStatus.COMPLETED)
      None None in
  let updated := spreadQuiz existing quiz in
  let st' := snd (updateQuiz 1 quiz Sample.lobby) in
  fst (updateQuiz 1 quiz Sample.lobby) = Some updated
  /\ fst (getQuiz 1 st') = Some updated
  /\ (forall id', id' <> 1 ->
                  fst (getQuiz id' st') = fst (getQuiz id' Sample.lobby))
  /\ JSMap.keys (quizzes st') = JSMap.keys (quizzes Sample.lobby)
  /\ st' = withQuizzes (quizzes st') Sample.lobby
  /\ (forall other, PartialQuiz.id quiz = Some other ->
                    Quiz.id updated = other)
  /\ updateQuiz 1 PartialQuiz.none Sample.lobby
     = (Some existing, Sample.lobby).
Proof.
  apply (updateQuiz_stored Sample.lobby 1
           (Quiz.mk 1 1 "Geography Quiz" 15 "active" "GEO123" 0)
           (PartialQuiz.mk (Some 7) None None None
              (Some QuizStatus.COMPLETED) None None)).
  vm_compute. reflexivity.
Defined.

(** X12: [createAnswer] does not look for the participant before it stores
    the answer: an answer that names a participant the store does not hold
    is stored like any other, and no participant and no leaderboard changes. *)
Theorem createAnswer_unknown_participant (st : t) (answer : InsertAnswer.t) :
  reachable st ->
  fst (getParticipant (InsertAnswer.participantId answer) st) = None ->
  let newAnswer := fst (createAnswer answer st) in
  let st' := snd (createAnswer answer st) in
  fst (getAnswer (Answer.id newAnswer) st') = Some newAnswer
  /\ fst (getAnswersByParticipant (InsertAnswer.participantId answer) st')
     = fst (getAnswersByParticipant (InsertAnswer.participantId answer) st)
       ++ [newAnswer]
  /\ participants st' = participants st
  /\ (forall quizId,
        fst (getLeaderboard quizId st') = fst (getLeaderboard quizId st)).
Proof.
  intros R G newAnswer st'.
  destruct (reachable_ordered st R) as (_ & _ & _ & _ & O5).
  pose proof (ascending_fresh _ _ O5) as F.
  unfold getParticipant, read in G. simpl in G.
  assert (E : createAnswer answer st
              = (newAnswerOf answer st,
                 mk (admins st) (quizzes st) (questions st)
                    (participants st)
                    (JSMap.set (answerId st) (newAnswerOf answer st)
                       (answers st))
                    (adminId st) (quizId st) (questionId st)
                    (participantId st) (answerId st + 1))).
  { rewrite createAnswer_eq, G. reflexivity. }
  unfold newAnswer, st'. rewrite E. simpl.
  unfold getAnswer, getAnswersByParticipant, getLeaderboard,
    getParticipantsByQuiz, bind, read, ret. simpl.
  repeat split.
  - apply get_set_same.
  - rewrite (values_set_fresh _ _ _ F), filter_app. simpl.
    rewrite Z.eqb_refl. reflexivity.
Qed.

Lemma createAnswer_unknown_participant_witness :
  let answer := InsertAnswer.mk 99 1 0 true 3000 150 in
  let newAnswer := fst (createAnswer answer Sample.lobby) in
  let st' := snd (createAnswer answer Sample.lobby) in
  fst (getAnswer (Answer.id newAnswer) st') = Some newAnswer
  /\ fst (getAnswersByParticipant (InsertAnswer.participantId answer) st')
     = fst (getAnswersByParticipant (InsertAnswer.participantId answer)
              Sample.lobby)
       ++ [newAnswer]
  /\ participants st' = participants Sample.lobby
  /\ (forall quizId,
        fst (getLeaderboard quizId st')
        = fst (getLeaderboard quizId Sample.lobby)).
Proof.
  apply (createAnswer_unknown_participant Sample.lobby
           (InsertAnswer.mk 99 1 0 true 3000 150)).
  - exact reachable_lobby.
  - vm_compute. reflexivity.
Defined.
End StoreLookups.

(** ** server/storage.ts: deleting a question, deleting a quiz *)

Section MapFilter.
Context {V : Type}.
Implicit Types (m : JSMap.t V) (k : Z) (v : V).
Import Store.

Lemma filter_filter {A : Type} (f g : A -> bool) (l : list A) :
  filter f (filter g l) = filter (fun x => g x && f x) l.
Proof.
  induction l as [|x l IH]; simpl; [reflexivity|].
  destruct (g x); simpl; [destruct (f x)|]; rewrite IH; reflexivity.
Qed.

Lemma filter_all {A : Type} (f : A -> bool) (l : list A) :
  (forall x, In x l -> f x = true) -> filter f l = l.
Proof.
  induction l as [|x l IH]; simpl; intros H; [reflexivity|].
  rewrite (H x (or_introl eq_refl)), IH; [reflexivity|].
  intros y I. apply H. right. exact I.
Qed.

Lemma filter_none {A : Type} (f : A -> bool) (l : list A) :
  (forall x, In x l -> f x = false) -> filter f l = [].
Proof.
  induction l as [|x l IH]; simpl; intros H; [reflexivity|].
  rewrite (H x (or_introl eq_refl)). apply IH.
  intros y I. apply H. right. exact I.
Qed.

(** Deleting keys one after the other leaves the entries under the other
    keys, in their order. *)
Lemma deleteAll_filter (ks : list Z) m :
  JSMap.deleteAll ks m
  = filter (fun e => negb (existsb (Z.eqb (fst e)) ks)) m.
Proof.
  revert m. induction ks as [|k ks IH]; intros m; simpl.
  - symmetry. apply filter_all. reflexivity.
  - change (JSMap.deleteAll ks (JSMap.delete k m)
            = filter (fun e => negb ((fst e =? k)
                                     || existsb (Z.eqb (fst e)) ks)) m).
    rewrite IH. unfold JSMap.delete. rewrite filter_filter.
    apply filter_ext. intros e. rewrite negb_orb. reflexivity.
Qed.



Lemma keyed_filter (id : V -> Z) (g : Z * V -> bool) m :
  keyed id m -> keyed id (filter g m).
Proof.
  unfold keyed. rewrite !Forall_forall. intros K e I.
  apply filter_In in I. apply K, I.
Qed.

Lemma keyed_set (id : V -> Z) k v m :
  keyed id m -> id v = k -> keyed id (JSMap.set k v m).
Proof.
  intros K E. induction K as [|[k' v'] m H K IH]; simpl.
  - repeat constructor. exact E.
  - destruct (Z.eqb_spec k' k) as [->|N].
    + constructor; [exact E | exact K].
    + constructor; [exact H | exact IH].
Qed.



End MapFilter.

Section SortAny.
Context {A : Type}.
Import JSArray.

Lemma sort_ext (f g : A -> A -> Z) (l : list A) :
  (forall a b, f a b = g a b) -> sort f l = sort g l.
Proof.
  intros H. induction l as [|x l IH]; simpl; [reflexivity|].
  rewrite IH. generalize (sort g l). intros s.
  induction s as [|y s IHs]; simpl; [reflexivity|].
  rewrite H, IHs. reflexivity.
Qed.

(** Sorting by ascending [key] is sorting by descending [- key]. *)
Lemma sort_ascending_eq (key : A -> Z) (l : list A) :
  sort (fun a b => key a - key b) l
  = sort (fun a b => (fun x => - key x) b - (fun x => - key x) a) l.
Proof. apply sort_ext. intros a b. lia. Qed.
End SortAny.

Section Deletion.
Import MemStorage Store.

Lemma keyed_deleteAll {V : Type} (id : V -> Z) ks (m : JSMap.t V) :
  keyed id m -> keyed id (JSMap.deleteAll ks m).
Proof. rewrite deleteAll_filter. apply keyed_filter. Qed.

(** Every answer and every admin carries the id it is stored under. *)
Lemma keyed_run c st :
  keyed Answer.id (answers st) -> keyed Answer.id (answers (run c st)).
Proof.
  intros K. destruct c; unfold run; try exact K.
  - rewrite updateQuiz_eq. destruct (JSMap.get id (quizzes st)); exact K.
  - destruct (deleteQuiz_pruned id st)
      as (_ & _ & _ & _ & _ & _ & _ & _ & _ & [ks ->]).
    apply keyed_deleteAll, K.
  - rewrite updateQuestion_eq.
    destruct (JSMap.get id (questions st)); exact K.
  - destruct (deleteQuestion_pruned id st)
      as (_ & _ & _ & _ & _ & _ & _ & _ & _ & [ks ->]).
    apply keyed_deleteAll, K.
  - rewrite updateParticipant_eq.
    destruct (JSMap.get id (participants st)); exact K.
  - destruct (createAnswer_fields answer st) as (_ & _ & _ & -> & _).
    apply keyed_set; [exact K | reflexivity].
Qed.

Lemma reachable_keyed st : reachable st -> keyed Answer.id (answers st).
Proof.
  induction 1 as [|c st R IH]; [constructor | apply keyed_run, IH].
Qed.







End Deletion.

Section Cascade.
Import MemStorage Store.



(** Alice keeps her 150 points when the question she answered is
    deleted, and her answer is gone. *)
Example deleteQuestion_keeps_score :
  fst (getParticipant 1 (snd (deleteQuestion 1 Sample.lobby)))
  = Some (Participant.mk 1 1 "Alice" 150 0)
  /\ fst (getAnswersByParticipant 1 (snd (deleteQuestion 1 Sample.lobby)))
     = [].
Proof. split; vm_compute; reflexivity. Qed.


Lemma sorted_questions_In (quizId : Z) (st : t) (q : Question.t) :
  In q (fst (getQuestionsByQuiz quizId st)) <->
  In q (JSMap.values (questions st))
  /\ (Question.quizId q =? quizId) = true.
Proof.
  unfold getQuestionsByQuiz, read. simpl.
  rewrite (sort_ascending_eq Question.order).
  pose proof (sort_perm (fun x => - Question.order x)
                (filter (fun question => Question.quizId question =? quizId)
                   (JSMap.values (questions st)))) as P.
  split.
  - intros I. apply (Permutation_in _ P), filter_In in I. exact I.
  - intros I. apply (Permutation_in _ (Permutation_sym P)), filter_In.
    exact I.
Qed.



(** The sample quiz deleted: the second quiz and the admin are what is
    left. *)
Example deleteQuiz_lobby :
  let st' := snd (deleteQuiz 1 Sample.lobby) in
  JSMap.keys (quizzes st') = [2] /\ questions st' = []
  /\ participants st' = [] /\ answers st' = []
  /\ JSMap.keys (admins st') = [1].
Proof. repeat split; vm_compute; reflexivity. Qed.

(** [deleteQuiz] deletes each question under the id the record carries.
    After [updateQuestion(1, { id: 2 })] the question stored under 1
    carries the id 2, and [deleteQuiz(1)] leaves it in the store, with
    the quiz it belonged to gone. *)
Example deleteQuiz_by_carried_id :
  let renumbered :=
    run (UpdateQuestion 1 (PartialQuestion.mk (Some 2) None None None None))
      Sample.lobby in
  JSMap.keys (questions (snd (deleteQuiz 1 renumbered))) = [1]
  /\ fst (getQuiz 1 (snd (deleteQuiz 1 renumbered))) = None.
Proof. split; vm_compute; reflexivity. Qed.
End Cascade.

(** ** server/storage.ts: the questions of a quiz, the admins, the scores *)

Section Listings.
Import MemStorage Store.

Lemma StronglySorted_impl {A : Type} (R R' : A -> A -> Prop) (l : list A) :
  (forall a b, R a b -> R' a b) ->
  StronglySorted R l -> StronglySorted R' l.
Proof.
  intros H. induction 1 as [|x l S IH F]; constructor; [exact IH|].
  eapply Forall_impl; [|exact F]. intros b. apply H.
Qed.

(** X15: [getQuestionsByQuiz] lists exactly the stored questions of the
    quiz, each once, by ascending [order]; questions with the same [order]
    are listed in the order they were created, the one under the smaller key
    first. *)
Theorem getQuestionsByQuiz_ordered (st : t) (quizId : Z) :
  reachable st ->
  let listed := fst (getQuestionsByQuiz quizId st) in
  (forall q, In q listed <->
             Question.quizId q = quizId
             /\ exists id, fst (getQuestion id st) = Some q)
  /\ Permutation listed
       (filter (fun q => Question.quizId q =? quizId)
          (JSMap.values (questions st)))
  /\ StronglySorted (fun a b => Question.order a <= Question.order b) listed
  /\ (forall a b,
        JSArray.before a b listed ->
        Question.order a = Question.order b ->
        exists ida idb,
          ida < idb
          /\ fst (getQuestion ida st) = Some a
          /\ fst (getQuestion idb st) = Some b).
Proof.
  intros R listed.
  destruct (reachable_ordered st R) as (_ & _ & O3 & _).
  pose proof (ascending_NoDup _ _ O3) as D.
  assert (L : listed
              = JSArray.sort
                  (fun a b => (fun x => - Question.order x) b
                              - (fun x => - Question.order x) a)
                  (filter (fun q => Question.quizId q =? quizId)
                     (JSMap.values (questions st)))).
  { unfold listed, getQuestionsByQuiz, read. simpl.
    apply (sort_ascending_eq Question.order). }
  split; [|split; [|split]].
  - intros q. unfold listed. rewrite sorted_questions_In.
    unfold getQuestion, read. simpl. split.
    + intros [I E]. split; [apply Z.eqb_eq, E|].
      apply in_map_iff in I. destruct I as ([id q'] & E' & I).
      simpl in E'. subst q'. exists id. apply In_get_Some; assumption.
    + intros (E & id & G). split; [|apply Z.eqb_eq, E].
      apply get_Some_In in G. change q with (snd (id, q)).
      apply in_map, G.
  - rewrite L. apply (sort_perm (fun x => - Question.order x)).
  - rewrite L.
    apply (StronglySorted_impl
             (fun a b => (fun x => - Question.order x) b
                         <= (fun x => - Question.order x) a)).
    + intros a b H. simpl in H. lia.
    + apply (sort_descending (fun x => - Question.order x)).
  - intros a b B E. rewrite L in B.
    apply (sort_stable (fun x => - Question.order x)) in B;
      [|simpl; lia].
    apply before_filter in B.
    destruct (before_values a b _ (proj1 O3) B) as (ka & kb & Lt & Ia & Ib).
    exists ka, kb. unfold getQuestion, read. simpl.
    repeat split; [exact Lt | |]; apply In_get_Some; assumption.
Qed.

Lemma getQuestionsByQuiz_ordered_witness :
  let listed := fst (getQuestionsByQuiz 1 Sample.lobby) in
  (forall q, In q listed <->
             Question.quizId q = 1
             /\ exists id, fst (getQuestion id Sample.lobby) = Some q)
  /\ Permutation listed
       (filter (fun q => Question.quizId q =? 1)
          (JSMap.values (questions Sample.lobby)))
  /\ StronglySorted (fun a b => Question.order a <= Question.order b) listed
  /\ (forall a b,
        JSArray.before a b listed ->
        Question.order a = Question.order b ->
        exists ida idb,
          ida < idb
          /\ fst (getQuestion ida Sample.lobby) = Some a
          /\ fst (getQuestion idb Sample.lobby) = Some b).
Proof.
  exact (getQuestionsByQuiz_ordered Sample.lobby 1 reachable_lobby).
Defined.

(** No call takes an admin away. *)
Lemma admins_run c st :
  ordered st -> exists more, admins (run c st) = admins st ++ more.
Proof.
  intros (O1 & _). destruct c; unfold run;
    try (exists []; rewrite app_nil_r; reflexivity).
  - rewrite createAdmin_eq. simpl.
    rewrite (set_fresh _ _ _ (ascending_fresh _ _ O1)).
    eexists. reflexivity.
  - rewrite updateQuiz_eq. exists []. rewrite app_nil_r.
    destruct (JSMap.get id (quizzes st)); reflexivity.
  - destruct (deleteQuiz_pruned id st) as (A & _). exists [].
    rewrite app_nil_r. exact A.
  - rewrite updateQuestion_eq. exists []. rewrite app_nil_r.
    destruct (JSMap.get id (questions st)); reflexivity.
  - destruct (deleteQuestion_pruned id st) as (A & _). exists [].
    rewrite app_nil_r. exact A.
  - rewrite updateParticipant_eq. exists []. rewrite app_nil_r.
    destruct (JSMap.get id (participants st)); reflexivity.
  - destruct (createAnswer_fields answer st) as (A & _). exists [].
    rewrite app_nil_r. exact A.
Qed.

Lemma ordered_runs cs st : ordered st -> ordered (runs cs st).
Proof.
  revert st. induction cs as [|c cs IH]; intros st O; simpl; [exact O|].
  apply IH, ordered_run, O.
Qed.

Lemma admins_runs cs st :
  ordered st -> exists more, admins (runs cs st) = admins st ++ more.
Proof.
  revert st. induction cs as [|c cs IH]; intros st O; simpl.
  - exists []. rewrite app_nil_r. reflexivity.
  - destruct (admins_run c st O) as [m1 E1].
    destruct (IH (run c st) (ordered_run c st O)) as [m2 E2].
    exists (m1 ++ m2). rewrite E2, E1, app_assoc. reflexivity.
Qed.

Lemma get_app_left {V : Type} (k : Z) (v : V) (m more : JSMap.t V) :
  JSMap.get k m = Some v -> JSMap.get k (m ++ more) = Some v.
Proof.
  induction m as [|[k' v'] m IH]; simpl; [discriminate|].
  destruct (k' =? k); [tauto | exact IH].
Qed.

Lemma find_app_left {A : Type} (f : A -> bool) (l more : list A) (x : A) :
  find f l = Some x -> find f (l ++ more) = Some x.
Proof.
  induction l as [|y l IH]; simpl; [discriminate|].
  destruct (f y); [tauto | exact IH].
Qed.

(** X16: No call removes or changes an admin: what [getAdmin] and
    [getAdminByUsername] return once, they return after any further calls, a
    later admin of the same name notwithstanding. So the default admin of
    the constructor, with its password, stays whatever is called. *)
Theorem admins_stay (later : list call) :
  (forall st,
      reachable st ->
      (forall id admin,
          fst (getAdmin id st) = Some admin ->
          fst (getAdmin id (runs later st)) = Some admin)
      /\ (forall username admin,
            fst (getAdminByUsername username st) = Some admin ->
            fst (getAdminByUsername username (runs later st))
            = Some admin))
  /\ (forall now,
        fst (getAdminByUsername "admin" (runs later (constructed now)))
        = Some defaultAdmin).
Proof.
  assert (G : forall st,
             reachable st ->
             (forall id admin,
                 fst (getAdmin id st) = Some admin ->
                 fst (getAdmin id (runs later st)) = Some admin)
             /\ (forall username admin,
                   fst (getAdminByUsername username st) = Some admin ->
                   fst (getAdminByUsername username (runs later st))
                   = Some admin)).
  { intros st R.
    destruct (admins_runs later st (reachable_ordered st R)) as [more E].
    unfold getAdmin, getAdminByUsername, read. simpl. rewrite E. split.
    - intros id admin. apply get_app_left.
    - intros username admin. unfold JSMap.values. rewrite map_app.
      apply find_app_left. }
  split; [exact G|].
  intros now.
  apply (proj2 (G (constructed now) (reachable_constructed now))).
  vm_compute. reflexivity.
Qed.
End Listings.

Section Tally.
Import MemStorage Store.

(** What holds while a quiz is played: ascending keys, participants under
    their ids, every score the total of the participant's answers, and
    no answer of a participant yet to come. *)
Let tallied (st : t) : Prop :=
  wf st /\ idsOk st
  /\ (forall k p, JSMap.get k (participants st) = Some p ->
                  Participant.score p = total k st)
  /\ Forall (fun a => Answer.participantId a < participantId st)
       (JSMap.values (answers st))
  /\ (forall k p, JSMap.get k (participants st) = Some p ->
                  safe (Participant.score p))
  /\ (forall k p, JSMap.get k (participants st) = Some p ->
                  ofZ (Participant.score p) = total64 k st).

Lemma total_eq k st :
  total k st
  = fold_right Z.add 0
      (map Answer.score
         (filter (fun a => Answer.participantId a =? k)
            (JSMap.values (answers st)))).
Proof. reflexivity. Qed.

Lemma total64_eq k st :
  total64 k st
  = fold_left (fun sum a => (sum + ofZ (Answer.score a))%float)
      (filter (fun a => Answer.participantId a =? k)
         (JSMap.values (answers st))) (ofZ 0).
Proof. reflexivity. Qed.

Lemma sum_snoc (l : list Z) (x : Z) :
  fold_right Z.add 0 (l ++ [x]) = fold_right Z.add 0 l + x.
Proof. induction l as [|y l IH]; simpl; [lia | rewrite IH; lia]. Qed.

Lemma tallied_same st st' :
  participants st' = participants st -> answers st' = answers st ->
  participantId st' = participantId st -> answerId st' = answerId st ->
  tallied st -> tallied st'.
Proof.
  intros P A I J (W & K & S & F & B & T64). unfold tallied, wf, idsOk.
  setoid_rewrite total_eq. setoid_rewrite total64_eq.
  rewrite P, A, I, J.
  setoid_rewrite total_eq in S. setoid_rewrite total64_eq in T64.
  split; [exact W|]. split; [exact K|]. split; [exact S|].
  split; [exact F|]. split; [exact B | exact T64].
Qed.

Lemma tallied_run c st : tallied st -> playing c st -> tallied (run c st).
Proof.
  intros T P. pose proof T as (W & K & S & F & B & T64).
  destruct c; simpl in P; try contradiction; unfold run.
  - apply (tallied_same st); try reflexivity. exact T.
  - apply (tallied_same st); try reflexivity. exact T.
  - rewrite updateQuiz_eq.
    destruct (JSMap.get id (quizzes st)); [|exact T].
    apply (tallied_same st); try reflexivity. exact T.
  - apply (tallied_same st); try reflexivity. exact T.
  - rewrite updateQuestion_eq.
    destruct (JSMap.get id (questions st)); [|exact T].
    apply (tallied_same st); try reflexivity. exact T.
  - (* a participant joins, with no points *)
    pose proof (wf_run (CreateParticipant participant now) st W) as W'.
    pose proof (idsOk_run (CreateParticipant participant now) st K I)
      as K'.
    unfold run in W', K'. split; [exact W'|]. split; [exact K'|].
    assert (None' : filter (fun a => Answer.participantId a
                                     =? participantId st)
                      (JSMap.values (answers st)) = []).
    { apply filter_none. intros a I'. rewrite Forall_forall in F.
      specialize (F a I'). apply Z.eqb_neq. lia. }
    rewrite createParticipant_eq. simpl.
    split; [|split; [|split]].
    + intros k p. setoid_rewrite total_eq. simpl.
      destruct (Z.eq_dec k (participantId st)) as [->|N].
      * rewrite get_set_same. intros H. injection H as <-. simpl.
        rewrite P, None'. reflexivity.
      * rewrite get_set_other by exact N. intros H.
        rewrite (S k p H). apply total_eq.
    + eapply Forall_impl; [|exact F]. simpl. intros. lia.
    + intros k p.
      destruct (Z.eq_dec k (participantId st)) as [->|N].
      * rewrite get_set_same. intros H. injection H as <-. simpl.
        rewrite P. unfold safe. lia.
      * rewrite get_set_other by exact N. apply B.
    + intros k p. setoid_rewrite total64_eq. simpl.
      destruct (Z.eq_dec k (participantId st)) as [->|N].
      * rewrite get_set_same. intros H. injection H as <-. simpl.
        rewrite P, None'. reflexivity.
      * rewrite get_set_other by exact N. intros H.
        rewrite (T64 k p H). apply total64_eq.
  - (* an update that sets neither score nor id *)
    destruct P as [P1 P2].
    pose proof (wf_run (UpdateParticipant id participant) st W) as W'.
    pose proof (idsOk_run (UpdateParticipant id participant) st K
                  (conj P1 P2)) as K'.
    unfold run in W', K'. split; [exact W'|]. split; [exact K'|].
    rewrite updateParticipant_eq.
    destruct (JSMap.get id (participants st)) as [existing|] eqn:G;
      [|split; [exact S|]; split; [exact F|]; split; [exact B | exact T64]].
    simpl. split; [|split; [exact F|split]].
    + intros k p. setoid_rewrite total_eq. simpl.
      destruct (Z.eq_dec k id) as [->|N].
      * rewrite get_set_same. intros H. injection H as <-.
        unfold spreadParticipant. simpl. rewrite P1. simpl.
        rewrite (S id existing G). apply total_eq.
      * rewrite get_set_other by exact N. intros H.
        rewrite (S k p H). apply total_eq.
    + intros k p.
      destruct (Z.eq_dec k id) as [->|N].
      * rewrite get_set_same. intros H. injection H as <-.
        unfold spreadParticipant. simpl. rewrite P1. simpl.
        apply (B id existing G).
      * rewrite get_set_other by exact N. apply B.
    + intros k p. setoid_rewrite total64_eq. simpl.
      destruct (Z.eq_dec k id) as [->|N].
      * rewrite get_set_same. intros H. injection H as <-.
        unfold spreadParticipant. simpl. rewrite P1. simpl.
        rewrite (T64 id existing G). apply total64_eq.
      * rewrite get_set_other by exact N. intros H.
        rewrite (T64 k p H). apply total64_eq.
  - (* an answer of a participant of the store *)
    pose proof (wf_run (CreateAnswer answer) st W) as W'.
    unfold run in W'. split; [exact W'|].
    destruct P as (p & G & A0 & A1).
    pose proof (K _ _ G) as Kp.
    assert (PS : participants (snd (createAnswer answer st))
                 = JSMap.set (InsertAnswer.participantId answer)
                     (Participant.mk (Participant.id p)
                        (Participant.quizId p) (Participant.alias p)
                        (Participant.score p + InsertAnswer.score answer)
                        (Participant.joinedAt p))
                     (participants st)).
    { rewrite participants_createAnswer, G, Kp, G.
      unfold spreadParticipant, scorePatch, spread. simpl.
      rewrite Kp. reflexivity. }
    destruct (createAnswer_fields answer st)
      as (_ & _ & _ & AS & _ & _ & _ & PI & _).
    assert (VS : JSMap.values (answers (snd (createAnswer answer st)))
                 = JSMap.values (answers st) ++ [newAnswerOf answer st]).
    { rewrite AS. apply values_set_fresh.
      apply (ascending_fresh _ _ (proj2 W)). }
    unfold idsOk. setoid_rewrite total_eq. setoid_rewrite total64_eq.
    rewrite PS, VS, PI.
    split; [|split; [|split; [|split]]].
    + intros k q.
      destruct (Z.eq_dec k (InsertAnswer.participantId answer)) as [->|N].
      * rewrite get_set_same. intros H. injection H as <-. exact Kp.
      * rewrite get_set_other by exact N. apply K.
    + intros k q. rewrite filter_app, map_app. simpl.
      destruct (Z.eq_dec k (InsertAnswer.participantId answer)) as [->|N].
      * rewrite get_set_same. intros H. injection H as <-. simpl.
        rewrite Z.eqb_refl. simpl. rewrite sum_snoc.
        rewrite (S _ p G), total_eq. reflexivity.
      * rewrite get_set_other by exact N. intros H.
        destruct (Z.eqb_spec (InsertAnswer.participantId answer) k);
          [congruence|].
        simpl. rewrite app_nil_r. rewrite (S k q H). apply total_eq.
    + apply Forall_app. split; [exact F|]. repeat constructor. simpl.
      exact (present_below_counter st _ p W G).
    + intros k q.
      destruct (Z.eq_dec k (InsertAnswer.participantId answer)) as [->|N].
      * rewrite get_set_same. intros H. injection H as <-. exact A1.
      * rewrite get_set_other by exact N. apply B.
    + intros k q. rewrite filter_app. simpl.
      destruct (Z.eq_dec k (InsertAnswer.participantId answer)) as [->|N].
      * rewrite get_set_same. intros H. injection H as <-. simpl.
        rewrite Z.eqb_refl, fold_left_app. simpl.
        rewrite <- total64_eq, <- (T64 _ p G).
        symmetry. apply plus_whole; [exact (B _ p G) | exact A0 | exact A1].
      * rewrite get_set_other by exact N. intros H.
        destruct (Z.eqb_spec (InsertAnswer.participantId answer) k);
          [congruence|].
        rewrite app_nil_r. rewrite (T64 k q H). apply total64_eq.
Qed.

Lemma played_tallied st : played st -> tallied st.
Proof.
  induction 1 as [|c st R IH P].
  - split; [apply wf_empty|]. split; [apply idsOk_empty|].
    split; [discriminate|]. split; [constructor|].
    split; discriminate.
  - apply tallied_run; assumption.
Qed.

(** X17: While a quiz is played by calls made one after the other, each
    returned before the next is made (participants join without points,
    answers come from participants of the store with points that keep
    the score below 2^53 in absolute value, no update sets a score or an
    id, nothing is deleted), the score of every participant is the total
    of the scores of the answers stored for the participant, and it is
    what adding them up in binary64, answer after answer, gives. *)
Theorem score_is_total (st : t) (id : Z) (participant : Participant.t) :
  played st ->
  fst (getParticipant id st) = Some participant ->
  Participant.score participant = total id st
  /\ safe (Participant.score participant)
  /\ ofZ (Participant.score participant) = total64 id st.
Proof.
  intros P G. destruct (played_tallied st P) as (_ & _ & S & _ & B & T64).
  split; [exact (S id participant G)|].
  split; [exact (B id participant G) | exact (T64 id participant G)].
Qed.

Lemma score_is_total_witness :
  Participant.score (Participant.mk 1 1 "Alice" 300 0)
  = total 1 (run (CreateAnswer Sample.submission)
               (run (CreateAnswer Sample.submission)
                  (run (CreateParticipant Sample.alice 0) empty)))
  /\ safe (Participant.score (Participant.mk 1 1 "Alice" 300 0))
  /\ ofZ (Participant.score (Participant.mk 1 1 "Alice" 300 0))
     = total64 1 (run (CreateAnswer Sample.submission)
                   (run (CreateAnswer Sample.submission)
                      (run (CreateParticipant Sample.alice 0) empty))).
Proof.
  apply (score_is_total
           (run (CreateAnswer Sample.submission)
              (run (CreateAnswer Sample.submission)
                 (run (CreateParticipant Sample.alice 0) empty)))
           1 (Participant.mk 1 1 "Alice" 300 0)).
  - apply played_run; [apply played_run; [apply played_run|]|].
    + apply played_empty.
    + reflexivity.
    + exists (Participant.mk 1 1 "Alice" 0 0).
      split; [reflexivity|]. split; split; reflexivity.
    + exists (Participant.mk 1 1 "Alice" 150 0).
      split; [reflexivity|]. split; split; reflexivity.
  - reflexivity.
Defined.

(** Two answers submitted while the first call still waits: both are
    stored, and the score is the points of one. *)
Example overlapping_answers_lose_points :
  let st :=
    fst (InFlight.steps
           [InFlight.Enter Sample.submission;
            InFlight.Enter Sample.submission;
            InFlight.Resume 0; InFlight.Resume 0] (Sample.joined, [])) in
  total 1 st = 300
  /\ fst (getParticipant 1 st) = Some (Participant.mk 1 1 "Alice" 150 0).
Proof. split; vm_compute; reflexivity. Qed.
End Tally.

(** ** client/src/lib/utils/quiz.ts: [generateQuizCode] of the client *)

Section ClientCode.
Import MemStorage.
Local Open Scope nat_scope.

Lemma append_assoc (s1 s2 s3 : string) :
  ((s1 ++ s2) ++ s3 = s1 ++ (s2 ++ s3))%string.
Proof.
  induction s1 as [|c s1 IH]; simpl; [reflexivity | rewrite IH; reflexivity].
Qed.

Lemma codeFrom_prefix (draws : list nat) :
  forall code, codeFrom code draws = (code ++ codeOf draws)%string.
Proof.
  unfold codeOf. induction draws as [|d draws IH]; intros code; simpl.
  - induction code as [|c code IHc]; simpl; [reflexivity|].
    rewrite <- IHc. reflexivity.
  - rewrite IH, (IH (charAt characters d)), append_assoc. reflexivity.
Qed.

(** The alphabet has no character twice. *)
Lemma charAt_inj (i j : nat) :
  inRange i -> inRange j ->
  charAt characters i = charAt characters j -> i = j.
Proof.
  unfold inRange. simpl String.length. intros I J.
  do 32 (destruct i as [|i];
         [do 32 (destruct j as [|j];
                 [first [reflexivity | discriminate]|]); lia|]).
  lia.
Qed.

Lemma codeOf_cons (d : nat) (draws : list nat) :
  codeOf (d :: draws) = (charAt characters d ++ codeOf draws)%string.
Proof. unfold codeOf at 1. simpl. apply codeFrom_prefix. Qed.

(** Different draws spell different codes. *)
Lemma codeOf_inj (a : list nat) :
  forall b, Forall inRange a -> Forall inRange b ->
            codeOf a = codeOf b -> a = b.
Proof.
  induction a as [|x a IH]; intros [|y b] A B E.
  - reflexivity.
  - exfalso. inversion B as [|? ? Y _]; subst.
    destruct (charAt_in_range characters y Y) as (c & C & _).
    rewrite codeOf_cons, C in E. discriminate.
  - exfalso. inversion A as [|? ? X _]; subst.
    destruct (charAt_in_range characters x X) as (c & C & _).
    rewrite codeOf_cons, C in E. discriminate.
  - inversion A as [|? ? X A']; subst. inversion B as [|? ? Y B']; subst.
    rewrite !codeOf_cons in E.
    destruct (charAt_in_range characters x X) as (c & C & _).
    destruct (charAt_in_range characters y Y) as (c' & C' & _).
    pose proof E as E'. rewrite C, C' in E'. simpl in E'.
    injection E' as Ec Er.
    f_equal.
    + apply charAt_inj; try assumption. rewrite C, C', Ec. reflexivity.
    + apply IH; assumption.
Qed.

(** X7: The client's [generateQuizCode] spells a code of six characters of
    the alphabet from six draws, different draws spelling different codes.
    It never looks at the store: it returns the code whether or not a quiz
    has it, and when no quiz has it the [generateQuizCode] of the store
    returns the same code from the same draws. *)
Theorem generateQuizCode_client_unchecked
  (st : t) (six rest : list nat) :
  List.length six = 6 -> Forall inRange six ->
  Quiz_ts.generateQuizCode (six ++ rest) = Some (codeOf six, rest)
  /\ String.length (codeOf six) = 6
  /\ inAlphabet (codeOf six)
  /\ (forall six',
        Forall inRange six' -> codeOf six' = codeOf six -> six' = six)
  /\ (taken (codeOf six) st = false ->
      fst (generateQuizCode (six ++ rest) st)
      = Quiz_ts.generateQuizCode (six ++ rest)).
Proof.
  intros L R. destruct (codeOf_six six R L) as [C1 C2].
  assert (G : Quiz_ts.generateQuizCode (six ++ rest)
              = Some (codeOf six, rest)).
  { destruct six as [|a [|b [|c [|d [|e [|f [|g six]]]]]]];
      try discriminate L. reflexivity. }
  split; [exact G|]. split; [exact C1|]. split; [exact C2|]. split.
  - intros six' R' E. apply codeOf_inj; assumption.
  - intros T. rewrite G, (generateQuizCode_eq six rest st L), T.
    reflexivity.
Qed.

(** The draws 0,...,5 spell ABCDEF, the code of the second quiz of the
    sample session: the client returns it all the same. *)
Lemma generateQuizCode_client_unchecked_witness :
  Quiz_ts.generateQuizCode ([0; 1; 2; 3; 4; 5] ++ [6])
  = Some (codeOf [0; 1; 2; 3; 4; 5], [6])
  /\ String.length (codeOf [0; 1; 2; 3; 4; 5]) = 6
  /\ inAlphabet (codeOf [0; 1; 2; 3; 4; 5])
  /\ (forall six',
        Forall inRange six' ->
        codeOf six' = codeOf [0; 1; 2; 3; 4; 5] ->
        six' = [0; 1; 2; 3; 4; 5])
  /\ (taken (codeOf [0; 1; 2; 3; 4; 5]) Sample.lobby = false ->
      fst (generateQuizCode ([0; 1; 2; 3; 4; 5] ++ [6]) Sample.lobby)
      = Quiz_ts.generateQuizCode ([0; 1; 2; 3; 4; 5] ++ [6])).
Proof.
  apply (generateQuizCode_client_unchecked Sample.lobby
           [0; 1; 2; 3; 4; 5] [6]).
  - reflexivity.
  - repeat constructor.
Defined.

Example generateQuizCode_client_taken :
  Quiz_ts.generateQuizCode [0; 1; 2; 3; 4; 5] = Some ("ABCDEF"%string, [])
  /\ taken "ABCDEF" Sample.lobby = true.
Proof. split; vm_compute; reflexivity. Qed.
End ClientCode.

(** ** server/storage.ts: the answers of a participant, of a question *)

Section AnswerLists.
Import MemStorage Store.

Lemma keys_keyed {V : Type} (id : V -> Z) (m : JSMap.t V) :
  keyed id m -> map id (JSMap.values m) = JSMap.keys m.
Proof.
  induction 1 as [|[k v] m H K IH]; simpl; [reflexivity|].
  simpl in H. rewrite H, IH. reflexivity.
Qed.

Lemma StronglySorted_map_filter {V : Type} (id : V -> Z) (f : V -> bool)
  (l : list V) :
  StronglySorted Z.lt (map id l) ->
  StronglySorted Z.lt (map id (filter f l)).
Proof.
  induction l as [|x l IH]; simpl; intros S; [constructor|].
  inversion S as [|? ? S' F]; subst.
  destruct (f x); [|exact (IH S')].
  simpl. constructor; [exact (IH S')|].
  rewrite Forall_forall in *. intros y I. apply F.
  apply in_map_iff in I. destruct I as (v & E & I).
  apply filter_In in I. apply in_map_iff. exists v. tauto.
Qed.

Lemma listed_answers (f : Answer.t -> bool) (st : t) :
  reachable st ->
  (forall a, In a (filter f (JSMap.values (answers st))) <->
             f a = true /\ fst (getAnswer (Answer.id a) st) = Some a)
  /\ StronglySorted Z.lt
       (map Answer.id (filter f (JSMap.values (answers st)))).
Proof.
  intros R. pose proof (reachable_keyed st R) as K.
  destruct (reachable_ordered st R) as (_ & _ & _ & _ & O5).
  pose proof (ascending_NoDup _ _ O5) as D. split.
  - intros a. rewrite filter_In. unfold getAnswer, read. simpl. split.
    + intros [I F]. split; [exact F|].
      apply in_map_iff in I. destruct I as ([k a'] & E & I).
      simpl in E. subst a'.
      unfold keyed in K. rewrite Forall_forall in K.
      pose proof (K _ I) as E. simpl in E. rewrite E.
      apply In_get_Some; assumption.
    + intros [F G]. split; [|exact F].
      apply get_Some_In in G.
      change a with (snd (Answer.id a, a)). apply in_map, G.
  - apply StronglySorted_map_filter.
    rewrite (keys_keyed _ _ K). exact (proj1 O5).
Qed.

(** X18: [getAnswersByParticipant] and [getAnswersByQuestion] list
    exactly the stored answers that name the participant, or the
    question, in the order in which they were submitted: by ascending
    id, no answer twice. *)
Theorem answers_in_submission_order (st : t) (id : Z) :
  reachable st ->
  (forall a,
      In a (fst (getAnswersByParticipant id st)) <->
      Answer.participantId a = id
      /\ fst (getAnswer (Answer.id a) st) = Some a)
  /\ StronglySorted Z.lt
       (map Answer.id (fst (getAnswersByParticipant id st)))
  /\ (forall a,
        In a (fst (getAnswersByQuestion id st)) <->
        Answer.questionId a = id
        /\ fst (getAnswer (Answer.id a) st) = Some a)
  /\ StronglySorted Z.lt
       (map Answer.id (fst (getAnswersByQuestion id st))).
Proof.
  intros R.
  destruct (listed_answers (fun a => Answer.participantId a =? id) st R)
    as [P1 P2].
  destruct (listed_answers (fun a => Answer.questionId a =? id) st R)
    as [Q1 Q2].
  split; [|split; [exact P2 | split; [|exact Q2]]].
  - intros a. rewrite <- Z.eqb_eq. apply P1.
  - intros a. rewrite <- Z.eqb_eq. apply Q1.
Qed.

Lemma answers_in_submission_order_witness :
  let st := snd (createAnswers [Sample.submission; Sample.submission]
                   Sample.lobby) in
  (forall a,
      In a (fst (getAnswersByParticipant 1 st)) <->
      Answer.participantId a = 1
      /\ fst (getAnswer (Answer.id a) st) = Some a)
  /\ StronglySorted Z.lt
       (map Answer.id (fst (getAnswersByParticipant 1 st)))
  /\ (forall a,
        In a (fst (getAnswersByQuestion 1 st)) <->
        Answer.questionId a = 1
        /\ fst (getAnswer (Answer.id a) st) = Some a)
  /\ StronglySorted Z.lt
       (map Answer.id (fst (getAnswersByQuestion 1 st))).
Proof.
  apply (answers_in_submission_order
           (snd (createAnswers [Sample.submission; Sample.submission]
                   Sample.lobby)) 1).
  change (reachable (runs [CreateAnswer Sample.submission;
                           CreateAnswer Sample.submission] Sample.lobby)).
  apply reachable_runs, reachable_lobby.
Defined.

Example answers_of_alice :
  map Answer.id
    (fst (getAnswersByParticipant 1
            (snd (createAnswers [Sample.submission; Sample.submission]
                    Sample.lobby))))
  = [1; 2; 3].
Proof. vm_compute. reflexivity. Qed.
End AnswerLists.

(** ** client/src/lib/utils/quiz.ts: every score from 100 to 150 *)

Section Staircase.
Local Open Scope float_scope.

(** X19: Every whole score from 100 to 150 is the score of a correct
    answer after some whole number of milliseconds: the bonus decays from
    50 to 0 without skipping a value. *)
Theorem calculateScore_every_value (k : Z) :
  (100 <= k <= 150)%Z ->
  exists n : Z,
    (5000 <= n <= 10000)%Z /\ calculateScore true (ofZ n) = ofZ k.
Proof.
  intros H.
  assert (C : forallb
                (fun j : Z =>
                   PrimFloat.Leibniz.eqb
                     (calculateScore true (ofZ (9999 - 100 * j + j / 50)))
                     (ofZ (100 + j)))
                (map Z.of_nat (seq 0 51)) = true)
    by (vm_compute; reflexivity).
  rewrite forallb_forall in C.
  exists (9999 - 100 * (k - 100) + (k - 100) / 50)%Z. split.
  - assert (0 <= (k - 100) / 50 <= 1)%Z
      by (Z.div_mod_to_equations; lia).
    assert (k = 150 -> (k - 100) / 50 = 1)%Z
      by (intros ->; reflexivity).
    lia.
  - assert (I : In (k - 100)%Z (map Z.of_nat (seq 0 51))).
    { apply in_map_iff. exists (Z.to_nat (k - 100)). split; [lia|].
      apply in_seq. lia. }
    pose proof (C _ I) as X. apply FloatAxioms.Leibniz.eqb_spec in X.
    replace (100 + (k - 100))%Z with k in X by lia. exact X.
Qed.

Lemma calculateScore_every_value_witness :
  exists n : Z,
    (5000 <= n <= 10000)%Z /\ calculateScore true (ofZ n) = ofZ 133.
Proof.
  apply (calculateScore_every_value 133). lia.
Defined.

(** The score 133 after 6699 ms; after 6700 ms the score is 132. *)
Example calculateScore_6699 : calculateScore true 6699 = 133.
Proof. vm_compute. reflexivity. Qed.
End Staircase.
